(** * Page cache, cache refill/flush and fixed-size allocator of the Go runtime

    A shallow embedding of [runtime/mpagecache.go] (pageCache.alloc,
    pageCache.allocN, pageCache.flush, pageAlloc.allocToCache) and of
    [runtime/mfixalloc.go] (fixalloc.init, fixalloc.alloc, fixalloc.free),
    with the properties the specification states about them.

    Machine integers are modelled as [Z] with the wrap-around written out:
    [uintptr], [uint] and [uint64] are 64-bit, [uint32] is 32-bit. *)

From Stdlib Require Import ZArith Lia List Bool String Sorted Permutation.
From stdpp Require Import base option list gmap.

Local Open Scope Z_scope.

(** ** 64-bit unsigned arithmetic *)

Module U64.

Definition width : Z := 64.
Definition modulus : Z := 2 ^ 64.
Definition maxval : Z := 2 ^ 64 - 1.

(** Truncation of a mathematical integer to a 64-bit unsigned value. *)
Definition wrap (x : Z) : Z := x mod modulus.

Definition add (x y : Z) : Z := wrap (x + y).
Definition sub (x y : Z) : Z := wrap (x - y).
Definition mul (x y : Z) : Z := wrap (x * y).

(** Go's [x << s] on uint64: a count of 64 or more gives 0. *)
Definition shl (x s : Z) : Z := if 64 <=? s then 0 else wrap (Z.shiftl x s).

(** Go's [x >> s] on uint64. *)
Definition shr (x s : Z) : Z := if 64 <=? s then 0 else Z.shiftr x s.

(** Go's [x &^ m] (bit clear). *)
Definition andnot (x m : Z) : Z := Z.ldiff x m.

(** Go's [^x] on uint64. *)
Definition not (x : Z) : Z := maxval - x.

Definition inRange (x : Z) : Prop := 0 <= x < modulus.

(** [sys.TrailingZeros64]: the number of trailing zero bits, 64 for 0. *)
Fixpoint tzFrom (fuel : nat) (x i : Z) : Z :=
  match fuel with
  | O => i
  | S fuel' => if Z.testbit x i then i else tzFrom fuel' x (i + 1)
  end.

Definition TrailingZeros64 (x : Z) : Z := tzFrom 64 x 0.

(** The bit positions [lo, lo+1, ..., lo+n-1]. *)
Definition bitRange (lo : Z) (n : nat) : list Z :=
  map (fun k => lo + Z.of_nat k) (seq 0 n).

(** Number of positions in [lo, lo+n) at which [P] holds. *)
Definition countIn (P : Z -> bool) (lo : Z) (n : nat) : Z :=
  Z.of_nat (length (filter (fun j => P j = true) (bitRange lo n))).

(** [sys.OnesCount64]: the population count of a 64-bit value. *)
Definition OnesCount64 (x : Z) : Z := countIn (Z.testbit x) 0 64.

End U64.

(** ** 32-bit unsigned arithmetic (fixalloc.nchunk, fixalloc.nalloc) *)

Module U32.

Definition modulus : Z := 2 ^ 32.
Definition wrap (x : Z) : Z := x mod modulus.
Definition sub (x y : Z) : Z := wrap (x - y).

End U32.

(** ** Fatal failures

    [throw] and run-time panics abort the operation; an operation that can
    abort returns an [outcome]. *)

Inductive fatal : Type :=
| Thrown (msg : string)
| IndexOutOfRange
| NilDereference.

Inductive outcome (A : Type) : Type :=
| Done (a : A)
| Fatal (e : fatal).

Arguments Done {A} a.
Arguments Fatal {A} e.

#[global] Instance outcome_ret : MRet outcome := fun A a => Done a.

#[global] Instance outcome_bind : MBind outcome :=
  fun A B f m => match m with Done a => f a | Fatal e => Fatal e end.

Definition orFatal {A : Type} (e : fatal) (o : option A) : outcome A :=
  match o with Some a => Done a | None => Fatal e end.

(** ** Data model *)

(** [type pageCache struct { base uintptr; cache uint64; scav uint64 }] *)
Record pageCache : Type := PageCache { base : Z; cache : Z; scav : Z }.

(** The zero value [pageCache{}]. *)
Definition emptyCache : pageCache := {| base := 0; cache := 0; scav := 0 |}.

(** [const pageCachePages = 8 * unsafe.Sizeof(pageCache{}.cache)] *)
Definition pageCachePages : Z := 8 * 8.

(** Modelled from the spec: a chunk's bitmap is an array of 64-bit words, one
    bit per page (the type [pageBits] of mpallocbits.go is missing). Bit [i]
    lives in word [i/64] at position [i%64]. *)
Abbreviation pageBits := (list Z).

(** Modelled from the spec: each chunk owns an alloc bitmap and a scavenged
    bitmap (the type [pallocData] is missing). The call sites in
    mpagecache.go take the complement of [pages64] as the free bitmap, so in
    [pallocBits] a set bit is a page in use. *)
Record pallocData : Type := PallocData { pallocBits : pageBits; scavenged : pageBits }.

(** The fields of [pageAlloc] that mpagecache.go reads and writes.
    [searchAddr] is an [offAddr], stored as its address. *)
Record pageAlloc : Type := PageAlloc {
  summary : list (list Z);
  chunks : gmap Z pallocData;
  searchAddr : Z;
  start : Z;
  end_ : Z
}.

Definition set_searchAddr (p : pageAlloc) (a : Z) : pageAlloc :=
  {| summary := summary p; chunks := chunks p; searchAddr := a;
     start := start p; end_ := end_ p |}.

Definition set_summary (p : pageAlloc) (s : list (list Z)) : pageAlloc :=
  {| summary := s; chunks := chunks p; searchAddr := searchAddr p;
     start := start p; end_ := end_ p |}.

Definition set_chunk (p : pageAlloc) (ci : Z) (d : pallocData) : pageAlloc :=
  {| summary := summary p; chunks := <[ci := d]> (chunks p);
     searchAddr := searchAddr p; start := start p; end_ := end_ p |}.

(** [type fixalloc struct]. [fa_first] records whether the callback is
    non-nil; [fa_arg] and [fa_stat] are opaque handles; [fa_list] is the
    address of the first free object, 0 for nil. *)
Record fixalloc : Type := FixAlloc {
  fa_size : Z;
  fa_first : bool;
  fa_arg : Z;
  fa_list : Z;
  fa_chunk : Z;
  fa_nchunk : Z;
  fa_nalloc : Z;
  fa_inuse : Z;
  fa_stat : Z;
  fa_zero : bool
}.

(** What fixalloc acts on besides its own fields: the [next] word of the
    [mlink] stored at each address (a key without entry reads as nil, memory
    from the system allocator being zeroed), the log of first-touch callback
    invocations (most recent first), and the number of chunks obtained from
    [persistentalloc] so far. Objects are at least one link long, so the
    link words of objects that do not overlap are distinct words. *)
Record world : Type := World {
  links : gmap Z Z;
  touched : list Z;
  nsys : nat
}.

(** ** Constants and helpers of the runtime defined in other files *)

Class Runtime : Type := {
  (** malloc.go: the page size in bytes. *)
  pageSize : Z;
  (** mpallocbits.go: [findBitRange64(c, n)]. *)
  findBitRange64 : Z -> Z -> Z;
  (** mpagealloc.go: [chunkIndex], [chunkBase], [chunkPageIndex]. *)
  chunkIndex : Z -> Z;
  chunkBase : Z -> Z;
  chunkPageIndex : Z -> Z;
  (** mpagealloc.go: [maxSearchAddr()]. *)
  maxSearchAddr : Z;
  (** mpallocbits.go: [pallocBits.find(npages, searchIdx)]. *)
  pallocBits_find : pageBits -> Z -> Z -> Z * Z;
  (** mpagealloc.go: [pageAlloc.find(npages)], which reads [p]. *)
  pageAlloc_find : pageAlloc -> Z -> outcome (Z * Z);
  (** mpagealloc.go: [pageAlloc.update(base, npages, contig, alloc)],
      which recomputes [p.summary]; the result is the new summary. *)
  pageAlloc_update : pageAlloc -> Z -> Z -> bool -> bool -> outcome (list (list Z));
  (** malloc.go: the chunk size fixalloc requests. *)
  _FixAllocChunk : Z;
  (** malloc.go: [persistentalloc(size, align, stat)]; the first argument is
      the number of earlier calls. *)
  persistentalloc : nat -> Z -> Z -> Z
}.

(** ** Chunk bitmaps *)

(** Modelled from the spec: [pageBits.block64] is missing; it is the bitmap
    word holding bit [i], and an index past the array is a panic. *)
Definition block64 (b : pageBits) (i : Z) : outcome Z :=
  orFatal IndexOutOfRange (b !! Z.to_nat (i / 64)).

(** Modelled from the spec: [pallocBits.pages64], the in-use bits of the 64
    pages around page [i]. *)
Definition pages64 (b : pageBits) (i : Z) : outcome Z := block64 b i.

(** The word [w] of [b] holding bit [i] replaced by [f w]. *)
Definition modifyBlock (f : Z -> Z) (b : pageBits) (i : Z) : outcome pageBits :=
  w ← block64 b i; Done (<[Z.to_nat (i / 64) := f w]> b).

(** Modelled from the spec: [pageBits.setBlock64], which sets the bits of [v]
    in the word holding bit [i] (marks those pages). *)
Definition setBlock64 (b : pageBits) (i v : Z) : outcome pageBits :=
  modifyBlock (fun w => Z.lor w v) b i.

(** Modelled from the spec: [pallocBits.allocPages64], which marks in use the
    pages of the 64-page block at [i] selected by [alloc]. *)
Definition allocPages64 (b : pageBits) (i alloc : Z) : outcome pageBits :=
  setBlock64 b i alloc.

(** Modelled from the spec: [pageBits.clearBlock64], which clears the bits of
    [v] in the word holding bit [i]. *)
Definition clearBlock64 (b : pageBits) (i v : Z) : outcome pageBits :=
  modifyBlock (fun w => U64.andnot w v) b i.

(** Modelled from the spec: [pallocBits.free1], which frees page [i] by
    clearing its in-use bit. *)
Definition free1 (b : pageBits) (i : Z) : outcome pageBits :=
  modifyBlock (fun w => U64.andnot w (U64.shl 1 (i mod 64))) b i.

(** Modelled from the spec: [pageBits.setRange], which sets the [n] bits from
    [i] on, one page at a time. *)
Fixpoint setRange (b : pageBits) (i : Z) (n : nat) : outcome pageBits :=
  match n with
  | O => Done b
  | S n' =>
      b' ← modifyBlock (fun w => Z.lor w (U64.shl 1 (i mod 64))) b i;
      setRange b' (i + 1) n'
  end.

(** Bit [k] of a bitmap, [false] past its end. *)
Definition pageBit (b : pageBits) (k : Z) : bool :=
  match b !! Z.to_nat (k / 64) with
  | Some w => Z.testbit w (k mod 64)
  | None => false
  end.

(** Modelled from the spec: [pageAlloc.chunkOf], the bitmaps of chunk [ci]; a
    chunk that was never mapped has none. *)
Definition chunkOf (p : pageAlloc) (ci : Z) : outcome pallocData :=
  orFatal NilDereference (chunks p !! ci).

(** Modelled from the spec: [alignDown(n, a)] rounds [n] down to a multiple of
    [a]. *)
Definition alignDown (n a : Z) : Z := n - n mod a.

(** Modelled from the spec: [offAddr.lessThan], whether one address is lower
    than another. *)
Definition lessThan (a b : Z) : bool := a <? b.

(** ** The page cache (mpagecache.go) *)

Section PageCache.

Context {R : Runtime}.

(** [func (c *pageCache) empty() bool] *)
Definition empty (c : pageCache) : bool := cache c =? 0.

(** [func (c *pageCache) allocN(npages uintptr) (uintptr, uintptr)];
    the result is the pair returned and the cache afterwards. *)
Definition allocN (c : pageCache) (npages : Z) : Z * Z * pageCache :=
  let i := findBitRange64 (cache c) npages in
  if 64 <=? i then (0, 0, c)
  else
    let mask := U64.shl (U64.sub (U64.shl 1 npages) 1) i in
    let s := U64.OnesCount64 (Z.land (scav c) mask) in
    let c' := {| base := base c;
                 cache := U64.andnot (cache c) mask;
                 scav := U64.andnot (scav c) mask |} in
    (U64.add (base c) (U64.mul i pageSize), U64.mul s pageSize, c').

(** [func (c *pageCache) alloc(npages uintptr) (uintptr, uintptr)] *)
Definition alloc (c : pageCache) (npages : Z) : Z * Z * pageCache :=
  if cache c =? 0 then (0, 0, c)
  else if npages =? 1 then
    let i := U64.TrailingZeros64 (cache c) in
    let s := Z.land (U64.shr (scav c) i) 1 in
    let c' := {| base := base c;
                 cache := U64.andnot (cache c) (U64.shl 1 i);
                 scav := U64.andnot (scav c) (U64.shl 1 i) |} in
    (U64.add (base c) (U64.mul i pageSize), U64.mul s pageSize, c')
  else allocN c npages.

(** Repeated [alloc(1)]: the addresses returned by up to [k] calls, stopping
    at the first failure. *)
Fixpoint allocOnes (k : nat) (c : pageCache) : list Z :=
  match k with
  | O => []
  | S k' =>
      if empty c then []
      else let '(a, _, c') := alloc c 1 in a :: allocOnes k' c'
  end.

(** One iteration of the loop of [flush]: bit [i] of both bitmaps. *)
Definition flushBit (c : pageCache) (ci pi i : Z) (p : pageAlloc) : outcome pageAlloc :=
  p1 ← (if Z.land (cache c) (U64.shl 1 i) =? 0 then Done p
        else
          d ← chunkOf p ci;
          b ← free1 (pallocBits d) (U64.add pi i);
          Done (set_chunk p ci {| pallocBits := b; scavenged := scavenged d |}));
  if Z.land (scav c) (U64.shl 1 i) =? 0 then Done p1
  else
    d ← chunkOf p1 ci;
    s ← setRange (scavenged d) (U64.add pi i) 1;
    Done (set_chunk p1 ci {| pallocBits := pallocBits d; scavenged := s |}).

(** [for i := uint(0); i < 64; i++ { ... }], run for [n] iterations from [i]. *)
Fixpoint flushLoop (n : nat) (c : pageCache) (ci pi i : Z) (p : pageAlloc) : outcome pageAlloc :=
  match n with
  | O => Done p
  | S n' => p1 ← flushBit c ci pi i p; flushLoop n' c ci pi (i + 1) p1
  end.

(** [func (c *pageCache) flush(p *pageAlloc)]; the result is the cache and the
    allocator afterwards. *)
Definition flush (c : pageCache) (p : pageAlloc) : outcome (pageCache * pageAlloc) :=
  if empty c then Done (c, p)
  else
    let ci := chunkIndex (base c) in
    let pi := chunkPageIndex (base c) in
    p1 ← flushLoop 64 c ci pi 0 p;
    let p2 := if lessThan (base c) (searchAddr p1)
              then set_searchAddr p1 (base c) else p1 in
    s ← pageAlloc_update p2 (base c) pageCachePages false false;
    Done (emptyCache, set_summary p2 s).

(** The tail of [allocToCache] shared by its two paths: [chunk] is the chunk
    of index [ci] that [c] was read from. *)
Definition takeCache (p : pageAlloc) (ci : Z) (chunk : pallocData) (c : pageCache)
  : outcome (pageCache * pageAlloc) :=
  let cpi := chunkPageIndex (base c) in
  b ← allocPages64 (pallocBits chunk) cpi (cache c);
  s ← clearBlock64 (scavenged chunk) cpi (Z.land (cache c) (scav c));
  let p1 := set_chunk p ci {| pallocBits := b; scavenged := s |} in
  sm ← pageAlloc_update p1 (base c) pageCachePages false true;
  let p2 := set_summary p1 sm in
  Done (c, set_searchAddr p2 (U64.add (base c) (U64.mul pageSize (pageCachePages - 1)))).

(** [func (p *pageAlloc) allocToCache() pageCache]; the result is the cache
    returned and the allocator afterwards. *)
Definition allocToCache (p : pageAlloc) : outcome (pageCache * pageAlloc) :=
  if end_ p <=? chunkIndex (searchAddr p) then Done (emptyCache, p)
  else
    let ci := chunkIndex (searchAddr p) in
    level ← orFatal IndexOutOfRange (last (summary p));
    sum ← orFatal IndexOutOfRange (level !! Z.to_nat ci);
    if negb (sum =? 0) then
      chunk ← chunkOf p ci;
      let j := fst (pallocBits_find (pallocBits chunk) 1 (chunkPageIndex (searchAddr p))) in
      if j =? U64.maxval then Fatal (Thrown "bad summary data")
      else
        pg ← pages64 (pallocBits chunk) j;
        sc ← block64 (scavenged chunk) j;
        takeCache p ci chunk
          {| base := U64.add (chunkBase ci) (U64.mul (alignDown j 64) pageSize);
             cache := U64.not pg;
             scav := sc |}
    else
      r ← pageAlloc_find p 1;
      let addr := fst r in
      if addr =? 0 then Done (emptyCache, set_searchAddr p maxSearchAddr)
      else
        let ci := chunkIndex addr in
        chunk ← chunkOf p ci;
        pg ← pages64 (pallocBits chunk) (chunkPageIndex addr);
        sc ← block64 (scavenged chunk) (chunkPageIndex addr);
        takeCache p ci chunk
          {| base := alignDown addr (64 * pageSize);
             cache := U64.not pg;
             scav := sc |}.

End PageCache.

(** ** The fixed-size allocator (mfixalloc.go) *)

Section FixAlloc.

Context {R : Runtime}.

(** [unsafe.Sizeof(mlink{})]: one pointer. *)
Definition mlinkSize : Z := 8.

(** [f.list.next]: the link stored in the object at [v]. *)
Definition loadNext (w : world) (v : Z) : Z := default 0 (links w !! v).

(** [v.next = l]: the link of the object at [p] overwritten. *)
Definition storeNext (w : world) (p l : Z) : world :=
  {| links := <[p := l]> (links w); touched := touched w; nsys := nsys w |}.

(** [memclrNoHeapPointers(v, n)]: every link word in [v, v+n) reads as nil
    afterwards. *)
Definition memclrNoHeapPointers (w : world) (v n : Z) : world :=
  {| links := filter (fun kv => ~ (v <= kv.1 < v + n)) (links w);
     touched := touched w; nsys := nsys w |}.

(** [f.first(f.arg, v)]: the invocation is recorded. *)
Definition callFirst (w : world) (v : Z) : world :=
  {| links := links w; touched := v :: touched w; nsys := nsys w |}.

(** [func (f *fixalloc) init(size, first, arg, stat)] *)
Definition init (size : Z) (first : bool) (arg stat : Z) : outcome fixalloc :=
  if _FixAllocChunk <? size then Fatal (Thrown "runtime: fixalloc size too large")
  else
    let size := if size <? mlinkSize then mlinkSize else size in
    Done {| fa_size := size;
            fa_first := first;
            fa_arg := arg;
            fa_list := 0;
            fa_chunk := 0;
            fa_nchunk := 0;
            fa_nalloc := U32.wrap (U64.mul (_FixAllocChunk / size) size);
            fa_inuse := 0;
            fa_stat := stat;
            fa_zero := true |}.

(** [func (f *fixalloc) alloc() unsafe.Pointer]; the result is the pointer
    and the allocator and world afterwards. *)
Definition fixalloc_alloc (f : fixalloc) (w : world) : outcome (Z * fixalloc * world) :=
  if fa_size f =? 0 then Fatal (Thrown "runtime: internal error")
  else if negb (fa_list f =? 0) then
    let v := fa_list f in
    let f' := {| fa_size := fa_size f; fa_first := fa_first f; fa_arg := fa_arg f;
                 fa_list := loadNext w v;
                 fa_chunk := fa_chunk f; fa_nchunk := fa_nchunk f;
                 fa_nalloc := fa_nalloc f;
                 fa_inuse := U64.add (fa_inuse f) (fa_size f);
                 fa_stat := fa_stat f; fa_zero := fa_zero f |} in
    let w' := if fa_zero f then memclrNoHeapPointers w v (fa_size f) else w in
    Done (v, f', w')
  else
    let refill := fa_nchunk f <? fa_size f in
    let chunk := if refill then persistentalloc (nsys w) (fa_nalloc f) 0 else fa_chunk f in
    let nchunk := if refill then fa_nalloc f else fa_nchunk f in
    let w1 := if refill
              then {| links := links w; touched := touched w; nsys := S (nsys w) |}
              else w in
    let v := chunk in
    let w2 := if fa_first f then callFirst w1 v else w1 in
    let f' := {| fa_size := fa_size f; fa_first := fa_first f; fa_arg := fa_arg f;
                 fa_list := fa_list f;
                 fa_chunk := U64.add chunk (fa_size f);
                 fa_nchunk := U32.sub nchunk (U32.wrap (fa_size f));
                 fa_nalloc := fa_nalloc f;
                 fa_inuse := U64.add (fa_inuse f) (fa_size f);
                 fa_stat := fa_stat f; fa_zero := fa_zero f |} in
    Done (v, f', w2).

(** [func (f *fixalloc) free(p unsafe.Pointer)]; storing through a nil [p]
    faults. *)
Definition fixalloc_free (f : fixalloc) (w : world) (p : Z) : outcome (fixalloc * world) :=
  if p =? 0 then Fatal NilDereference
  else
    let f' := {| fa_size := fa_size f; fa_first := fa_first f; fa_arg := fa_arg f;
                 fa_list := p;
                 fa_chunk := fa_chunk f; fa_nchunk := fa_nchunk f;
                 fa_nalloc := fa_nalloc f;
                 fa_inuse := U64.sub (fa_inuse f) (fa_size f);
                 fa_stat := fa_stat f; fa_zero := fa_zero f |} in
    Done (f', storeNext w p (fa_list f)).

(** [alloc()] called [k] times; the pointers are listed in the order they
    were returned. *)
Fixpoint allocMany (k : nat) (f : fixalloc) (w : world) : outcome (list Z * fixalloc * world) :=
  match k with
  | O => Done ([], f, w)
  | S k' =>
      r ← fixalloc_alloc f w;
      let '(v, f1, w1) := r in
      r' ← allocMany k' f1 w1;
      let '(vs, f2, w2) := r' in
      Done (v :: vs, f2, w2)
  end.

(** [free(p)] called on each pointer of [ps], in order. *)
Fixpoint freeAll (ps : list Z) (f : fixalloc) (w : world) : outcome (fixalloc * world) :=
  match ps with
  | [] => Done (f, w)
  | p :: ps' =>
      r ← fixalloc_free f w p;
      freeAll ps' r.1 r.2
  end.

(** One call on an allocator: [alloc()] or [free(p)] returning normally. *)
Inductive fixalloc_step : fixalloc * world -> fixalloc * world -> Prop :=
| step_alloc f w v f' w' :
    fixalloc_alloc f w = Done (v, f', w') -> fixalloc_step (f, w) (f', w')
| step_free f w p f' w' :
    fixalloc_free f w p = Done (f', w') -> fixalloc_step (f, w) (f', w').

(** The states reached from [s] by any number of calls. *)
Definition fixalloc_reach : fixalloc * world -> fixalloc * world -> Prop :=
  rtc fixalloc_step.

End FixAlloc.

(** ** A concrete runtime

    The constants and helpers defined in other files, filled in from the
    specification, so that the operations above can be run on examples. *)

Module Model.

(** Modelled from the spec: the page size constant is missing; the spec
    gives 8KiB as the example value. *)
Definition pageSize : Z := 8192.

(** Modelled from the spec: the number of pages of a chunk is missing; the
    spec gives 512 as the example value. *)
Definition pallocChunkPages : Z := 512.

(** Modelled from the spec: the size of a chunk in bytes (the constant
    [pallocChunkBytes] is missing). *)
Definition pallocChunkBytes : Z := pallocChunkPages * pageSize.

(** Modelled from the spec: the loop of [findBitRange64], which is missing
    (see below). [p] counts the bits still to take off the top of every run
    of set bits of [c], [k] is the width of the next shift; each level of
    the recursion is one pass of [for p > 0 { ... }]. [k] doubles and [p]
    shrinks by [k], so 64 passes end every search. *)
Fixpoint shrinkRuns (fuel : nat) (c p k : Z) : Z :=
  match fuel with
  | O => U64.TrailingZeros64 c
  | S fuel' =>
      if p <=? 0 then U64.TrailingZeros64 c
      else if p <=? k then
        U64.TrailingZeros64 (Z.land c (U64.shr c (Z.land p 63)))
      else
        let c' := Z.land c (U64.shr c (Z.land k 63)) in
        if c' =? 0 then 64
        else shrinkRuns fuel' c' (U64.sub p k) (U64.mul k 2)
  end.

(** Modelled from the spec: [findBitRange64] (mpallocbits.go) is missing;
    it finds the lowest-indexed run of [n] consecutive set bits within the
    64-bit bitmap and fails, with a result of 64, if none exists. The model
    is the search as the runtime performs it: every run of set bits is cut
    by [n-1] bits from its top, by [c &= c >> (k & 63)] with [k] doubling
    (the last cut being [c &= c >> (p & 63)] for the [p] bits left), and the
    number of trailing zeros of what remains is returned, with 64 returned
    at once when nothing remains. The shift counts are taken modulo 64, so
    the result is the start of the lowest run for [n] up to 64. *)
Definition findBitRange64 (c n : Z) : Z := shrinkRuns 64 c (U64.sub n 1) 1.

(** Modelled from the spec: [chunkIndex] is missing; a chunk is a contiguous
    span of [pallocChunkPages] pages of the address space, and the index of
    the chunk that holds address [a] is its quotient by the chunk size. *)
Definition chunkIndex (a : Z) : Z := a / pallocChunkBytes.

(** Modelled from the spec: [chunkBase] is missing; the address at which
    chunk [ci] starts. *)
Definition chunkBase (ci : Z) : Z := U64.mul ci pallocChunkBytes.

(** Modelled from the spec: [chunkPageIndex] is missing; the index within
    its chunk of the page that holds address [a]. *)
Definition chunkPageIndex (a : Z) : Z := a mod pallocChunkBytes / pageSize.

(** Modelled from the spec: [maxSearchAddr] is missing; it is a
    sentinel maximum value; here the largest address. *)
Definition maxSearchAddr : Z := U64.maxval.

(** Modelled from the spec: whether the [n] pages from [k] on lie within the
    bitmap and are all free. *)
Definition freeRunAt (b : pageBits) (k n : Z) : bool :=
  if k + n <=? 64 * Z.of_nat (length b)
  then forallb (fun j => negb (pageBit b j)) (U64.bitRange k (Z.to_nat n))
  else false.

(** Modelled from the spec: the scan of [pallocBits.find], trying the pages
    [k], [k+1], ... in turn. *)
Fixpoint findFrom (fuel : nat) (b : pageBits) (n k : Z) : Z :=
  match fuel with
  | O => U64.maxval
  | S fuel' => if freeRunAt b k n then k else findFrom fuel' b n (k + 1)
  end.

(** Modelled from the spec: [pallocBits.find] is missing; it scans
    the chunk's alloc bitmap for the first run of [n] consecutive free bits
    at or after the search index; all bits set in the result mean failure. *)
Definition pallocBits_find (b : pageBits) (n idx : Z) : Z * Z :=
  (findFrom (Z.to_nat (64 * Z.of_nat (length b) - idx)) b n idx, idx).

(** Modelled from the spec: the scan of [pageAlloc.find] over the chunks
    [ci], [ci+1], ..., from page [idx] of the first one. *)
Fixpoint findChunks (fuel : nat) (p : pageAlloc) (n ci idx : Z) : Z :=
  match fuel with
  | O => 0
  | S fuel' =>
      match chunks p !! ci with
      | Some d =>
          let j := fst (pallocBits_find (pallocBits d) n idx) in
          if j =? U64.maxval then findChunks fuel' p n (ci + 1) 0
          else U64.add (chunkBase ci) (U64.mul j pageSize)
      | None => findChunks fuel' p n (ci + 1) 0
      end
  end.

(** Modelled from the spec: [pageAlloc.find] is missing; it
    locates the lowest-addressed free run of [n] pages at or above
    [searchAddr] within the tracked chunks and fails with address 0; the
    model scans the chunks in order and does not join runs across chunks. *)
Definition pageAlloc_find (p : pageAlloc) (n : Z) : outcome (Z * Z) :=
  let ci := chunkIndex (searchAddr p) in
  Done (findChunks (Z.to_nat (end_ p - ci)) p n ci (chunkPageIndex (searchAddr p)),
        searchAddr p).

(** Modelled from the spec: the number of free pages at the start of a
    region, [l] telling page by page which are free. *)
Fixpoint runStart (l : list bool) : Z :=
  match l with
  | true :: l' => 1 + runStart l'
  | _ => 0
  end.

(** Modelled from the spec: the length of the longest free run of a region. *)
Fixpoint runMax (l : list bool) (cur best : Z) : Z :=
  match l with
  | [] => Z.max cur best
  | true :: l' => runMax l' (cur + 1) best
  | false :: l' => runMax l' 0 (Z.max cur best)
  end.

(** Modelled from the spec: a summary entry records, for the chunk, the free
    pages at its start, its longest free run and the free pages at its end;
    here packed into one word, 21 bits each. *)
Definition summarize (d : pallocData) : Z :=
  let b := pallocBits d in
  let free := map (fun k => negb (pageBit b k))
                  (U64.bitRange 0 (64 * length b)) in
  runStart free + runMax free 0 0 * 2 ^ 21 + runStart (rev free) * 2 ^ 42.

(** Modelled from the spec: the chunk-level summaries of the [n] chunks from
    [ci] on recomputed from their bitmaps. *)
Fixpoint updateLeaves (n : nat) (p : pageAlloc) (ci : Z) (leaf : list Z) : list Z :=
  match n with
  | O => leaf
  | S n' =>
      let leaf' := match chunks p !! ci with
                   | Some d => <[Z.to_nat ci := summarize d]> leaf
                   | None => leaf
                   end in
      updateLeaves n' p (ci + 1) leaf'
  end.

(** Modelled from the spec: [pageAlloc.update] is missing; it
    recomputes from the bitmaps the summaries of the region it is given;
    the model keeps the chunk level of the tree only. *)
Definition pageAlloc_update (p : pageAlloc) (base npages : Z) (contig alloc : bool)
  : outcome (list (list Z)) :=
  let lo := chunkIndex base in
  let hi := chunkIndex (base + npages * pageSize - 1) in
  match last (summary p) with
  | Some leaf =>
      Done (<[Nat.pred (length (summary p)) :=
                updateLeaves (Z.to_nat (hi - lo + 1)) p lo leaf]> (summary p))
  | None => Fatal IndexOutOfRange
  end.

(** Modelled from the spec: the chunk-size ceiling [_FixAllocChunk] is
    missing; the comment in [init] gives 16K. *)
Definition _FixAllocChunk : Z := 16 * 1024.

(** Modelled from the spec: the system allocator hands out raw zeroed chunks
    and never takes them back; here the chunks lie 64KiB apart. *)
Definition persistentalloc (n : nat) (size align : Z) : Z :=
  65536 * (Z.of_nat n + 1).

(** The runtime made of the constants and helpers above. *)
Definition runtime : Runtime :=
  Build_Runtime pageSize findBitRange64 chunkIndex chunkBase chunkPageIndex
    maxSearchAddr pallocBits_find pageAlloc_find pageAlloc_update
    _FixAllocChunk persistentalloc.

(** A chunk of 512 pages in which exactly the pages at offsets
    0, 1, 2, 5, 9, 20, 21, 22, 40 and 63 are free and none is scavenged. *)
Definition scattered : Z := 2^0 + 2^1 + 2^2 + 2^5 + 2^9 + 2^20 + 2^21 + 2^22 + 2^40 + 2^63.

Definition chunk0 : pallocData :=
  {| pallocBits := U64.not scattered :: replicate 7 U64.maxval;
     scavenged := replicate 8 0 |}.

(** An allocator over that single chunk, searching from address 0. *)
Definition alloc0 : pageAlloc :=
  {| summary := [[summarize chunk0]];
     chunks := {[ 0 := chunk0 ]};
     searchAddr := 0;
     start := 0;
     end_ := 1 |}.

(** A cache over the pages at [2^20] on: the free pages of [scattered], of
    which those at offsets 1, 5 and 21 are scavenged. *)
Definition cache0 : pageCache :=
  {| base := 2 ^ 20; cache := scattered; scav := 2^1 + 2^5 + 2^21 |}.

(** A cache with no free page left that still records a scavenged page. *)
Definition cache1 : pageCache :=
  {| base := 2 ^ 19; cache := 0; scav := 2^3 |}.

(** An allocator whose search address lies past its only chunk. *)
Definition alloc1 : pageAlloc :=
  {| summary := [[summarize chunk0]];
     chunks := {[ 0 := chunk0 ]};
     searchAddr := pallocChunkBytes;
     start := 0;
     end_ := 1 |}.

(** A cache that was drained: no free page and no scavenged page. *)
Definition cache2 : pageCache :=
  {| base := 2 ^ 19; cache := 0; scav := 0 |}.

(** A chunk with every page in use and none scavenged, and an allocator
    over that single chunk: it has no free page. *)
Definition chunkFull : pallocData :=
  {| pallocBits := replicate 8 U64.maxval; scavenged := replicate 8 0 |}.

Definition alloc2 : pageAlloc :=
  {| summary := [[summarize chunkFull]];
     chunks := {[ 0 := chunkFull ]};
     searchAddr := 0;
     start := 0;
     end_ := 1 |}.

(** A cache over the first 64 pages of chunk 0, with the free pages of
    [scattered], of which the one at offset 1 is scavenged. *)
Definition cache3 : pageCache :=
  {| base := 0; cache := scattered; scav := 2^1 |}.


(** An allocator over two chunks, the first with every page in use, the
    second with the free pages of [chunk0], searching from address 0. *)
Definition alloc3 : pageAlloc :=
  {| summary := [[summarize chunkFull; summarize chunk0]];
     chunks := {[ 0 := chunkFull; 1 := chunk0 ]};
     searchAddr := 0;
     start := 0;
     end_ := 2 |}.

(** A world in which nothing was allocated yet. *)
Definition world0 : world := {| links := ∅; touched := []; nsys := 0 |}.

(** The allocator that [init(16, first, 0, 0)] sets up, and the allocator
    and the world after three calls of [alloc]. *)
Definition fix0 : fixalloc :=
  {| fa_size := 16; fa_first := true; fa_arg := 0; fa_list := 0;
     fa_chunk := 0; fa_nchunk := 0; fa_nalloc := 16384; fa_inuse := 0;
     fa_stat := 0; fa_zero := true |}.

Definition fix1 : fixalloc :=
  {| fa_size := 16; fa_first := true; fa_arg := 0; fa_list := 0;
     fa_chunk := 65536 + 48; fa_nchunk := 16384 - 48; fa_nalloc := 16384;
     fa_inuse := 48; fa_stat := 0; fa_zero := true |}.

Definition world1 : world :=
  {| links := ∅; touched := [65568; 65552; 65536]; nsys := 1 |}.

End Model.

(** ** Well-formed values *)

(** The fields of a [pageCache] are a [uintptr] and two [uint64]. *)
Definition pageCache_ok (c : pageCache) : Prop :=
  U64.inRange (base c) /\ U64.inRange (cache c) /\ U64.inRange (scav c).

(** The address of page [i] of the cache, as [alloc] and [allocN] compute
    it. *)
Definition pageAddr {R : Runtime} (c : pageCache) (i : Z) : Z :=
  U64.add (base c) (U64.mul i pageSize).

(** The pages of the cache lie within the address space, so that no page
    address wraps around. *)
Definition windowFits {R : Runtime} (c : pageCache) : Prop :=
  0 < pageSize /\ 64 * pageSize < U64.modulus /\
  base c + 64 * pageSize <= U64.modulus.

(** The cache that a successful [alloc(1)] taking page [i] leaves. *)
Definition afterOne (c : pageCache) (i : Z) : pageCache :=
  {| base := base c;
     cache := U64.andnot (cache c) (U64.shl 1 i);
     scav := U64.andnot (scav c) (U64.shl 1 i) |}.

(** The bit index at which [alloc] looks for the pages it returns. *)
Definition allocIndex {R : Runtime} (c : pageCache) (npages : Z) : Z :=
  if npages =? 1 then U64.TrailingZeros64 (cache c)
  else findBitRange64 (cache c) npages.

(** Bits [i, i+n) of the word [c] exist and are all set. *)
Definition isRun (c i n : Z) : Prop :=
  0 <= i /\ i + n <= 64 /\ forall j, i <= j < i + n -> Z.testbit c j = true.

(** [i] starts the lowest-indexed run of [n] set bits of [c]. *)
Definition lowestRun (c n i : Z) : Prop :=
  isRun c i n /\ forall i', isRun c i' n -> i <= i'.

(** [c] has no run of [n] set bits. *)
Definition noRun (c n : Z) : Prop := forall i, ~ isRun c i n.

(** What the specification asks of [findBitRange64] on the word [c]: the
    start of the lowest-indexed run, or a result of 64 or more if there is
    none. *)
Definition findsLowestRun (fbr : Z -> Z -> Z) (c n : Z) : Prop :=
  (fbr c n < 64 -> lowestRun c n (fbr c n)) /\
  (64 <= fbr c n -> noRun c n).

(** ** What flush does to a chunk *)

(** Page [k] of the chunk is one of the pages [lo, hi) of the cache window
    that starts at page [pi] of the chunk. *)
Definition inWindow (pi lo hi k : Z) : bool := (pi + lo <=? k) && (k <? pi + hi).

(** [d'] is [d] after the cache bits [lo, hi) have been flushed into it: a
    page whose free bit is set in the cache is free (its in-use bit is
    clear), a page whose scavenged bit is set in the cache is scavenged, and
    every other bit is as it was. *)
Definition flushedBits (c : pageCache) (pi lo hi : Z) (d d' : pallocData) : Prop :=
  length (pallocBits d') = length (pallocBits d) /\
  length (scavenged d') = length (scavenged d) /\
  forall k, 0 <= k ->
    pageBit (pallocBits d') k =
      pageBit (pallocBits d) k &&
      negb (inWindow pi lo hi k && Z.testbit (cache c) (k - pi)) /\
    pageBit (scavenged d') k =
      pageBit (scavenged d) k ||
      (inWindow pi lo hi k && Z.testbit (scav c) (k - pi)).

(** ** What the searches are asked to return

    The specification has the searches return a free page at or above the
    search address, and has all addresses page-aligned. On the allocator [p]
    this asks that its search address be the address of a page, that the
    search within the chunk return no page before the 64-page block of the
    search index, that the search over the allocator return a page-aligned
    address at or above the search address, and that the 64-page block
    around the page found lie within the address space. *)
Definition searchContract {R : Runtime} (p : pageAlloc) : Prop :=
  let sa := searchAddr p in
  let ci := chunkIndex sa in
  let idx := chunkPageIndex sa in
  0 < pageSize /\
  sa = chunkBase ci + idx * pageSize /\ 0 <= idx /\ 0 <= chunkBase ci /\
  (forall d, chunks p !! ci = Some d ->
     let j := (pallocBits_find (pallocBits d) 1 idx).1 in
     j <> U64.maxval ->
     alignDown idx 64 <= j /\
     chunkBase ci + (alignDown j 64 + 64) * pageSize <= U64.modulus) /\
  (forall r, pageAlloc_find p 1 = Done r -> r.1 <> 0 ->
     sa <= r.1 /\ r.1 mod pageSize = 0 /\
     alignDown r.1 (64 * pageSize) + 64 * pageSize <= U64.modulus).

(** The rule for [searchAddr] that the comments of [allocToCache] give:
    it refers to a region above every known chunk only when the allocator
    is out of memory, and is not allowed to point into unmapped heap memory
    unless it is [maxSearchAddr()]. So a search address whose chunk index
    is [end] or more is [maxSearchAddr()]. *)
Definition searchAddr_ok {R : Runtime} (p : pageAlloc) : Prop :=
  end_ p <= chunkIndex (searchAddr p) -> searchAddr p = maxSearchAddr.

(** The two ways in which [allocToCache] finds no free page: the search
    address lies at or above [end] (the immediate short-circuit), or the
    summary at the search address is zero and [find(1)] returns address 0. *)
Definition exhausted {R : Runtime} (p : pageAlloc) : Prop :=
  end_ p <= chunkIndex (searchAddr p) \/
  exists level r,
    chunkIndex (searchAddr p) < end_ p /\
    last (summary p) = Some level /\
    level !! Z.to_nat (chunkIndex (searchAddr p)) = Some 0 /\
    pageAlloc_find p 1 = Done r /\ r.1 = 0.

(** ** Free lists *)

(** In the world [w] the free list that starts at [l] runs through the
    objects [ps], in this order. *)
Fixpoint chain (w : world) (l : Z) (ps : list Z) : Prop :=
  match ps with
  | [] => True
  | p :: ps' => l = p /\ p <> 0 /\ chain w (default 0 (links w !! p)) ps'
  end.

(** The pointers [ps] are the addresses of distinct objects of [size] bytes:
    none is nil, none occurs twice, and none lies within another's bytes. *)
Definition disjointObjects (size : Z) (ps : list Z) : Prop :=
  NoDup ps /\ (0 ∉ ps) /\
  forall p q, p ∈ ps -> q ∈ ps -> p <> q -> ~ (p <= q < p + size).

(** ** What fixalloc asks of the system allocator *)

(** The first [bound] chunks of [n] bytes that [persistentalloc] hands out
    are not nil, end below the top of the address space and do not overlap
    one another. *)
Definition freshChunks {R : Runtime} (n : Z) (bound : nat) : Prop :=
  forall i : nat, (i < bound)%nat ->
    0 < persistentalloc i n 0 /\
    persistentalloc i n 0 + n < U64.modulus /\
    forall j : nat, (j < bound)%nat -> j <> i ->
      persistentalloc j n 0 + n <= persistentalloc i n 0 \/
      persistentalloc i n 0 + n <= persistentalloc j n 0.

(** The allocator [f] has an empty free list and its current chunk, if
    bytes remain in it, ends where a chunk obtained earlier ends. *)
Definition carving {R : Runtime} (f : fixalloc) (w : world) : Prop :=
  fa_list f = 0 /\
  0 <= fa_nchunk f /\ fa_nchunk f mod fa_size f = 0 /\
  (0 < fa_nchunk f ->
   exists m : nat, (m < nsys w)%nat /\
     persistentalloc m (fa_nalloc f) 0 <= fa_chunk f /\
     fa_chunk f + fa_nchunk f = persistentalloc m (fa_nalloc f) 0 + fa_nalloc f).

(** The object at [p] lies in memory that [f] has not handed out yet: in the
    rest of its current chunk or in one of the chunks, up to the first
    [bound], still to be obtained. *)
Definition unusedObject {R : Runtime} (f : fixalloc) (w : world) (bound : nat) (p : Z) : Prop :=
  (fa_chunk f <= p /\ p + fa_size f <= fa_chunk f + fa_nchunk f) \/
  exists n : nat, (nsys w <= n < bound)%nat /\
    persistentalloc n (fa_nalloc f) 0 <= p /\
    p + fa_size f <= persistentalloc n (fa_nalloc f) 0 + fa_nalloc f.

(** ** Sequences of allocations from a page cache *)

(** The cache after [alloc] has been called with each of the page counts
    [ns] in turn. *)
Definition allocAll {R : Runtime} (ns : list Z) (c : pageCache) : pageCache :=
  fold_left (fun c' n => (alloc c' n).2) ns c.

(** [allocToCache] called [k] times in a row; the caches are listed in the
    order they were returned. *)
Fixpoint allocToCacheMany {R : Runtime} (k : nat) (p : pageAlloc)
  : outcome (list pageCache * pageAlloc) :=
  match k with
  | O => Done ([], p)
  | S k' =>
      r ← allocToCache p;
      r' ← allocToCacheMany k' r.2;
      Done (r.1 :: r'.1, r'.2)
  end.

(** ** The objects that fixalloc carves from chunks *)

(** The objects of [size] bytes that lie back to back in the [i]-th chunk
    of [nalloc] bytes obtained from [persistentalloc], in address order. *)
Definition chunkObjects {R : Runtime} (size nalloc : Z) (i : nat) : list Z :=
  (fun x : nat => persistentalloc i nalloc 0 + Z.of_nat x * size)
    <$> seq 0 (Z.to_nat (nalloc / size)).

(** The objects of the [c] chunks obtained from the [n0]-th on, chunk after
    chunk. *)
Definition carvedFrom {R : Runtime} (size nalloc : Z) (n0 c : nat) : list Z :=
  flat_map (chunkObjects size nalloc) (seq n0 c).

(** ** Further example states *)


(** The allocator that [init(8192, nil, 0, 0)] sets up: two objects per
    chunk of 16K; and the allocator and the world after three calls of
    [alloc], the third of which starts a second chunk. *)
Definition fixWide0 : fixalloc :=
  {| fa_size := 8192; fa_first := false; fa_arg := 0; fa_list := 0;
     fa_chunk := 0; fa_nchunk := 0; fa_nalloc := 16384; fa_inuse := 0;
     fa_stat := 0; fa_zero := true |}.

Definition fixWide1 : fixalloc :=
  {| fa_size := 8192; fa_first := false; fa_arg := 0; fa_list := 0;
     fa_chunk := 131072 + 8192; fa_nchunk := 8192; fa_nalloc := 16384;
     fa_inuse := 24576; fa_stat := 0; fa_zero := true |}.

Definition worldWide1 : world := {| links := ∅; touched := []; nsys := 2 |}.

(** ** What the calls of fixalloc leave alone *)

(** The fields that [init] sets and neither [alloc] nor [free] assigns. *)
Definition sameConfiguration (f f' : fixalloc) : Prop :=
  fa_size f' = fa_size f /\ fa_nalloc f' = fa_nalloc f /\
  fa_first f' = fa_first f /\ fa_arg f' = fa_arg f /\
  fa_stat f' = fa_stat f /\ fa_zero f' = fa_zero f.

(** * Properties *)

(** ** Bit-level facts about 64-bit values *)

Module U64Facts.

Import U64.

Lemma modulus_pos : 0 < modulus.
Proof. unfold modulus. lia. Qed.

Lemma wrap_range (x : Z) : inRange (wrap x).
Proof. unfold inRange, wrap. apply Z.mod_pos_bound, modulus_pos. Qed.

Lemma wrap_small (x : Z) : inRange x -> wrap x = x.
Proof. unfold inRange, wrap. intros H. apply Z.mod_small, H. Qed.

Lemma testbit_wrap (x j : Z) :
  Z.testbit (wrap x) j = (j <? 64) && Z.testbit x j.
Proof. unfold wrap, modulus. apply Z.testbit_mod_pow2. lia. Qed.

Lemma testbit_high (x j : Z) : inRange x -> 64 <= j -> Z.testbit x j = false.
Proof.
  intros Hx Hj. rewrite <- (wrap_small x Hx), testbit_wrap.
  replace (j <? 64) with false by (symmetry; apply Z.ltb_ge; lia). reflexivity.
Qed.

Lemma shl_one (i : Z) : 0 <= i < 64 -> shl 1 i = 2 ^ i.
Proof.
  intros Hi. unfold shl.
  replace (64 <=? i) with false by (symmetry; apply Z.leb_gt; lia).
  rewrite Z.shiftl_1_l. apply wrap_small. unfold inRange, modulus.
  split; [apply Z.pow_nonneg; lia | apply Z.pow_lt_mono_r; lia].
Qed.

Lemma testbit_andnot_bit (x i j : Z) :
  0 <= i < 64 ->
  Z.testbit (andnot x (shl 1 i)) j = Z.testbit x j && negb (i =? j).
Proof.
  intros Hi. unfold andnot. rewrite Z.ldiff_spec, shl_one by lia.
  rewrite Z.pow2_bits_eqb by lia. reflexivity.
Qed.

Lemma andnot_range (x m : Z) : inRange x -> 0 <= m -> inRange (andnot x m).
Proof.
  intros Hx Hm. unfold andnot, inRange. split.
  - apply Z.ldiff_nonneg. left. apply Hx.
  - destruct (Z.eq_dec (Z.ldiff x m) 0) as [->|Hne]; [apply modulus_pos|].
    assert (0 <= Z.ldiff x m) by (apply Z.ldiff_nonneg; left; apply Hx).
    unfold modulus. apply Z.log2_lt_pow2; [lia|].
    destruct (Z_lt_le_dec (Z.log2 (Z.ldiff x m)) 64) as [?|Hge]; [assumption|].
    exfalso.
    assert (Hb : Z.testbit (Z.ldiff x m) (Z.log2 (Z.ldiff x m)) = true)
      by (apply Z.bit_log2; lia).
    rewrite Z.ldiff_spec, (testbit_high x) in Hb by (assumption || lia).
    discriminate.
Qed.

Lemma shl_nonneg (x s : Z) : 0 <= shl x s.
Proof.
  unfold shl. destruct (64 <=? s); [lia | apply wrap_range].
Qed.

(** A non-zero 64-bit value has a set bit. *)
Lemma nonzero_bit (x : Z) :
  inRange x -> x <> 0 -> exists j, 0 <= j < 64 /\ Z.testbit x j = true.
Proof.
  intros Hx Hne. exists (Z.log2 x).
  assert (0 < x) by (unfold inRange in Hx; lia).
  split.
  - split; [apply Z.log2_nonneg|].
    apply Z.log2_lt_pow2; [lia | apply Hx].
  - apply Z.bit_log2. lia.
Qed.

Lemma tzFrom_spec (fuel : nat) (x i : Z) :
  i <= tzFrom fuel x i <= i + Z.of_nat fuel /\
  (forall j, i <= j < tzFrom fuel x i -> Z.testbit x j = false) /\
  (tzFrom fuel x i < i + Z.of_nat fuel -> Z.testbit x (tzFrom fuel x i) = true).
Proof.
  revert i. induction fuel as [|fuel IH]; intros i; cbn [tzFrom].
  - repeat split; lia.
  - destruct (Z.testbit x i) eqn:Hb.
    + repeat split; try lia. auto.
    + destruct (IH (i + 1)) as (Hr & Hlow & Hset).
      repeat split; try lia.
      * intros j Hj. destruct (Z.eq_dec j i) as [->|]; [assumption|].
        apply Hlow. lia.
      * intros Hlt. apply Hset. lia.
Qed.

(** [TrailingZeros64] of a non-zero value is the index of its lowest set
    bit. *)
Lemma TrailingZeros64_spec (x : Z) :
  inRange x -> x <> 0 ->
  0 <= TrailingZeros64 x < 64 /\
  Z.testbit x (TrailingZeros64 x) = true /\
  (forall j, 0 <= j < TrailingZeros64 x -> Z.testbit x j = false).
Proof.
  intros Hx Hne. unfold TrailingZeros64.
  destruct (tzFrom_spec 64 x 0) as (Hr & Hlow & Hset).
  destruct (nonzero_bit x Hx Hne) as (j & Hj & Hbit).
  assert (Hlt : tzFrom 64 x 0 < 64).
  { destruct (Z_lt_le_dec (tzFrom 64 x 0) 64) as [?|Hge]; [assumption|].
    rewrite Hlow in Hbit by lia. discriminate. }
  repeat split; try lia.
  - apply Hset. lia.
  - intros k Hk. apply Hlow. lia.
Qed.

(** Any set bit bounds [TrailingZeros64] from above. *)
Lemma TrailingZeros64_le (x j : Z) :
  0 <= j -> Z.testbit x j = true -> TrailingZeros64 x <= j.
Proof.
  intros Hj Hbit. unfold TrailingZeros64.
  destruct (tzFrom_spec 64 x 0) as (Hr & Hlow & Hset).
  destruct (Z_le_gt_dec (tzFrom 64 x 0) j) as [?|Hgt]; [assumption|].
  rewrite Hlow in Hbit by lia. discriminate.
Qed.

Lemma land_shr_one (s i : Z) :
  0 <= i < 64 -> Z.land (shr s i) 1 = Z.b2z (Z.testbit s i).
Proof.
  intros Hi. unfold shr.
  replace (64 <=? i) with false by (symmetry; apply Z.leb_gt; lia).
  change 1 with (Z.ones 1). rewrite Z.land_ones by lia.
  change (2 ^ 1) with 2. rewrite <- Z.bit0_mod, Z.shiftr_spec by lia.
  reflexivity.
Qed.

Lemma land_bit_zero (x i : Z) :
  0 <= i < 64 -> (Z.land x (shl 1 i) =? 0) = negb (Z.testbit x i).
Proof.
  intros Hi. rewrite shl_one by assumption.
  destruct (Z.testbit x i) eqn:Hb; cbn [negb].
  - apply Z.eqb_neq. intros H0.
    assert (Hc : Z.testbit (Z.land x (2 ^ i)) i = true).
    { rewrite Z.land_spec, Hb, Z.pow2_bits_true by lia. reflexivity. }
    rewrite H0, Z.bits_0 in Hc. discriminate.
  - apply Z.eqb_eq. apply Z.bits_inj'. intros n Hn.
    rewrite Z.land_spec, Z.pow2_bits_eqb, Z.bits_0 by lia.
    destruct (Z.eqb_spec i n) as [<-|]; [rewrite Hb|]; auto using andb_false_r.
Qed.

End U64Facts.

(** ** pageCache.alloc with [npages = 1] *)

Section AllocOne.

Context {R : Runtime}.
Import U64 U64Facts.

Lemma pageAddr_exact (c : pageCache) (i : Z) :
  pageCache_ok c -> windowFits c -> 0 <= i < 64 ->
  pageAddr c i = base c + i * pageSize.
Proof.
  intros (Hb & _) (Hps & _ & Hfit) Hi. unfold pageAddr, add, mul.
  unfold inRange in Hb.
  assert (0 <= i * pageSize <= 63 * pageSize) by nia.
  rewrite (wrap_small (i * pageSize)) by (unfold inRange; lia).
  apply wrap_small. unfold inRange. lia.
Qed.

Lemma alloc_one_eq (c : pageCache) :
  pageCache_ok c -> inRange pageSize -> cache c <> 0 ->
  alloc c 1 =
    (pageAddr c (TrailingZeros64 (cache c)),
     if Z.testbit (scav c) (TrailingZeros64 (cache c)) then pageSize else 0,
     afterOne c (TrailingZeros64 (cache c))).
Proof.
  intros (Hb & Hc & Hs) Hps Hne. unfold alloc.
  destruct (Z.eqb_spec (cache c) 0) as [|_]; [contradiction|].
  cbn [Z.eqb Pos.eqb].
  destruct (TrailingZeros64_spec (cache c) Hc Hne) as (Hi & _).
  rewrite land_shr_one by assumption.
  unfold pageAddr, afterOne. f_equal. f_equal.
  destruct (Z.testbit (scav c) (TrailingZeros64 (cache c))); cbn [Z.b2z]; unfold mul.
  - rewrite Z.mul_1_l. apply wrap_small, Hps.
  - reflexivity.
Qed.

Lemma afterOne_ok (c : pageCache) (i : Z) :
  pageCache_ok c -> pageCache_ok (afterOne c i).
Proof.
  intros (Hb & Hc & Hs). unfold pageCache_ok, afterOne; cbn.
  repeat split; try apply Hb; apply andnot_range; auto using shl_nonneg.
Qed.

Lemma allocOnes_from (k : nat) : forall (c : pageCache) (lo : Z),
  pageCache_ok c -> inRange pageSize ->
  (forall j, 0 <= j < lo -> Z.testbit (cache c) j = false) ->
  exists idxs,
    allocOnes k c = map (pageAddr c) idxs /\
    StronglySorted Z.lt idxs /\
    Forall (fun i => lo <= i < 64 /\ Z.testbit (cache c) i = true) idxs.
Proof.
  induction k as [|k IH]; intros c lo Hok Hps Hlo; cbn [allocOnes].
  - exists []. repeat split; constructor.
  - unfold empty. destruct (Z.eqb_spec (cache c) 0) as [Hz|Hne].
    + exists []. repeat split; constructor.
    + rewrite alloc_one_eq by assumption.
      set (i := TrailingZeros64 (cache c)).
      destruct (TrailingZeros64_spec (cache c) (proj1 (proj2 Hok)) Hne)
        as (Hi & Hbit & Hlow). fold i in Hi, Hbit, Hlow.
      assert (Hlo_i : lo <= i).
      { destruct (Z_le_gt_dec lo i) as [?|Hgt]; [assumption|].
        rewrite Hlo in Hbit by lia. discriminate. }
      destruct (IH (afterOne c i) (i + 1)) as (idxs & Heq & Hsorted & Hall).
      * apply afterOne_ok, Hok.
      * assumption.
      * intros j Hj. unfold afterOne; cbn [cache].
        rewrite testbit_andnot_bit by assumption.
        destruct (Z.eqb_spec i j) as [->|Hij]; [apply andb_false_r|].
        rewrite Hlow by lia. reflexivity.
      * exists (i :: idxs). split; [|split].
        -- cbn [map]. f_equal. rewrite Heq.
           apply map_ext. intros a. reflexivity.
        -- constructor; [assumption|].
           eapply Forall_impl; [exact Hall|]. cbv beta. intros a (Ha & _). lia.
        -- constructor; [split; [lia | assumption]|].
           eapply Forall_impl; [exact Hall|]. cbv beta. intros a (Ha & Hta).
           split; [lia|]. unfold afterOne in Hta; cbn [cache] in Hta.
           rewrite testbit_andnot_bit in Hta by assumption.
           apply andb_true_iff in Hta. apply Hta.
Qed.

Lemma pageAddr_sorted (c : pageCache) (idxs : list Z) :
  pageCache_ok c -> windowFits c ->
  StronglySorted Z.lt idxs -> Forall (fun i => 0 <= i < 64) idxs ->
  StronglySorted Z.lt (map (pageAddr c) idxs).
Proof.
  intros Hok Hfit Hs. induction Hs as [|a l Hs IH Hlt]; intros Hall; cbn [map].
  - constructor.
  - inversion Hall as [|? ? Ha Hl]; subst. constructor; [auto|].
    apply Forall_map. rewrite Forall_forall in Hlt, Hl |- *.
    intros x Hx. rewrite !pageAddr_exact by auto.
    specialize (Hlt x Hx). destruct Hfit as (Hps & _). nia.
Qed.

(** C1: for a page cache with a non-zero free bitmap, [alloc(1)] takes the
    page at the lowest set bit [i] of the free bitmap (the trailing-zero
    count): it returns the address [base + i*pageSize] (in [uintptr]
    arithmetic, exact when the cache's pages lie in the address space),
    returns [pageSize] as the scavenged byte count if the scavenged bit [i]
    was set and 0 otherwise, and clears bit [i], and no other bit, in both
    bitmaps; repeated single-page allocations return the pages in strictly
    increasing bit-index order, hence at strictly increasing addresses. *)
Theorem alloc_one_lowest_set_bit (c : pageCache) :
  pageCache_ok c -> inRange pageSize -> cache c <> 0 ->
  exists i c',
    i = TrailingZeros64 (cache c) /\
    0 <= i < 64 /\
    Z.testbit (cache c) i = true /\
    (forall j, 0 <= j < i -> Z.testbit (cache c) j = false) /\
    alloc c 1 =
      (U64.add (base c) (U64.mul i pageSize),
       if Z.testbit (scav c) i then pageSize else 0, c') /\
    (windowFits c -> U64.add (base c) (U64.mul i pageSize) = base c + i * pageSize) /\
    base c' = base c /\
    (forall j, Z.testbit (cache c') j = Z.testbit (cache c) j && negb (i =? j)) /\
    (forall j, Z.testbit (scav c') j = Z.testbit (scav c) j && negb (i =? j)) /\
    (forall k, exists idxs,
        allocOnes k c = map (fun n => U64.add (base c) (U64.mul n pageSize)) idxs /\
        StronglySorted Z.lt idxs /\
        Forall (fun n => 0 <= n < 64 /\ Z.testbit (cache c) n = true) idxs /\
        (windowFits c -> StronglySorted Z.lt (allocOnes k c))).
Proof.
  intros Hok Hps Hne.
  destruct (TrailingZeros64_spec (cache c) (proj1 (proj2 Hok)) Hne)
    as (Hi & Hbit & Hlow).
  exists (TrailingZeros64 (cache c)), (afterOne c (TrailingZeros64 (cache c))).
  split; [reflexivity|]. split; [assumption|]. split; [assumption|].
  split; [assumption|]. split; [apply alloc_one_eq; assumption|].
  split; [intros Hfit; apply (pageAddr_exact c); assumption|].
  split; [reflexivity|].
  split; [intros j; apply testbit_andnot_bit; assumption|].
  split; [intros j; apply testbit_andnot_bit; assumption|].
  intros k.
  destruct (allocOnes_from k c 0 Hok Hps) as (idxs & Heq & Hsorted & Hall);
    [intros j Hj; lia|].
  exists idxs. split; [exact Heq|]. split; [assumption|]. split; [assumption|].
  intros Hfit. rewrite Heq. apply pageAddr_sorted; auto.
  eapply Forall_impl; [exact Hall|]. cbv beta. tauto.
Qed.

End AllocOne.

(** ** pageCache.alloc on an empty cache, and what alloc leaves alone *)

Section AllocFrame.

Context {R : Runtime}.
Import U64 U64Facts.

(** C7: on a page cache whose free bitmap is all zero ([empty] returns
    true), [alloc(npages)] returns the zero address (and a zero scavenged
    count) for every page count, and leaves the cache as it was. *)
Theorem alloc_empty_fails (c : pageCache) (npages : Z) :
  empty c = true -> 1 <= npages ->
  cache c = 0 /\ alloc c npages = (0, 0, c).
Proof.
  unfold empty, alloc. intros He _.
  rewrite He. split; [apply Z.eqb_eq, He | reflexivity].
Qed.

Lemma testbit_shl_one (i j : Z) :
  Z.testbit (shl 1 i) j = (i =? j) && (0 <=? i) && (i <? 64).
Proof.
  unfold shl. destruct (Z.leb_spec 64 i) as [Hge|Hlt].
  - rewrite Z.bits_0. replace (i <? 64) with false by (symmetry; apply Z.ltb_ge; lia).
    symmetry. apply andb_false_r.
  - replace (i <? 64) with true by (symmetry; apply Z.ltb_lt; lia).
    rewrite andb_true_r, testbit_wrap.
    destruct (Z.leb_spec 0 i) as [Hi|Hi].
    + rewrite Z.shiftl_1_l, Z.pow2_bits_eqb, andb_true_r by lia.
      destruct (Z.eqb_spec i j) as [<-|]; [|apply andb_false_r].
      replace (i <? 64) with true by (symmetry; apply Z.ltb_lt; lia). reflexivity.
    + rewrite andb_false_r.
      destruct (Z.ltb_spec j 64); [|reflexivity]. cbn [andb].
      destruct (Z.leb_spec 0 j) as [Hj|Hj].
      * rewrite Z.shiftl_spec by lia.
        apply (Z.bits_above_log2 1); [lia | cbn; lia].
      * apply Z.testbit_neg_r. lia.
Qed.

Lemma sub_shl_one (n : Z) : 0 <= n -> sub (shl 1 n) 1 = Z.ones (Z.min n 64).
Proof.
  intros Hn. unfold sub. destruct (Z.le_gt_cases 64 n) as [Hge|Hlt].
  - unfold shl. replace (64 <=? n) with true by (symmetry; apply Z.leb_le; lia).
    rewrite Z.min_r by lia. reflexivity.
  - rewrite shl_one, Z.min_l, Z.ones_equiv by lia.
    apply wrap_small. unfold inRange, modulus.
    assert (0 < 2 ^ n) by (apply Z.pow_pos_nonneg; lia).
    assert (2 ^ n < 2 ^ 64) by (apply Z.pow_lt_mono_r; lia). lia.
Qed.

(** The bits of the mask that [allocN] builds for [n] pages at index [i]. *)
Lemma testbit_mask (i n j : Z) :
  0 <= n -> 0 <= j -> i < 64 ->
  Z.testbit (shl (sub (shl 1 n) 1) i) j =
    (j <? 64) && (i <=? j) && (j <? i + Z.min n 64).
Proof.
  intros Hn Hj Hi. rewrite sub_shl_one by assumption. unfold shl.
  replace (64 <=? i) with false by (symmetry; apply Z.leb_gt; lia).
  rewrite testbit_wrap, Z.shiftl_spec, Z.testbit_ones by lia.
  rewrite <- andb_assoc. f_equal.
  lia.
Qed.

Lemma allocN_frame (c : pageCache) (npages : Z) :
  0 <= npages ->
  base (allocN c npages).2 = base c /\
  (forall j, 0 <= j ->
     ~ (findBitRange64 (cache c) npages <= j < findBitRange64 (cache c) npages + npages) ->
     Z.testbit (cache (allocN c npages).2) j = Z.testbit (cache c) j /\
     Z.testbit (scav (allocN c npages).2) j = Z.testbit (scav c) j) /\
  (forall j, Z.testbit (cache (allocN c npages).2) j = true -> Z.testbit (cache c) j = true) /\
  (forall j, Z.testbit (scav (allocN c npages).2) j = true -> Z.testbit (scav c) j = true).
Proof.
  intros Hn. unfold allocN.
  destruct (Z.leb_spec 64 (findBitRange64 (cache c) npages)) as [Hge|Hlt]; cbn [snd base cache scav].
  - repeat split; auto.
  - split; [reflexivity|]. split; [|split].
    + intros j Hj Hout. unfold andnot. rewrite !Z.ldiff_spec, testbit_mask by lia.
      assert (Hz : (findBitRange64 (cache c) npages <=? j) &&
                   (j <? findBitRange64 (cache c) npages + Z.min npages 64) = false).
      { destruct (Z.leb_spec (findBitRange64 (cache c) npages) j); [|reflexivity].
        cbn [andb]. apply Z.ltb_ge. lia. }
      rewrite <- andb_assoc, Hz, andb_false_r. cbn [negb].
      rewrite !andb_true_r. auto.
    + intros j. unfold andnot. rewrite Z.ldiff_spec. intros H.
      apply andb_true_iff in H. apply H.
    + intros j. unfold andnot. rewrite Z.ldiff_spec. intros H.
      apply andb_true_iff in H. apply H.
Qed.

(** C10: [alloc] and [allocN] leave the cache's base unchanged and change
    no bit of the free bitmap or of the scavenged bitmap outside the index
    range [i, i+n) of the run they look at ([i] the trailing-zero count for
    one page, the result of [findBitRange64] otherwise); the bits they do
    change they clear, never set. *)
Theorem alloc_changes_only_the_run (c : pageCache) (npages : Z) :
  0 <= npages ->
  (base (alloc c npages).2 = base c /\
   (forall j, 0 <= j ->
      ~ (allocIndex c npages <= j < allocIndex c npages + npages) ->
      Z.testbit (cache (alloc c npages).2) j = Z.testbit (cache c) j /\
      Z.testbit (scav (alloc c npages).2) j = Z.testbit (scav c) j) /\
   (forall j, Z.testbit (cache (alloc c npages).2) j = true -> Z.testbit (cache c) j = true) /\
   (forall j, Z.testbit (scav (alloc c npages).2) j = true -> Z.testbit (scav c) j = true)) /\
  (base (allocN c npages).2 = base c /\
   (forall j, 0 <= j ->
      ~ (findBitRange64 (cache c) npages <= j < findBitRange64 (cache c) npages + npages) ->
      Z.testbit (cache (allocN c npages).2) j = Z.testbit (cache c) j /\
      Z.testbit (scav (allocN c npages).2) j = Z.testbit (scav c) j) /\
   (forall j, Z.testbit (cache (allocN c npages).2) j = true -> Z.testbit (cache c) j = true) /\
   (forall j, Z.testbit (scav (allocN c npages).2) j = true -> Z.testbit (scav c) j = true)).
Proof.
  intros Hn. split; [|apply allocN_frame, Hn].
  unfold alloc, allocIndex.
  destruct (cache c =? 0); [cbn [snd]; repeat split; auto|].
  destruct (Z.eqb_spec npages 1) as [->|Hne]; [|apply allocN_frame, Hn].
  cbn [snd base cache scav]. split; [reflexivity|]. split; [|split].
  - intros j Hj Hout. unfold andnot. rewrite !Z.ldiff_spec, testbit_shl_one.
    destruct (Z.eqb_spec (TrailingZeros64 (cache c)) j) as [He|_]; [lia|].
    cbn [andb negb]. rewrite !andb_true_r. auto.
  - intros j. unfold andnot. rewrite Z.ldiff_spec. intros H.
    apply andb_true_iff in H. apply H.
  - intros j. unfold andnot. rewrite Z.ldiff_spec. intros H.
    apply andb_true_iff in H. apply H.
Qed.

End AllocFrame.
(** ** The modelled helpers meet what the specification asks of them *)

Module ModelFacts.

Import U64 U64Facts.

Lemma land_range (x m : Z) : inRange x -> inRange (Z.land x m).
Proof.
  intros Hx. unfold inRange.
  assert (H0 : 0 <= Z.land x m) by (apply Z.land_nonneg; left; apply Hx).
  split; [exact H0|].
  destruct (Z.eq_dec (Z.land x m) 0) as [->|Hne]; [apply modulus_pos|].
  unfold modulus. apply Z.log2_lt_pow2; [lia|].
  destruct (Z_lt_le_dec (Z.log2 (Z.land x m)) 64) as [?|Hge]; [assumption|].
  exfalso.
  assert (Hb : Z.testbit (Z.land x m) (Z.log2 (Z.land x m)) = true)
    by (apply Z.bit_log2; lia).
  rewrite Z.land_spec, (testbit_high x) in Hb by (assumption || lia).
  discriminate.
Qed.

Lemma land_63 (p : Z) : 0 <= p < 64 -> Z.land p 63 = p.
Proof.
  intros Hp. change 63 with (Z.ones 6). rewrite Z.land_ones by lia.
  apply Z.mod_small. change (2 ^ 6) with 64. lia.
Qed.

(** One cut of the search: if bit [j] of [ct] tells that the bits
    [j .. j+t] of [c0] are set, bit [j] of [ct & (ct >> s)] tells that the
    bits [j .. j+t+s] are, as long as the shift is at most [t+1]. *)
Lemma shrink_step (c0 ct t s : Z) :
  0 <= t -> 0 <= s <= t + 1 -> s < 64 ->
  (forall j, 0 <= j ->
     Z.testbit ct j = true <-> forall i, j <= i <= j + t -> Z.testbit c0 i = true) ->
  forall j, 0 <= j ->
    Z.testbit (Z.land ct (shr ct s)) j = true <->
    forall i, j <= i <= j + (t + s) -> Z.testbit c0 i = true.
Proof.
  intros Ht Hs Hs64 Hinv j Hj. unfold shr.
  replace (64 <=? s) with false by lia.
  rewrite Z.land_spec, Z.shiftr_spec by lia.
  rewrite andb_true_iff, (Hinv j Hj), (Hinv (j + s)) by lia.
  split.
  - intros (H1 & H2) i Hi.
    destruct (Z_le_gt_dec i (j + t)); [apply H1; lia | apply H2; lia].
  - intros H. split; intros i Hi; apply H; lia.
Qed.

(** The last step of the search: the lowest bit left is the start of the
    lowest run. *)
Lemma trailing_zeros_finds (c0 c n : Z) :
  inRange c0 -> inRange c -> 1 <= n ->
  (forall j, 0 <= j ->
     Z.testbit c j = true <->
     forall i, j <= i <= j + (n - 1) -> Z.testbit c0 i = true) ->
  (TrailingZeros64 c < 64 -> lowestRun c0 n (TrailingZeros64 c)) /\
  (64 <= TrailingZeros64 c -> noRun c0 n).
Proof.
  intros Hc0 Hc Hn Hinv. destruct (Z.eq_dec c 0) as [->|Hne].
  - change (TrailingZeros64 0) with 64. split; [lia|].
    intros _ i (Hi0 & Hin & Hbits).
    assert (H : Z.testbit 0 i = true)
      by (apply Hinv; [lia|]; intros i' Hi'; apply Hbits; lia).
    rewrite Z.bits_0 in H. discriminate.
  - destruct (TrailingZeros64_spec c Hc Hne) as (Hr & Hset & Hlow).
    split; [|lia]. intros _.
    pose proof (proj1 (Hinv _ (proj1 Hr)) Hset) as Hrun.
    split.
    + split; [lia|]. split.
      * destruct (Z_le_gt_dec (TrailingZeros64 c + n) 64) as [?|Hgt]; [assumption|].
        exfalso. specialize (Hrun (TrailingZeros64 c + (n - 1)) ltac:(lia)).
        rewrite testbit_high in Hrun by (assumption || lia). discriminate.
      * intros j Hj. apply Hrun. lia.
    + intros i' (Hi0 & Hin & Hbits). apply TrailingZeros64_le; [lia|].
      apply Hinv; [lia|]. intros i Hi. apply Hbits. lia.
Qed.

(** The loop of the search, [t] bits having been cut so far. *)
Lemma shrinkRuns_spec (c0 n : Z) (fuel : nat) : forall ct t,
  inRange c0 -> inRange ct -> 1 <= n <= 64 -> 0 <= t <= n - 1 ->
  n - 1 - t < Z.of_nat fuel ->
  (forall j, 0 <= j ->
     Z.testbit ct j = true <-> forall i, j <= i <= j + t -> Z.testbit c0 i = true) ->
  (Model.shrinkRuns fuel ct (n - 1 - t) (t + 1) < 64 ->
     lowestRun c0 n (Model.shrinkRuns fuel ct (n - 1 - t) (t + 1))) /\
  (64 <= Model.shrinkRuns fuel ct (n - 1 - t) (t + 1) -> noRun c0 n).
Proof.
  induction fuel as [|fuel IH]; intros ct t Hc0 Hct Hn Ht Hfuel Hinv; [lia|].
  cbn [Model.shrinkRuns].
  destruct (Z.leb_spec (n - 1 - t) 0) as [Hp0|Hp].
  { apply trailing_zeros_finds; try assumption; [lia|].
    replace (n - 1) with t by lia. exact Hinv. }
  destruct (Z.leb_spec (n - 1 - t) (t + 1)) as [Hlast|Hmore].
  { rewrite land_63 by lia.
    apply trailing_zeros_finds; [assumption|apply land_range; assumption|lia|].
    intros j Hj.
    pose proof (shrink_step c0 ct t (n - 1 - t) ltac:(lia) ltac:(lia) ltac:(lia)
                  Hinv j Hj) as H.
    replace (t + (n - 1 - t)) with (n - 1) in H by lia. exact H. }
  rewrite land_63 by lia.
  pose proof (shrink_step c0 ct t (t + 1) ltac:(lia) ltac:(lia) ltac:(lia) Hinv)
    as Hinv'.
  destruct (Z.eqb_spec (Z.land ct (shr ct (t + 1))) 0) as [Hz|Hnz].
  { split; [lia|]. intros _ i (Hi0 & Hin & Hbits).
    assert (H : Z.testbit (Z.land ct (shr ct (t + 1))) i = true)
      by (apply Hinv'; [lia|]; intros i' Hi'; apply Hbits; lia).
    rewrite Hz, Z.bits_0 in H. discriminate. }
  replace (sub (n - 1 - t) (t + 1)) with (n - 1 - (t + (t + 1)))
    by (unfold sub; rewrite wrap_small; unfold inRange, modulus; lia).
  replace (mul (t + 1) 2) with (t + (t + 1) + 1)
    by (unfold mul; rewrite wrap_small; unfold inRange, modulus; lia).
  apply IH; try assumption; try lia. apply land_range. assumption.
Qed.

(** The modelled [findBitRange64] finds the lowest-indexed run of [n] set
    bits of a 64-bit word, for every [n] from 1 to 64. *)
Lemma findBitRange64_finds (c n : Z) :
  inRange c -> 1 <= n <= 64 -> findsLowestRun Model.findBitRange64 c n.
Proof.
  intros Hc Hn. unfold findsLowestRun, Model.findBitRange64.
  assert (Hinv : forall j, 0 <= j ->
            Z.testbit c j = true <-> forall i, j <= i <= j + 0 -> Z.testbit c i = true).
  { intros j Hj. split.
    - intros H i Hi. replace i with j by lia. exact H.
    - intros H. apply H. lia. }
  pose proof (shrinkRuns_spec c n 64 c 0 Hc Hc Hn ltac:(lia) ltac:(lia) Hinv) as H.
  replace (n - 1 - 0) with (sub n 1) in H
    by (unfold sub; rewrite wrap_small; unfold inRange, modulus; lia).
  exact H.
Qed.

(** The 64 passes the model allows are enough for every input: more passes
    give the same result. *)
Lemma shrinkRuns_fuel (fuel : nat) : forall (c p k : Z) (i extra : nat),
  k = 2 ^ Z.of_nat i -> 0 <= p -> p + k <= modulus -> (64 <= i + fuel)%nat ->
  Model.shrinkRuns (fuel + extra) c p k = Model.shrinkRuns fuel c p k.
Proof.
  induction fuel as [|fuel IH]; intros c p k i extra Hk Hp Hpk Hi.
  - assert (2 ^ 64 <= k) by (subst k; apply Z.pow_le_mono_r; lia).
    unfold modulus in Hpk. assert (p = 0) by lia. subst p.
    destruct extra; reflexivity.
  - cbn [Nat.add Model.shrinkRuns].
    destruct (p <=? 0); [reflexivity|].
    destruct (Z.leb_spec p k) as [|Hgt]; [reflexivity|].
    destruct (_ =? 0); [reflexivity|].
    assert (0 < k) by (subst k; apply Z.pow_pos_nonneg; lia).
    apply (IH _ _ _ (S i)); unfold sub, mul, modulus in *.
    + rewrite wrap_small by (unfold inRange, modulus; lia).
      rewrite Nat2Z.inj_succ, Z.pow_succ_r by lia. lia.
    + apply wrap_range.
    + rewrite !wrap_small by (unfold inRange, modulus; lia). lia.
    + lia.
Qed.

Lemma findBitRange64_fuel (c n : Z) (extra : nat) :
  Model.shrinkRuns (64 + extra) c (sub n 1) 1 = Model.findBitRange64 c n.
Proof.
  unfold Model.findBitRange64.
  apply (shrinkRuns_fuel 64 c (sub n 1) 1 0 extra); [reflexivity| | |lia].
  - apply wrap_range.
  - pose proof (wrap_range (n - 1)) as H. unfold sub, inRange in *. lia.
Qed.

End ModelFacts.

(** ** pageCache.allocN *)

Module CountFacts.

Import U64 U64Facts.

Lemma bitRange_cons (lo : Z) (n : nat) :
  bitRange lo (S n) = lo :: bitRange (lo + 1) n.
Proof.
  unfold bitRange. cbn [seq map]. f_equal; [lia|].
  rewrite <- seq_shift, map_map. apply map_ext. intros k. lia.
Qed.

Lemma elem_of_bitRange (lo : Z) (n : nat) (j : Z) :
  In j (bitRange lo n) <-> lo <= j < lo + Z.of_nat n.
Proof.
  revert lo. induction n as [|n IH]; intros lo.
  - cbn. lia.
  - rewrite bitRange_cons. cbn [In]. rewrite IH. lia.
Qed.

Lemma countIn_cons (P : Z -> bool) (lo : Z) (n : nat) :
  countIn P lo (S n) = Z.b2z (P lo) + countIn P (lo + 1) n.
Proof.
  unfold countIn. rewrite bitRange_cons, filter_cons.
  destruct (P lo) eqn:HP; cbn [Z.b2z].
  - rewrite decide_True by reflexivity. cbn [length]. lia.
  - rewrite decide_False by discriminate. lia.
Qed.

Lemma countIn_ext (P Q : Z -> bool) (n : nat) : forall lo,
  (forall j, lo <= j < lo + Z.of_nat n -> P j = Q j) ->
  countIn P lo n = countIn Q lo n.
Proof.
  induction n as [|n IH]; intros lo H; [reflexivity|].
  rewrite !countIn_cons, (H lo), (IH (lo + 1)); [reflexivity| |lia].
  intros j Hj. apply H. lia.
Qed.

Lemma countIn_none (P : Z -> bool) (n : nat) : forall lo,
  (forall j, lo <= j < lo + Z.of_nat n -> P j = false) ->
  countIn P lo n = 0.
Proof.
  induction n as [|n IH]; intros lo H; [reflexivity|].
  rewrite countIn_cons, (H lo), (IH (lo + 1)); [reflexivity| |lia].
  intros j Hj. apply H. lia.
Qed.

Lemma countIn_app (P : Z -> bool) (n m : nat) : forall lo,
  countIn P lo (n + m) = countIn P lo n + countIn P (lo + Z.of_nat n) m.
Proof.
  induction n as [|n IH]; intros lo.
  - cbn [Nat.add]. replace (lo + Z.of_nat 0) with lo by lia.
    unfold countIn at 2. cbn. lia.
  - cbn [Nat.add]. rewrite !countIn_cons, IH.
    replace (lo + 1 + Z.of_nat n) with (lo + Z.of_nat (S n)) by lia. lia.
Qed.

Lemma countIn_bounds (P : Z -> bool) (n : nat) : forall lo,
  0 <= countIn P lo n <= Z.of_nat n.
Proof.
  induction n as [|n IH]; intros lo.
  - unfold countIn. cbn. lia.
  - rewrite countIn_cons. specialize (IH (lo + 1)).
    destruct (P lo); cbn [Z.b2z]; lia.
Qed.

(** The population count of a word masked to the bits [i, i+n). *)
Lemma OnesCount64_masked (s i n : Z) :
  0 <= i -> 1 <= n -> i + n <= 64 ->
  OnesCount64 (Z.land s (shl (sub (shl 1 n) 1) i)) =
    countIn (Z.testbit s) i (Z.to_nat n).
Proof.
  intros Hi Hn Hin. unfold OnesCount64.
  replace 64%nat with (Z.to_nat i + (Z.to_nat n + Z.to_nat (64 - i - n)))%nat by lia.
  rewrite !countIn_app.
  rewrite (countIn_none _ (Z.to_nat i)), (countIn_none _ (Z.to_nat (64 - i - n))).
  - rewrite Z.add_0_l, Z.add_0_r. rewrite Z2Nat.id by lia.
    apply countIn_ext. intros j Hj.
    rewrite Z.land_spec, testbit_mask by lia.
    replace ((j <? 64) && (i <=? j) && (j <? i + Z.min n 64)) with true by lia.
    apply andb_true_r.
  - intros j Hj. rewrite Z.land_spec, testbit_mask by lia.
    replace ((j <? 64) && (i <=? j) && (j <? i + Z.min n 64)) with false by lia.
    apply andb_false_r.
  - intros j Hj. rewrite Z.land_spec, testbit_mask by lia.
    replace ((j <? 64) && (i <=? j) && (j <? i + Z.min n 64)) with false by lia.
    apply andb_false_r.
Qed.

End CountFacts.

Section AllocN.

Context {R : Runtime}.
Import U64 U64Facts CountFacts.

Lemma lowestRun_unique (c n i i' : Z) :
  lowestRun c n i -> lowestRun c n i' -> i = i'.
Proof.
  intros (Hr & Hmin) (Hr' & Hmin'). specialize (Hmin _ Hr'). specialize (Hmin' _ Hr). lia.
Qed.


End AllocN.

(** ** Outcomes and chunk bitmaps *)

Section OutcomeFacts.

Context {A B : Type}.

Lemma bind_Done (m : outcome A) (f : A -> outcome B) (b : B) :
  m ≫= f = Done b -> exists a, m = Done a /\ f a = Done b.
Proof. destruct m as [a|e]; cbn; [eauto | discriminate]. Qed.

Lemma bind_Done_l (m : outcome A) (f : A -> outcome B) (a : A) :
  m = Done a -> m ≫= f = f a.
Proof. intros ->. reflexivity. Qed.

Lemma orFatal_Done (e : fatal) (o : option A) (a : A) :
  orFatal e o = Done a <-> o = Some a.
Proof. destruct o; cbn; split; congruence. Qed.

End OutcomeFacts.

Module BitmapFacts.

Import U64 U64Facts.

Lemma word_index (i k : Z) :
  0 <= i -> 0 <= k ->
  (Z.to_nat (k / 64) = Z.to_nat (i / 64) /\ k mod 64 = i mod 64) <-> k = i.
Proof.
  intros Hi Hk. split; [|intros ->; auto].
  intros (Hq & Hr).
  assert (0 <= k / 64) by (apply Z.div_pos; lia).
  assert (0 <= i / 64) by (apply Z.div_pos; lia).
  rewrite (Z.div_mod k 64), (Z.div_mod i 64) by lia. lia.
Qed.

Lemma modifyBlock_Done (f : Z -> Z) (b : pageBits) (i : Z) :
  (Z.to_nat (i / 64) < length b)%nat ->
  exists w, b !! Z.to_nat (i / 64) = Some w /\
            modifyBlock f b i = Done (<[Z.to_nat (i / 64) := f w]> b).
Proof.
  intros Hlen. destruct (lookup_lt_is_Some_2 b _ Hlen) as (w & Hw).
  exists w. split; [assumption|]. unfold modifyBlock, block64.
  rewrite Hw. reflexivity.
Qed.

Lemma pageBit_insert (b : pageBits) (n : nat) (w : Z) (k : Z) :
  (n < length b)%nat ->
  pageBit (<[n := w]> b) k =
    if decide (Z.to_nat (k / 64) = n) then Z.testbit w (k mod 64) else pageBit b k.
Proof.
  intros Hn. unfold pageBit. destruct (decide (Z.to_nat (k / 64) = n)) as [->|Hne].
  - rewrite list_lookup_insert_eq by assumption. reflexivity.
  - rewrite list_lookup_insert_ne by congruence. reflexivity.
Qed.

Lemma mod64_range (i : Z) : 0 <= i mod 64 < 64.
Proof. apply Z.mod_pos_bound. lia. Qed.

(** [free1] clears bit [i] and nothing else. *)
Lemma free1_Done (b : pageBits) (i : Z) :
  0 <= i -> i < 64 * Z.of_nat (length b) ->
  exists b', free1 b i = Done b' /\ length b' = length b /\
    forall k, 0 <= k -> pageBit b' k = pageBit b k && negb (k =? i).
Proof.
  intros Hi Hlen.
  assert (Hn : (Z.to_nat (i / 64) < length b)%nat).
  { assert (i / 64 < Z.of_nat (length b)) by (apply Z.div_lt_upper_bound; lia).
    assert (0 <= i / 64) by (apply Z.div_pos; lia). lia. }
  destruct (modifyBlock_Done (fun w => andnot w (shl 1 (i mod 64))) b i Hn)
    as (w & Hw & Heq).
  eexists. split; [exact Heq|]. split; [apply length_insert|].
  intros k Hk. rewrite pageBit_insert by assumption.
  destruct (decide (Z.to_nat (k / 64) = Z.to_nat (i / 64))) as [Hq|Hq].
  - rewrite testbit_andnot_bit by apply mod64_range.
    unfold pageBit. rewrite Hq, Hw. f_equal. f_equal.
    destruct (Z.eqb_spec (i mod 64) (k mod 64)) as [Hr|Hr];
      destruct (Z.eqb_spec k i) as [He|He]; try reflexivity.
    + exfalso. apply He, word_index; auto.
    + subst k. congruence.
  - destruct (Z.eqb_spec k i) as [->|_]; [congruence|].
    symmetry. apply andb_true_r.
Qed.

(** [setRange] of one bit sets bit [i] and nothing else. *)
Lemma setRange1_Done (b : pageBits) (i : Z) :
  0 <= i -> i < 64 * Z.of_nat (length b) ->
  exists b', setRange b i 1 = Done b' /\ length b' = length b /\
    forall k, 0 <= k -> pageBit b' k = pageBit b k || (k =? i).
Proof.
  intros Hi Hlen.
  assert (Hn : (Z.to_nat (i / 64) < length b)%nat).
  { assert (i / 64 < Z.of_nat (length b)) by (apply Z.div_lt_upper_bound; lia).
    assert (0 <= i / 64) by (apply Z.div_pos; lia). lia. }
  destruct (modifyBlock_Done (fun w => Z.lor w (shl 1 (i mod 64))) b i Hn)
    as (w & Hw & Heq).
  eexists. split; [cbn [setRange]; rewrite Heq; reflexivity|].
  split; [apply length_insert|].
  intros k Hk. rewrite pageBit_insert by assumption.
  destruct (decide (Z.to_nat (k / 64) = Z.to_nat (i / 64))) as [Hq|Hq].
  - rewrite Z.lor_spec, shl_one, Z.pow2_bits_eqb by apply mod64_range.
    unfold pageBit. rewrite Hq, Hw. f_equal.
    destruct (Z.eqb_spec (i mod 64) (k mod 64)) as [Hr|Hr];
      destruct (Z.eqb_spec k i) as [He|He]; try reflexivity.
    + exfalso. apply He, word_index; auto.
    + subst k. congruence.
  - destruct (Z.eqb_spec k i) as [->|_]; [congruence|].
    symmetry. apply orb_false_r.
Qed.

End BitmapFacts.

(** ** pageCache.flush *)

Section Flush.

Context {R : Runtime}.
Import U64 U64Facts BitmapFacts.

Lemma set_chunk_id (p : pageAlloc) (ci : Z) (d : pallocData) :
  chunks p !! ci = Some d -> set_chunk p ci d = p.
Proof.
  intros H. destruct p as [sm ch sa st en]. unfold set_chunk. cbn in *.
  f_equal. apply insert_id, H.
Qed.

Lemma set_chunk_twice (p : pageAlloc) (ci : Z) (d1 d2 : pallocData) :
  set_chunk (set_chunk p ci d1) ci d2 = set_chunk p ci d2.
Proof. unfold set_chunk. cbn. f_equal. apply insert_insert_eq. Qed.

Lemma chunkOf_set_chunk (p : pageAlloc) (ci : Z) (d : pallocData) :
  chunkOf (set_chunk p ci d) ci = Done d.
Proof. unfold chunkOf, set_chunk. cbn. rewrite lookup_insert_eq. reflexivity. Qed.

Lemma flushedBits_refl (c : pageCache) (pi lo : Z) (d : pallocData) :
  flushedBits c pi lo lo d d.
Proof.
  unfold flushedBits, inWindow. repeat split; auto.
  - replace ((pi + lo <=? k) && (k <? pi + lo)) with false by lia.
    cbn. symmetry. apply andb_true_r.
  - replace ((pi + lo <=? k) && (k <? pi + lo)) with false by lia.
    cbn. symmetry. apply orb_false_r.
Qed.

Lemma flushedBits_trans (c : pageCache) (pi lo mid hi : Z) (d d1 d2 : pallocData) :
  lo <= mid <= hi ->
  flushedBits c pi lo mid d d1 -> flushedBits c pi mid hi d1 d2 ->
  flushedBits c pi lo hi d d2.
Proof.
  intros Hm (Hl1 & Hs1 & H1) (Hl2 & Hs2 & H2). unfold flushedBits.
  split; [congruence|]. split; [congruence|].
  intros k Hk. destruct (H1 k Hk) as (Ha1 & Hb1). destruct (H2 k Hk) as (Ha2 & Hb2).
  rewrite Ha2, Ha1, Hb2, Hb1. unfold inWindow.
  destruct (Z.leb_spec (pi + lo) k), (Z.ltb_spec k (pi + mid)),
    (Z.leb_spec (pi + mid) k), (Z.ltb_spec k (pi + hi)); try lia; cbn [andb negb orb];
    rewrite ?andb_true_r, ?orb_false_r; auto.
Qed.

Lemma flushBit_Done (c : pageCache) (ci pi i : Z) (p : pageAlloc) (d : pallocData) :
  0 <= i < 64 -> 0 <= pi -> pi + 64 <= modulus ->
  chunks p !! ci = Some d ->
  pi + 64 <= 64 * Z.of_nat (length (pallocBits d)) ->
  pi + 64 <= 64 * Z.of_nat (length (scavenged d)) ->
  exists d', flushBit c ci pi i p = Done (set_chunk p ci d') /\
             flushedBits c pi i (i + 1) d d'.
Proof.
  intros Hi Hpi Hmod Hd Hlb Hls. unfold flushBit.
  rewrite !land_bit_zero by assumption.
  assert (Hadd : add pi i = pi + i)
    by (apply wrap_small; unfold inRange; lia).
  rewrite Hadd.
  assert (Hfirst : exists d1,
    (if negb (Z.testbit (cache c) i) then Done p
     else d0 ← chunkOf p ci;
          b ← free1 (pallocBits d0) (pi + i);
          Done (set_chunk p ci {| pallocBits := b; scavenged := scavenged d0 |}))
    = Done (set_chunk p ci d1) /\
    scavenged d1 = scavenged d /\
    length (pallocBits d1) = length (pallocBits d) /\
    forall k, 0 <= k ->
      pageBit (pallocBits d1) k =
        pageBit (pallocBits d) k && negb ((k =? pi + i) && Z.testbit (cache c) i)).
  { destruct (Z.testbit (cache c) i); cbn [negb].
    - destruct (free1_Done (pallocBits d) (pi + i)) as (b' & Hb' & Hlen & Hbits); [lia..|].
      exists {| pallocBits := b'; scavenged := scavenged d |}.
      unfold chunkOf. rewrite Hd. cbn. rewrite Hb'. cbn.
      repeat split; auto. intros k Hk. rewrite Hbits by assumption.
      rewrite andb_true_r. reflexivity.
    - exists d. rewrite set_chunk_id by assumption. repeat split; auto.
      intros k Hk. rewrite andb_false_r. symmetry. apply andb_true_r. }
  destruct Hfirst as (d1 & -> & Hs1 & Hl1 & Hb1). cbn [mbind outcome_bind].
  destruct (Z.testbit (scav c) i) eqn:Hsb; cbn [negb].
  - rewrite chunkOf_set_chunk. cbn [mbind outcome_bind].
    destruct (setRange1_Done (scavenged d1) (pi + i)) as (s' & Hs' & Hlen & Hbits);
      [rewrite ?Hs1; lia..|].
    rewrite Hs'. cbn [mbind outcome_bind]. rewrite set_chunk_twice.
    eexists. split; [reflexivity|]. unfold flushedBits; cbn [pallocBits scavenged].
    split; [assumption|]. split; [congruence|].
    intros k Hk. rewrite Hb1, Hbits, Hs1 by assumption. unfold inWindow.
    destruct (Z.eqb_spec k (pi + i)) as [->|Hne].
    + replace ((pi + i <=? pi + i) && (pi + i <? pi + (i + 1))) with true by lia.
      replace (pi + i - pi) with i by lia. rewrite Hsb. auto.
    + replace ((pi + i <=? k) && (k <? pi + (i + 1))) with false by lia. auto.
  - exists d1. split; [reflexivity|]. unfold flushedBits.
    split; [assumption|]. split; [congruence|].
    intros k Hk. rewrite Hb1, Hs1 by assumption. unfold inWindow.
    destruct (Z.eqb_spec k (pi + i)) as [->|Hne].
    + replace ((pi + i <=? pi + i) && (pi + i <? pi + (i + 1))) with true by lia.
      replace (pi + i - pi) with i by lia. rewrite Hsb. cbn [andb].
      rewrite orb_false_r. auto.
    + replace ((pi + i <=? k) && (k <? pi + (i + 1))) with false by lia.
      cbn [andb]. rewrite orb_false_r. auto.
Qed.

Lemma flushLoop_Done (c : pageCache) (ci pi : Z) (n : nat) :
  forall (i : Z) (p : pageAlloc) (d : pallocData),
  0 <= i -> i + Z.of_nat n <= 64 -> 0 <= pi -> pi + 64 <= modulus ->
  chunks p !! ci = Some d ->
  pi + 64 <= 64 * Z.of_nat (length (pallocBits d)) ->
  pi + 64 <= 64 * Z.of_nat (length (scavenged d)) ->
  exists d', flushLoop n c ci pi i p = Done (set_chunk p ci d') /\
             flushedBits c pi i (i + Z.of_nat n) d d'.
Proof.
  induction n as [|n IH]; intros i p d Hi Hin Hpi Hmod Hd Hlb Hls.
  - exists d. cbn [flushLoop]. rewrite set_chunk_id by assumption.
    split; [reflexivity|]. replace (i + Z.of_nat 0) with i by lia.
    apply flushedBits_refl.
  - cbn [flushLoop].
    destruct (flushBit_Done c ci pi i p d) as (d1 & -> & Hf1); [lia..|auto|lia|lia|].
    cbn [mbind outcome_bind].
    destruct (IH (i + 1) (set_chunk p ci d1) d1) as (d2 & -> & Hf2); try lia.
    + unfold set_chunk; cbn. apply lookup_insert_eq.
    + destruct Hf1 as (Hl & _). lia.
    + destruct Hf1 as (_ & Hl & _). lia.
    + exists d2. rewrite set_chunk_twice. split; [reflexivity|].
      apply (flushedBits_trans c pi i (i + 1) _ d d1 d2); [lia|assumption|].
      replace (i + Z.of_nat (S n)) with (i + 1 + Z.of_nat n) by lia. assumption.
Qed.

End Flush.

(** ** pageAlloc.allocToCache *)

Section AllocToCache.

Context {R : Runtime}.
Import U64 U64Facts.

Ltac bind_inv H :=
  let a := fresh "a" in
  let Ha := fresh "Ha" in
  apply bind_Done in H; destruct H as (a & Ha & H).

Lemma takeCache_Done (p : pageAlloc) (ci : Z) (chunk : pallocData)
    (c c' : pageCache) (p' : pageAlloc) :
  takeCache p ci chunk c = Done (c', p') ->
  c' = c /\
  searchAddr p' = add (base c) (mul pageSize (pageCachePages - 1)) /\
  end_ p' = end_ p.
Proof.
  unfold takeCache. intros H. bind_inv H. bind_inv H. bind_inv H.
  inversion H; subst. cbn. auto.
Qed.

(** The two ways in which [allocToCache] returns a cache with a free page. *)
Lemma allocToCache_Done_nonempty (p : pageAlloc) (c : pageCache) (p' : pageAlloc) :
  allocToCache p = Done (c, p') -> cache c <> 0 ->
  chunkIndex (searchAddr p) < end_ p /\
  searchAddr p' = add (base c) (mul pageSize (pageCachePages - 1)) /\
  ((exists d,
      chunks p !! chunkIndex (searchAddr p) = Some d /\
      (pallocBits_find (pallocBits d) 1 (chunkPageIndex (searchAddr p))).1 <> maxval /\
      base c =
        add (chunkBase (chunkIndex (searchAddr p)))
            (mul (alignDown
                    (pallocBits_find (pallocBits d) 1 (chunkPageIndex (searchAddr p))).1
                    64) pageSize)) \/
   (exists r,
      pageAlloc_find p 1 = Done r /\ r.1 <> 0 /\
      base c = alignDown r.1 (64 * pageSize))).
Proof.
  unfold allocToCache. intros H Hne.
  destruct (Z.leb_spec (end_ p) (chunkIndex (searchAddr p))) as [Hge|Hlt].
  { inversion H; subst. contradiction Hne. reflexivity. }
  split; [assumption|].
  bind_inv H. bind_inv H.
  destruct (negb (a0 =? 0)).
  - bind_inv H. apply orFatal_Done in Ha1.
    destruct (Z.eqb_spec (pallocBits_find (pallocBits a1) 1
                            (chunkPageIndex (searchAddr p))).1 maxval) as [|Hj];
      [discriminate|].
    bind_inv H. bind_inv H.
    apply takeCache_Done in H. destruct H as (-> & Hsa & _).
    split; [exact Hsa|]. left. exists a1. cbn [base]. auto.
  - bind_inv H.
    destruct (Z.eqb_spec a1.1 0) as [|Hr].
    { inversion H; subst. contradiction Hne. reflexivity. }
    bind_inv H. bind_inv H. bind_inv H.
    apply takeCache_Done in H. destruct H as (-> & Hsa & _).
    split; [exact Hsa|]. right. exists a1. cbn [base]. auto.
Qed.

(** C3 (as the code has it): after every call of [allocToCache] that
    returns a cache with a free page, [searchAddr] is the address of the
    last page of the returned 64-page window, [base + 63*pageSize], and so,
    for a window within the address space, is not the first address after
    the window. *)
Theorem allocToCache_searchAddr_last_page (p : pageAlloc) (c : pageCache) (p' : pageAlloc) :
  allocToCache p = Done (c, p') -> cache c <> 0 ->
  searchAddr p' = U64.add (base c) (U64.mul pageSize 63) /\
  (pageCache_ok c -> windowFits c ->
     searchAddr p' = base c + 63 * pageSize /\
     searchAddr p' <> base c + 64 * pageSize).
Proof.
  intros H Hne.
  destruct (allocToCache_Done_nonempty p c p' H Hne) as (_ & Hsa & _).
  change (pageCachePages - 1) with 63 in Hsa. split; [exact Hsa|].
  intros Hok Hfit.
  assert (Heq : searchAddr p' = base c + 63 * pageSize).
  { rewrite Hsa. unfold mul. rewrite (Z.mul_comm pageSize 63).
    apply (pageAddr_exact c 63); auto. lia. }
  split; [exact Heq|]. destruct Hfit as (Hps & _). lia.
Qed.

Lemma set_searchAddr_same (p : pageAlloc) : set_searchAddr p (searchAddr p) = p.
Proof. destruct p; reflexivity. Qed.

(** C4: on an allocator that keeps the rule for [searchAddr] (at or above
    [end] only as [maxSearchAddr()]), whenever [allocToCache] finds no free
    page, on the immediate short-circuit taken when
    [chunkIndex(searchAddr) >= end] as well as when the summary at the
    search address is zero and [find(1)] returns address 0, it returns the
    empty cache, whose base and bitmaps are 0, and [searchAddr] is
    [maxSearchAddr()] afterwards, nothing else of the allocator having
    changed; on the short-circuit [searchAddr] is the sentinel already and
    the allocator is left as it is. The rule for [searchAddr] holds
    afterwards, and with the chunk index of [maxSearchAddr()] at or above
    [end] the next call takes the short-circuit: it returns the empty cache
    and leaves the allocator as it is. *)
Theorem allocToCache_exhausted (p : pageAlloc) :
  searchAddr_ok p -> exhausted p ->
  allocToCache p = Done (emptyCache, set_searchAddr p maxSearchAddr) /\
  (base emptyCache = 0 /\ cache emptyCache = 0 /\ scav emptyCache = 0) /\
  searchAddr (set_searchAddr p maxSearchAddr) = maxSearchAddr /\
  (end_ p <= chunkIndex (searchAddr p) -> set_searchAddr p maxSearchAddr = p) /\
  searchAddr_ok (set_searchAddr p maxSearchAddr) /\
  (end_ p <= chunkIndex maxSearchAddr ->
     allocToCache (set_searchAddr p maxSearchAddr) =
       Done (emptyCache, set_searchAddr p maxSearchAddr)).
Proof.
  intros Hok Hex.
  assert (Hguard : forall q, end_ q <= chunkIndex (searchAddr q) ->
                     allocToCache q = Done (emptyCache, q)).
  { intros q Hge. unfold allocToCache.
    replace (end_ q <=? chunkIndex (searchAddr q)) with true by lia. reflexivity. }
  assert (Hsame : end_ p <= chunkIndex (searchAddr p) ->
                  set_searchAddr p maxSearchAddr = p).
  { intros Hge. rewrite <- (Hok Hge). apply set_searchAddr_same. }
  split; [|split; [auto|split; [reflexivity|split; [exact Hsame|split]]]].
  - destruct Hex as [Hge|(level & r & Hlt & Hlast & Hlevel & Hfind & Hr)].
    + rewrite (Hsame Hge). apply Hguard, Hge.
    + unfold allocToCache.
      replace (end_ p <=? chunkIndex (searchAddr p)) with false by lia.
      rewrite Hlast. cbn [orFatal mbind outcome_bind]. rewrite Hlevel.
      cbn [orFatal mbind outcome_bind Z.eqb negb]. rewrite Hfind.
      cbn [mbind outcome_bind]. rewrite Hr. reflexivity.
  - intros _. reflexivity.
  - intros Hmax. apply Hguard. exact Hmax.
Qed.

End AllocToCache.

(** ** flush and allocToCache: the cache handed back, and searchAddr *)

Section FlushTheorems.

Context {R : Runtime}.
Import U64 U64Facts.

Ltac bind_inv H :=
  let a := fresh "a" in
  let Ha := fresh "Ha" in
  apply bind_Done in H; destruct H as (a & Ha & H).

Lemma flushBit_searchAddr (c : pageCache) (ci pi i : Z) (p p' : pageAlloc) :
  flushBit c ci pi i p = Done p' -> searchAddr p' = searchAddr p.
Proof.
  unfold flushBit. intros H. bind_inv H.
  assert (Ha1 : searchAddr a = searchAddr p).
  { destruct (Z.land (cache c) (shl 1 i) =? 0).
    - inversion Ha. reflexivity.
    - bind_inv Ha. bind_inv Ha. inversion Ha. reflexivity. }
  rewrite <- Ha1.
  destruct (Z.land (scav c) (shl 1 i) =? 0).
  - inversion H. reflexivity.
  - bind_inv H. bind_inv H. inversion H. reflexivity.
Qed.

Lemma flushLoop_searchAddr (c : pageCache) (ci pi : Z) (n : nat) :
  forall (i : Z) (p p' : pageAlloc),
  flushLoop n c ci pi i p = Done p' -> searchAddr p' = searchAddr p.
Proof.
  induction n as [|n IH]; intros i p p' H; cbn [flushLoop] in H.
  - inversion H. reflexivity.
  - bind_inv H. apply IH in H. apply flushBit_searchAddr in Ha. congruence.
Qed.

Lemma flush_searchAddr (c c' : pageCache) (p p' : pageAlloc) :
  flush c p = Done (c', p') ->
  (cache c = 0 -> c' = c /\ p' = p) /\
  (cache c <> 0 ->
     c' = emptyCache /\
     searchAddr p' = if base c <? searchAddr p then base c else searchAddr p).
Proof.
  unfold flush, empty. intros H.
  destruct (Z.eqb_spec (cache c) 0) as [Hz|Hne].
  - inversion H; subst. split; [auto | contradiction].
  - split; [contradiction|]. intros _.
    bind_inv H. bind_inv H. inversion H; subst. split; [reflexivity|].
    apply flushLoop_searchAddr in Ha. unfold lessThan. rewrite Ha.
    destruct (base c <? searchAddr p); cbn; auto.
Qed.

(** C5 (as the code has it): [flush] of a cache whose free bitmap is zero
    returns at once and changes neither the cache (its base and scavenged
    bitmap stay) nor the allocator. For a cache with a free page, whose
    64-page window lies in a mapped chunk, [flush] returns, the cache is
    reset to its zero value, and in the bitmaps of that chunk exactly the
    pages whose free bit is set in the cache have become free and exactly
    the pages whose scavenged bit is set in the cache have been added to
    the scavenged pages, every other bit, and every other chunk, being as
    before. *)
Theorem flush_returns_cached_pages (c : pageCache) (p : pageAlloc) :
  (cache c = 0 -> flush c p = Done (c, p)) /\
  (cache c <> 0 ->
   forall d,
     0 <= chunkPageIndex (base c) ->
     chunkPageIndex (base c) + 64 <= modulus ->
     chunks p !! chunkIndex (base c) = Some d ->
     chunkPageIndex (base c) + 64 <= 64 * Z.of_nat (length (pallocBits d)) ->
     chunkPageIndex (base c) + 64 <= 64 * Z.of_nat (length (scavenged d)) ->
     (forall q, summary q = summary p ->
        exists s, pageAlloc_update q (base c) pageCachePages false false = Done s) ->
     exists d' p',
       flush c p = Done (emptyCache, p') /\
       chunks p' = <[chunkIndex (base c) := d']> (chunks p) /\
       flushedBits c (chunkPageIndex (base c)) 0 64 d d').
Proof.
  split.
  - intros Hz. unfold flush, empty. rewrite Hz. reflexivity.
  - intros Hne d Hpi Hmod Hd Hlb Hls Hupd. unfold flush, empty.
    destruct (Z.eqb_spec (cache c) 0) as [|_]; [contradiction|].
    destruct (flushLoop_Done c (chunkIndex (base c)) (chunkPageIndex (base c))
                64 0 p d) as (d' & -> & Hbits); auto; try lia.
    cbn [mbind outcome_bind].
    set (p2 := if lessThan (base c) (searchAddr (set_chunk p (chunkIndex (base c)) d'))
               then set_searchAddr (set_chunk p (chunkIndex (base c)) d') (base c)
               else set_chunk p (chunkIndex (base c)) d').
    assert (Hsum : summary p2 = summary p)
      by (unfold p2; destruct (lessThan _ _); reflexivity).
    assert (Hch : chunks p2 = <[chunkIndex (base c) := d']> (chunks p))
      by (unfold p2; destruct (lessThan _ _); reflexivity).
    destruct (Hupd p2 Hsum) as (s & ->). cbn [mbind outcome_bind].
    exists d', (set_summary p2 s). split; [reflexivity|]. split; [exact Hch|].
    exact Hbits.
Qed.

Lemma alignDown_block (idx j : Z) :
  0 <= idx -> alignDown idx 64 <= j -> 0 <= alignDown j 64 /\ idx <= alignDown j 64 + 63.
Proof.
  unfold alignDown. intros Hidx Hj.
  pose proof (Z.mod_pos_bound idx 64 ltac:(lia)).
  pose proof (Z.mod_pos_bound j 64 ltac:(lia)).
  pose proof (Z.div_mod idx 64 ltac:(lia)).
  pose proof (Z.div_mod j 64 ltac:(lia)).
  lia.
Qed.

Lemma alignDown_window (addr ps : Z) :
  0 < ps -> 0 <= addr -> addr mod ps = 0 ->
  0 <= alignDown addr (64 * ps) /\ addr <= alignDown addr (64 * ps) + 63 * ps.
Proof.
  unfold alignDown. intros Hps Haddr Hal.
  assert (Heq : addr = ps * (addr / ps)).
  { pose proof (Z.div_mod addr ps ltac:(lia)). lia. }
  assert (Hm : addr mod (64 * ps) = ps * ((addr / ps) mod 64)).
  { rewrite Heq at 1. rewrite (Z.mul_comm 64 ps).
    apply Z.mul_mod_distr_l; lia. }
  pose proof (Z.mod_pos_bound (addr / ps) 64 ltac:(lia)) as Hk.
  pose proof (Z.mod_le addr (64 * ps) Haddr ltac:(lia)) as Hle.
  assert (ps * ((addr / ps) mod 64) <= 63 * ps) by nia.
  rewrite Hm in Hle |- *. split; lia.
Qed.

(** C6 (as the code has it): [flush] never increases [searchAddr]: for a
    cache with a free page it sets [searchAddr] to the cache's base exactly
    when that base is lower than the current [searchAddr] and leaves it
    unchanged otherwise, and for a cache without a free page it leaves
    [searchAddr] unchanged whatever the base. A call of [allocToCache]
    that returns a cache with a free page sets [searchAddr] to the last page
    of the returned window, and, the searches returning a page at or above
    the search address as the specification asks, does not decrease
    [searchAddr]. *)
Theorem searchAddr_back_on_flush_forward_on_refill (c : pageCache) (p : pageAlloc) :
  (forall c' p', flush c p = Done (c', p') ->
     searchAddr p' <= searchAddr p /\
     (cache c <> 0 ->
        searchAddr p' = if base c <? searchAddr p then base c else searchAddr p) /\
     (cache c = 0 -> searchAddr p' = searchAddr p)) /\
  (forall c' p', allocToCache p = Done (c', p') -> cache c' <> 0 ->
     searchAddr p' = U64.add (base c') (U64.mul pageSize 63) /\
     (searchContract p ->
        searchAddr p' = base c' + 63 * pageSize /\
        searchAddr p <= searchAddr p')).
Proof.
  split.
  - intros c' p' H. destruct (flush_searchAddr c c' p p' H) as (Hz & Hnz).
    destruct (Z.eq_dec (cache c) 0) as [He|Hne].
    + destruct (Hz He) as (_ & ->). split; [lia|]. split; [contradiction | auto].
    + destruct (Hnz Hne) as (_ & Hsa). split; [|split; [auto | contradiction]].
      rewrite Hsa. destruct (Z.ltb_spec (base c) (searchAddr p)); lia.
  - intros c' p' H Hne.
    destruct (allocToCache_Done_nonempty p c' p' H Hne) as (_ & Hsa & Hpath).
    change (pageCachePages - 1) with 63 in Hsa. split; [exact Hsa|].
    intros (Hps & Hsaeq & Hidx & Hcb & Hfast & Hslow).
    assert (Hgoal : 0 <= base c' /\ base c' + 64 * pageSize <= modulus /\
                    searchAddr p <= base c' + 63 * pageSize).
    { destruct Hpath as [(d & Hd & Hj & Hbase)|(r & Hr & Hr0 & Hbase)].
      - destruct (Hfast d Hd Hj) as (Hlow & Hfit).
        destruct (alignDown_block _ _ Hidx Hlow) as (Ha0 & Ha63).
        set (aj := alignDown (pallocBits_find (pallocBits d) 1
                                (chunkPageIndex (searchAddr p))).1 64) in *.
        set (cb := chunkBase (chunkIndex (searchAddr p))) in *.
        set (idx := chunkPageIndex (searchAddr p)) in *.
        assert (Haj : 0 <= aj * pageSize) by nia.
        assert (Hidxaj : idx * pageSize <= (aj + 63) * pageSize) by nia.
        assert (Hb : base c' = cb + aj * pageSize).
        { rewrite Hbase. unfold add, mul.
          rewrite (wrap_small (aj * pageSize)) by (unfold inRange; lia).
          apply wrap_small. unfold inRange. lia. }
        rewrite Hb. repeat split; lia.
      - destruct (Hslow r Hr Hr0) as (Hge & Hal & Hfit).
        assert (0 <= r.1) by nia.
        destruct (alignDown_window r.1 pageSize Hps ltac:(assumption) Hal) as (Ha0 & Ha63).
        rewrite Hbase. repeat split; lia. }
    destruct Hgoal as (Hb0 & Hfit & Hfwd).
    assert (Heq : searchAddr p' = base c' + 63 * pageSize).
    { rewrite Hsa. unfold add, mul. rewrite (Z.mul_comm pageSize 63).
      rewrite (wrap_small (63 * pageSize)) by (unfold inRange; lia).
      apply wrap_small. unfold inRange. lia. }
    split; [exact Heq | lia].
Qed.

End FlushTheorems.

(** ** fixalloc *)

Section FixAllocFacts.

Context {R : Runtime}.

(** A normal return of [alloc] or [free] leaves the object size alone. *)
Lemma fixalloc_alloc_size (f : fixalloc) (w : world) v f' w' :
  fixalloc_alloc f w = Done (v, f', w') -> fa_size f' = fa_size f.
Proof.
  unfold fixalloc_alloc. intros H.
  destruct (fa_size f =? 0); [discriminate|].
  destruct (negb (fa_list f =? 0)); inversion H; reflexivity.
Qed.

Lemma fixalloc_free_size (f : fixalloc) (w : world) p f' w' :
  fixalloc_free f w p = Done (f', w') -> fa_size f' = fa_size f.
Proof.
  unfold fixalloc_free. intros H.
  destruct (p =? 0); inversion H; reflexivity.
Qed.

Lemma fixalloc_reach_size (s s' : fixalloc * world) :
  fixalloc_reach s s' -> fa_size s'.1 = fa_size s.1.
Proof.
  induction 1 as [|s1 s2 s3 Hstep _ IH]; [reflexivity|].
  rewrite IH. destruct Hstep as [f w v f' w' H|f w p f' w' H]; cbn.
  - eapply fixalloc_alloc_size, H.
  - eapply fixalloc_free_size, H.
Qed.

(** [alloc] returns normally whenever the size is not zero. *)
Lemma fixalloc_alloc_returns (f : fixalloc) (w : world) :
  fa_size f <> 0 -> exists v f' w', fixalloc_alloc f w = Done (v, f', w').
Proof.
  intros Hne. unfold fixalloc_alloc.
  destruct (Z.eqb_spec (fa_size f) 0) as [|_]; [contradiction|].
  destruct (negb (fa_list f =? 0)); eauto.
Qed.

(** C9: [alloc] on an allocator whose size is still zero (before [init])
    throws, and [init] with a size above [_FixAllocChunk] throws; after
    [init] with a size of at most [_FixAllocChunk], [init] returns with a
    non-zero size, and in every state reached from there by calls of
    [alloc] and [free] the size is still non-zero and [alloc] returns
    without throwing. *)
Theorem fixalloc_throws_only_when_misused :
  (forall f w, fa_size f = 0 ->
     fixalloc_alloc f w = Fatal (Thrown "runtime: internal error")) /\
  (forall size first arg stat, _FixAllocChunk < size ->
     init size first arg stat = Fatal (Thrown "runtime: fixalloc size too large")) /\
  (forall size first arg stat, size <= _FixAllocChunk ->
     exists f0,
       init size first arg stat = Done f0 /\
       fa_size f0 <> 0 /\
       forall w f w', fixalloc_reach (f0, w) (f, w') ->
         fa_size f <> 0 /\
         exists v f' w'', fixalloc_alloc f w' = Done (v, f', w'')).
Proof.
  split; [|split].
  - intros f w Hz. unfold fixalloc_alloc. rewrite Hz. reflexivity.
  - intros size first arg stat Hgt. unfold init.
    replace (_FixAllocChunk <? size) with true by lia. reflexivity.
  - intros size first arg stat Hle. unfold init.
    replace (_FixAllocChunk <? size) with false by lia.
    eexists. split; [reflexivity|]. cbn [fa_size].
    assert (Hne : (if size <? mlinkSize then mlinkSize else size) <> 0)
      by (unfold mlinkSize; destruct (Z.ltb_spec size 8); lia).
    split; [exact Hne|]. intros w f w' Hreach.
    apply fixalloc_reach_size in Hreach. cbn [fst fa_size] in Hreach.
    assert (fa_size f <> 0) by (rewrite Hreach; exact Hne).
    split; [assumption|]. apply fixalloc_alloc_returns. assumption.
Qed.

Lemma loadNext_memclr (w : world) (v n q : Z) :
  ~ (v <= q < v + n) ->
  loadNext (memclrNoHeapPointers w v n) q = loadNext w q.
Proof.
  intros Hout. unfold loadNext, memclrNoHeapPointers. cbn [links].
  destruct (links w !! q) as [x|] eqn:Hq.
  - erewrite (proj2 (map_lookup_filter_Some _ _ _ _)); [reflexivity|].
    split; [exact Hq | exact Hout].
  - rewrite (proj2 (map_lookup_filter_None _ _ _)); [reflexivity|].
    left. exact Hq.
Qed.

Lemma chain_ext (w w' : world) (ps : list Z) : forall l,
  (forall q, q ∈ ps -> loadNext w' q = loadNext w q) ->
  chain w l ps -> chain w' l ps.
Proof.
  induction ps as [|p ps IH]; intros l Hext; cbn [chain]; [auto|].
  intros (Hl & Hp & Hc). split; [assumption|]. split; [assumption|].
  fold (loadNext w' p). fold (loadNext w p) in Hc.
  rewrite Hext by (left). apply IH; [|assumption].
  intros q Hq. apply Hext. right. assumption.
Qed.

(** Popping a free list: [alloc] hands out the objects of the list in list
    order, from the list and not from a chunk, so without a first-touch
    call. *)
Lemma allocMany_chain (ps : list Z) : forall (f : fixalloc) (w : world),
  fa_size f <> 0 -> disjointObjects (fa_size f) ps ->
  chain w (fa_list f) ps ->
  exists f' w',
    allocMany (length ps) f w = Done (ps, f', w') /\
    touched w' = touched w /\ nsys w' = nsys w.
Proof.
  induction ps as [|p ps IH]; intros f w Hsz Hdis Hc; cbn [length allocMany].
  - eauto.
  - destruct Hc as (Hl & Hp & Hc). fold (loadNext w p) in Hc.
    destruct Hdis as (Hnd & H0 & Hsep).
    apply NoDup_cons in Hnd. destruct Hnd as (Hpnot & Hnd).
    unfold fixalloc_alloc at 1.
    destruct (Z.eqb_spec (fa_size f) 0) as [|_]; [contradiction|].
    rewrite Hl. destruct (Z.eqb_spec p 0) as [|_]; [contradiction|].
    cbn [negb mbind outcome_bind].
    set (f1 := {| fa_size := fa_size f; fa_list := loadNext w p |}).
    set (w1 := if fa_zero f then memclrNoHeapPointers w p (fa_size f) else w).
    destruct (IH f1 w1) as (f' & w' & -> & Ht & Hn).
    + exact Hsz.
    + split; [assumption|]. split; [intros Hin; apply H0; right; exact Hin|].
      intros a b Ha Hb. apply Hsep; right; assumption.
    + apply (chain_ext w); [|exact Hc].
      intros q Hq. unfold w1. destruct (fa_zero f); [|reflexivity].
      apply loadNext_memclr. apply Hsep; [left | right; assumption|].
      intros ->. contradiction.
    + cbn [mbind outcome_bind]. exists f', w'. split; [reflexivity|].
      rewrite Ht, Hn. unfold w1. destruct (fa_zero f); auto.
Qed.

(** Pushing onto a free list: after [free] of each pointer of [qs] the list
    runs through them in reverse order and then through what it held. *)
Lemma freeAll_chain (qs : list Z) : forall (f : fixalloc) (w : world) (tl : list Z),
  NoDup qs -> 0 ∉ qs -> (forall q, q ∈ qs -> q ∉ tl) ->
  chain w (fa_list f) tl ->
  exists f' w',
    freeAll qs f w = Done (f', w') /\
    chain w' (fa_list f') (rev qs ++ tl) /\
    fa_size f' = fa_size f /\ touched w' = touched w /\ nsys w' = nsys w.
Proof.
  induction qs as [|q qs IH]; intros f w tl Hnd H0 Hdisj Hc; cbn [freeAll rev].
  - exists f, w. auto.
  - apply NoDup_cons in Hnd. destruct Hnd as (Hqnot & Hnd).
    unfold fixalloc_free at 1.
    destruct (Z.eqb_spec q 0) as [->|Hq0]; [exfalso; apply H0; left|].
    cbn [mbind outcome_bind fst snd].
    set (f1 := {| fa_size := fa_size f; fa_list := q |}).
    set (w1 := storeNext w q (fa_list f)).
    destruct (IH f1 w1 (q :: tl)) as (f' & w' & -> & Hc' & Hs & Ht & Hn).
    + assumption.
    + intros Hin. apply H0. right. exact Hin.
    + intros a Ha Hin. apply elem_of_cons in Hin. destruct Hin as [->|Hin].
      * contradiction.
      * apply (Hdisj a); [right|]; assumption.
    + cbn [chain]. split; [reflexivity|]. split; [assumption|].
      unfold w1, storeNext. cbn [links fa_list f1]. rewrite lookup_insert_eq. cbn [default].
      apply (chain_ext w); [|exact Hc].
      intros a Ha. unfold loadNext. cbn [links].
      rewrite lookup_insert_ne; [reflexivity|].
      intros ->. apply (Hdisj a); [left | assumption].
    + exists f', w'. split; [reflexivity|]. rewrite <- app_assoc. cbn [app].
      auto.
Qed.

Lemma allocMany_length (k : nat) : forall (f : fixalloc) (w : world) ps f' w',
  allocMany k f w = Done (ps, f', w') ->
  length ps = k /\ fa_size f' = fa_size f.
Proof.
  induction k as [|k IH]; intros f w ps f' w' H; cbn [allocMany] in H.
  - inversion H. auto.
  - apply bind_Done in H. destruct H as (((v & f1) & w1) & H1 & H).
    apply bind_Done in H. destruct H as (((vs & f2) & w2) & H2 & H).
    inversion H; subst. apply IH in H2. destruct H2 as (Hl & Hs).
    apply fixalloc_alloc_size in H1. cbn [length]. split; [lia | congruence].
Qed.

(** [alloc] calls the first-touch callback only on the branch that carves
    the object from a chunk. *)
Lemma fixalloc_alloc_touched (f : fixalloc) (w : world) v f' w' :
  fixalloc_alloc f w = Done (v, f', w') ->
  (fa_list f <> 0 -> v = fa_list f /\ touched w' = touched w) /\
  (fa_list f = 0 ->
     touched w' = if fa_first f then v :: touched w else touched w).
Proof.
  unfold fixalloc_alloc. intros H.
  destruct (fa_size f =? 0); [discriminate|].
  destruct (Z.eqb_spec (fa_list f) 0) as [Hz|Hnz]; cbn [negb] in H;
    injection H as Hv Hf Hw; subst v w'.
  - split; [contradiction|]. intros _.
    destruct (fa_nchunk f <? fa_size f), (fa_first f); reflexivity.
  - split; [|contradiction]. intros _. split; [reflexivity|].
    destruct (fa_zero f); reflexivity.
Qed.

(** Reuse after [free]: [k] pointers to distinct objects, freed in the order
    [qs], come back from the next [k] calls of [alloc] in the reverse order,
    without a first-touch call. *)
Lemma reuse_of_disjoint_objects (f : fixalloc) (w : world) (k : nat)
    (ps : list Z) (f1 : fixalloc) (w1 : world) (qs : list Z) :
  fa_size f <> 0 ->
  allocMany k f w = Done (ps, f1, w1) ->
  disjointObjects (fa_size f) ps ->
  Permutation ps qs ->
  exists f2 w2 f3 w3,
    freeAll qs f1 w1 = Done (f2, w2) /\
    allocMany k f2 w2 = Done (rev qs, f3, w3) /\
    Permutation ps (rev qs) /\
    touched w3 = touched w2 /\
    touched w2 = touched w1.
Proof.
  intros Hsz Hps (Hnd & H0 & Hsep) Hperm.
  destruct (allocMany_length k f w ps f1 w1 Hps) as (Hlen & Hs1).
  assert (Hndq : NoDup qs) by (rewrite <- Hperm; exact Hnd).
  assert (H0q : 0 ∉ qs) by (rewrite <- Hperm; exact H0).
  destruct (freeAll_chain qs f1 w1 []) as (f2 & w2 & Hfree & Hc & Hs2 & Ht2 & _);
    [assumption | assumption | intros q _ Hin; inversion Hin | exact I |].
  rewrite app_nil_r in Hc.
  destruct (allocMany_chain (rev qs) f2 w2) as (f3 & w3 & Halloc & Ht3 & _).
  - congruence.
  - split; [rewrite <- Permutation_rev; assumption|].
    split; [rewrite <- Permutation_rev; assumption|].
    intros a b Ha Hb. rewrite <- Permutation_rev in Ha, Hb.
    rewrite Hs2, Hs1. apply Hsep; rewrite Hperm; assumption.
  - exact Hc.
  - rewrite length_rev in Halloc.
    assert (Hk : length qs = k) by (rewrite <- Hperm; exact Hlen).
    rewrite Hk in Halloc.
    exists f2, w2, f3, w3. split; [exact Hfree|]. split; [exact Halloc|].
    split; [rewrite Hperm; apply Permutation_rev|]. auto.
Qed.

End FixAllocFacts.

(** ** Objects carved from fresh chunks are distinct *)

Section FreshObjects.

Context {R : Runtime}.

Lemma fixalloc_alloc_nsys (f : fixalloc) (w : world) v f' w' :
  fixalloc_alloc f w = Done (v, f', w') -> (nsys w <= nsys w')%nat.
Proof.
  unfold fixalloc_alloc. intros H.
  destruct (fa_size f =? 0); [discriminate|].
  destruct (negb (fa_list f =? 0)); injection H as _ _ Hw; subst w'.
  - destruct (fa_zero f); cbn; lia.
  - destruct (fa_nchunk f <? fa_size f), (fa_first f); cbn; lia.
Qed.

Lemma allocMany_nsys (k : nat) : forall (f : fixalloc) (w : world) ps f' w',
  allocMany k f w = Done (ps, f', w') -> (nsys w <= nsys w')%nat.
Proof.
  induction k as [|k IH]; intros f w ps f' w' H; cbn [allocMany] in H.
  - injection H as _ _ ->. lia.
  - apply bind_Done in H. destruct H as (((v & f1) & w1) & H1 & H).
    apply bind_Done in H. destruct H as (((vs & f2) & w2) & H2 & H).
    injection H as _ _ <-. apply fixalloc_alloc_nsys in H1. apply IH in H2. lia.
Qed.

Lemma carve_step (bound : nat) (f : fixalloc) (w : world) v f' w' :
  0 < fa_size f -> fa_size f <= fa_nalloc f < U32.modulus ->
  fa_nalloc f mod fa_size f = 0 ->
  freshChunks (fa_nalloc f) bound ->
  carving f w ->
  fixalloc_alloc f w = Done (v, f', w') ->
  (nsys w' <= bound)%nat ->
  fa_size f' = fa_size f /\ fa_nalloc f' = fa_nalloc f /\
  carving f' w' /\ unusedObject f w bound v /\ v <> 0 /\
  forall p, unusedObject f' w' bound p ->
    unusedObject f w bound p /\ (p + fa_size f <= v \/ v + fa_size f <= p).
Proof.
  intros Hs HN Hdiv Hfresh (Hlist & Hn0 & Hnmod & Hcur) H Hbound.
  unfold fixalloc_alloc in H.
  destruct (Z.eqb_spec (fa_size f) 0) as [|_]; [lia|].
  rewrite Hlist in H. cbn [Z.eqb negb] in H.
  destruct (Z.ltb_spec (fa_nchunk f) (fa_size f)) as [Hlt|Hge].
  - (* a new chunk is obtained *)
    assert (Hz : fa_nchunk f = 0).
    { pose proof (Z.div_mod (fa_nchunk f) (fa_size f) ltac:(lia)) as Hdm.
      rewrite Hnmod, Z.add_0_r in Hdm.
      assert (fa_nchunk f / fa_size f = 0) by (apply Z.div_small; lia).
      nia. }
    injection H as Hv Hf Hwe.
    assert (Hw' : nsys w' = S (nsys w))
      by (rewrite <- Hwe; destruct (fa_first f); reflexivity).
    destruct (Hfresh (nsys w) ltac:(lia)) as (Hpos & Hfit & Hdisj).
    set (a := persistentalloc (nsys w) (fa_nalloc f) 0) in *.
    assert (Hsub : U32.sub (fa_nalloc f) (U32.wrap (fa_size f)) = fa_nalloc f - fa_size f).
    { unfold U32.sub, U32.wrap. rewrite (Z.mod_small (fa_size f)) by lia.
      apply Z.mod_small. lia. }
    assert (Hadd : U64.add a (fa_size f) = a + fa_size f).
    { unfold U64.add, U64.wrap. apply Z.mod_small. lia. }
    subst v f'. clear Hwe. cbn [fa_size fa_nalloc].
    split; [reflexivity|]. split; [reflexivity|]. split; [|split; [|split]].
    + unfold carving; cbn [fa_list fa_nchunk fa_size fa_chunk fa_nalloc].
      rewrite Hsub, Hadd. split; [reflexivity|]. split; [lia|].
      split.
      * rewrite Zminus_mod, Hdiv, Z.mod_same by lia. reflexivity.
      * intros _. exists (nsys w). fold a. rewrite Hw'. split; [lia|]. lia.
    + right. exists (nsys w). fold a. split; [lia|]. lia.
    + lia.
    + intros p [(Hlo & Hhi)|(n & Hn & Hlo & Hhi)];
        cbn [fa_chunk fa_nchunk fa_size fa_nalloc] in *.
      * rewrite Hsub, Hadd in *. split; [|lia].
        right. exists (nsys w). fold a. split; [lia|]. lia.
      * rewrite Hw' in Hn. split.
        -- right. exists n. split; [lia|]. auto.
        -- destruct (Hdisj n ltac:(lia) ltac:(lia)) as [Hd|Hd]; lia.
  - (* the current chunk has room *)
    destruct Hcur as (m & Hm & Hlo & Hend); [lia|].
    injection H as Hv Hf Hwe.
    assert (Hw' : nsys w' = nsys w)
      by (rewrite <- Hwe; destruct (fa_first f); reflexivity).
    destruct (Hfresh m ltac:(lia)) as (Hpos & Hfit & Hdisj).
    set (a := persistentalloc m (fa_nalloc f) 0) in *.
    assert (Hsub : U32.sub (fa_nchunk f) (U32.wrap (fa_size f)) = fa_nchunk f - fa_size f).
    { unfold U32.sub, U32.wrap. rewrite (Z.mod_small (fa_size f)) by lia.
      apply Z.mod_small. lia. }
    assert (Hadd : U64.add (fa_chunk f) (fa_size f) = fa_chunk f + fa_size f).
    { unfold U64.add, U64.wrap. apply Z.mod_small. lia. }
    subst v f'. clear Hwe. cbn [fa_size fa_nalloc].
    split; [reflexivity|]. split; [reflexivity|]. split; [|split; [|split]].
    + unfold carving; cbn [fa_list fa_nchunk fa_size fa_chunk fa_nalloc].
      rewrite Hsub, Hadd. split; [reflexivity|]. split; [lia|].
      split.
      * rewrite Zminus_mod, Hnmod, Z.mod_same by lia. reflexivity.
      * intros _. exists m. fold a. rewrite Hw'. split; [lia|]. lia.
    + left. lia.
    + lia.
    + intros p [(Hplo & Hphi)|(n & Hn & Hplo & Hphi)];
        cbn [fa_chunk fa_nchunk fa_size fa_nalloc] in *.
      * rewrite Hsub, Hadd in *. split; [left|]; lia.
      * rewrite Hw' in Hn. split.
        -- right. exists n. split; [lia|]. auto.
        -- destruct (Hdisj n ltac:(lia) ltac:(lia)) as [Hd|Hd]; lia.
Qed.

Lemma carve_many (bound k : nat) : forall (f : fixalloc) (w : world) ps f' w',
  0 < fa_size f -> fa_size f <= fa_nalloc f < U32.modulus ->
  fa_nalloc f mod fa_size f = 0 ->
  freshChunks (fa_nalloc f) bound ->
  carving f w ->
  allocMany k f w = Done (ps, f', w') ->
  (nsys w' <= bound)%nat ->
  disjointObjects (fa_size f) ps /\
  forall p, p ∈ ps -> unusedObject f w bound p.
Proof.
  induction k as [|k IH]; intros f w ps f' w' Hs HN Hdiv Hfresh Hcarve H Hbound;
    cbn [allocMany] in H.
  - inversion H; subst. split.
    + split; [apply NoDup_nil_2|]. split; [set_unfold; tauto|].
      intros p q Hp. set_unfold. tauto.
    + intros p Hp. set_unfold. tauto.
  - apply bind_Done in H. destruct H as (((v & f1) & w1) & H1 & H).
    apply bind_Done in H. destruct H as (((vs & f2) & w2) & H2 & H).
    inversion H; subst ps f' w'; clear H.
    pose proof (allocMany_nsys _ _ _ _ _ _ H2) as Hmono.
    destruct (carve_step bound f w v f1 w1 Hs HN Hdiv Hfresh Hcarve H1 ltac:(lia))
      as (Hs1 & HN1 & Hcarve1 & Hv & Hv0 & Hrest).
    destruct (IH f1 w1 vs f2 w2) as ((Hnd & H0 & Hsep) & Hun);
      try rewrite Hs1; try rewrite HN1; auto.
    rewrite Hs1 in Hsep.
    assert (Hfar : forall p, p ∈ vs -> p + fa_size f <= v \/ v + fa_size f <= p)
      by (intros p Hp; apply Hrest, Hun, Hp).
    split.
    + split; [|split].
      * apply NoDup_cons_2; [|assumption].
        intros Hin. destruct (Hfar v Hin); lia.
      * intros Hin. apply elem_of_cons in Hin. destruct Hin as [Hin|Hin]; [lia|].
        contradiction.
      * intros p q Hp Hq Hne.
        apply elem_of_cons in Hp. apply elem_of_cons in Hq.
        destruct Hp as [->|Hp], Hq as [->|Hq].
        -- contradiction.
        -- destruct (Hfar q Hq); lia.
        -- destruct (Hfar p Hp); lia.
        -- apply Hsep; assumption.
    + intros p Hp. apply elem_of_cons in Hp. destruct Hp as [->|Hp]; [assumption|].
      apply Hrest, Hun, Hp.
Qed.

(** The pointers that [alloc] returns on an allocator fresh from [init]
    are the addresses of distinct objects, the system allocator having
    handed out chunks that do not overlap; [init] is given a size of at
    most the chunk size, which is at least one link and fits 32 bits. *)
Lemma fresh_pointers_disjoint (size : Z) (first : bool) (arg stat : Z)
    (f0 : fixalloc) (w : world) (k : nat) ps f1 w1 :
  0 <= size <= _FixAllocChunk -> mlinkSize <= _FixAllocChunk < U32.modulus ->
  init size first arg stat = Done f0 ->
  allocMany k f0 w = Done (ps, f1, w1) ->
  freshChunks (fa_nalloc f0) (nsys w1) ->
  fa_size f0 <> 0 /\ disjointObjects (fa_size f0) ps.
Proof.
  intros Hsize HC Hinit Halloc Hfresh. unfold init in Hinit.
  replace (_FixAllocChunk <? size) with false in Hinit by lia.
  injection Hinit as Hf0.
  set (s := if size <? mlinkSize then mlinkSize else size) in *.
  assert (Hs : mlinkSize <= s <= _FixAllocChunk)
    by (unfold s; destruct (Z.ltb_spec size mlinkSize); lia).
  unfold mlinkSize in *.
  assert (Hq : 1 <= _FixAllocChunk / s) by (apply Z.div_le_lower_bound; lia).
  assert (Hqs : _FixAllocChunk / s * s <= _FixAllocChunk)
    by (rewrite Z.mul_comm; apply Z.mul_div_le; lia).
  assert (HN : U32.wrap (U64.mul (_FixAllocChunk / s) s) = _FixAllocChunk / s * s).
  { unfold U32.wrap, U64.mul, U64.wrap, U64.modulus, U32.modulus in *.
    rewrite (Z.mod_small (_ * _) (2 ^ 64)) by nia.
    apply Z.mod_small. nia. }
  assert (Hsz : fa_size f0 = s) by (rewrite <- Hf0; reflexivity).
  assert (Hna : fa_nalloc f0 = _FixAllocChunk / s * s)
    by (rewrite <- Hf0; cbn [fa_nalloc]; exact HN).
  split; [rewrite Hsz; lia|].
  apply (carve_many (nsys w1) k f0 w ps f1 w1); try assumption.
  - rewrite Hsz. lia.
  - rewrite Hsz, Hna. unfold U32.modulus in *. nia.
  - rewrite Hsz, Hna. apply Z.mod_mul. lia.
  - unfold carving. rewrite <- Hf0. cbn [fa_list fa_nchunk fa_size].
    split; [reflexivity|]. split; [lia|]. split; [apply Z.mod_0_l; lia|]. lia.
  - lia.
Qed.

(** C8: on an initialized allocator (its size is at least one link, as
    [init] leaves it), let [alloc] be called [k] times, and let the [k]
    pointers returned be the addresses of distinct objects; after [free] of
    all of them, in any order, [k] more calls of [alloc] return normally and
    return the same [k] addresses in last-in-first-out order, the reverse of
    the order in which they were freed, and the first-touch callback is not
    called during these [k] calls. The pointers are the addresses of
    distinct objects, and so all of this holds, on an allocator fresh from
    [init] when the system allocator hands out chunks that do not overlap.
    In any call of [alloc], the callback is called only when the free list
    is empty and the object is carved from a chunk, and then on the address
    returned. *)
Theorem fixalloc_reuse_is_lifo (f : fixalloc) (w : world) (k : nat)
    (ps : list Z) (f1 : fixalloc) (w1 : world) (qs : list Z) :
  mlinkSize <= fa_size f -> (1 <= k)%nat ->
  allocMany k f w = Done (ps, f1, w1) ->
  Permutation ps qs ->
  (disjointObjects (fa_size f) ps \/
   exists size first arg stat,
     0 <= size <= _FixAllocChunk /\ mlinkSize <= _FixAllocChunk < U32.modulus /\
     init size first arg stat = Done f /\
     freshChunks (fa_nalloc f) (nsys w1)) ->
  (exists f2 w2 f3 w3,
     freeAll qs f1 w1 = Done (f2, w2) /\
     allocMany k f2 w2 = Done (rev qs, f3, w3) /\
     Permutation ps (rev qs) /\
     touched w3 = touched w2 /\
     touched w2 = touched w1) /\
  (forall g u v g' u',
     fixalloc_alloc g u = Done (v, g', u') ->
     (fa_list g <> 0 -> v = fa_list g /\ touched u' = touched u) /\
     (fa_list g = 0 ->
        touched u' = if fa_first g then v :: touched u else touched u)).
Proof.
  intros Hlink _ Hps Hperm Hdis.
  assert (Hsz : fa_size f <> 0) by (unfold mlinkSize in Hlink; lia).
  split; [|intros g u v g' u'; apply fixalloc_alloc_touched].
  apply (reuse_of_disjoint_objects f w k ps f1 w1 qs Hsz Hps); [|exact Hperm].
  destruct Hdis as [Hdis|(size & first & arg & stat & Hsize & HC & Hinit & Hfresh)];
    [exact Hdis|].
  exact (proj2 (fresh_pointers_disjoint size first arg stat f w k ps f1 w1
                  Hsize HC Hinit Hps Hfresh)).
Qed.

End FreshObjects.

(** ** Worked examples on the concrete runtime *)

Section Examples.

Import U64.

Local Existing Instance Model.runtime.

Ltac by_compute := vm_compute; repeat split; try reflexivity; try discriminate.

Lemma alloc_one_lowest_set_bit_witness :
  pageCache_ok Model.cache0 /\ inRange pageSize /\ cache Model.cache0 <> 0 /\
  windowFits Model.cache0 /\
  exists i c',
    i = TrailingZeros64 (cache Model.cache0) /\
    alloc Model.cache0 1 =
      (U64.add (base Model.cache0) (U64.mul i pageSize),
       if Z.testbit (scav Model.cache0) i then pageSize else 0, c') /\
    U64.add (base Model.cache0) (U64.mul i pageSize) = base Model.cache0 + i * pageSize /\
    StronglySorted Z.lt (allocOnes 5 Model.cache0).
Proof.
  assert (H1 : pageCache_ok Model.cache0) by by_compute.
  assert (H2 : inRange pageSize) by by_compute.
  assert (H3 : cache Model.cache0 <> 0) by by_compute.
  assert (H4 : windowFits Model.cache0) by by_compute.
  split; [exact H1|]. split; [exact H2|]. split; [exact H3|]. split; [exact H4|].
  destruct (alloc_one_lowest_set_bit Model.cache0 H1 H2 H3)
    as (i & c' & Hi & _ & _ & _ & Ha & Hexact & _ & _ & _ & Hmany).
  destruct (Hmany 5%nat) as (idxs & _ & _ & _ & Hsorted).
  exists i, c'. split; [assumption|]. split; [assumption|].
  split; [exact (Hexact H4) | exact (Hsorted H4)].
Defined.

(** The scenario of the specification: the five single-page allocations
    from the cache with free pages at offsets 0, 1, 2, 5, 9, 20, 21, 22, 40
    and 63 return the pages at offsets 0, 1, 2, 5 and 9, in this order. *)
Example allocOnes_scattered :
  allocOnes 5 Model.cache0 =
    map (fun i => 2 ^ 20 + i * 8192) [0; 1; 2; 5; 9].
Proof. vm_compute. reflexivity. Qed.


(** The run search on a word with all 64 bits set: a run of 64 starts at
    bit 0, and there is no longer run; the search returns 64 for 65, 127
    and 129 bits and 0 for 128, 192 and 2^32 bits, the shift counts being
    taken modulo 64. *)
Example findBitRange64_full_word :
  map (findBitRange64 maxval) [64; 65; 127; 129; 128; 192; 2 ^ 32] =
    [0; 64; 64; 64; 0; 0; 0].
Proof. vm_compute. reflexivity. Qed.


Lemma alloc_empty_fails_witness :
  empty Model.cache2 = true /\ 1 <= 3 /\ alloc Model.cache2 3 = (0, 0, Model.cache2).
Proof.
  assert (H1 : empty Model.cache2 = true) by reflexivity.
  assert (H2 : 1 <= 3) by lia.
  split; [exact H1|]. split; [exact H2|].
  apply (alloc_empty_fails Model.cache2 3 H1 H2).
Defined.

Lemma alloc_changes_only_the_run_witness :
  0 <= 3 /\ allocIndex Model.cache0 3 = 0 /\
  base (alloc Model.cache0 3).2 = base Model.cache0 /\
  Z.testbit (cache (alloc Model.cache0 3).2) 5 = Z.testbit (cache Model.cache0) 5 /\
  Z.testbit (scav (alloc Model.cache0 3).2) 5 = Z.testbit (scav Model.cache0) 5.
Proof.
  assert (H1 : 0 <= 3) by lia.
  assert (H2 : allocIndex Model.cache0 3 = 0) by (vm_compute; reflexivity).
  split; [exact H1|]. split; [exact H2|].
  destruct (alloc_changes_only_the_run Model.cache0 3 H1) as ((Hbase & Hout & _) & _).
  split; [exact Hbase|].
  apply (Hout 5); [lia|]. rewrite H2. lia.
Defined.

(** The scenario of the specification from the refill on: the chunk of
    [alloc0] has exactly the pages at offsets 0, 1, 2, 5, 9, 20, 21, 22, 40
    and 63 of its first window free; the refill returns a cache with exactly
    those bits set, the chunk's window is then all in use, and five
    single-page allocations return the pages at offsets 0, 1, 2, 5 and 9. *)
Example refill_scattered :
  exists c p',
    allocToCache Model.alloc0 = Done (c, p') /\
    base c = 0 /\ cache c = Model.scattered /\ scav c = 0 /\
    (pallocBits <$> chunks p' !! 0) = Some (replicate 8 maxval) /\
    allocOnes 5 c = map (fun i => i * 8192) [0; 1; 2; 5; 9].
Proof.
  eexists _, _. split; [vm_compute; reflexivity|]. by_compute.
Qed.

(** Counterexample to C3 as stated: the refill of [alloc0] returns the cache
    of the window at address 0, with free pages, and leaves [searchAddr] at
    [63 * pageSize], not at the first address after the window,
    [64 * pageSize]. *)
Lemma allocToCache_searchAddr_not_past_window :
  exists c p',
    allocToCache Model.alloc0 = Done (c, p') /\
    cache c <> 0 /\
    searchAddr p' = base c + 63 * pageSize /\
    searchAddr p' <> base c + 64 * pageSize /\
    searchAddr p' <> U64.add (base c) (U64.mul 64 pageSize).
Proof.
  eexists _, _. split; [vm_compute; reflexivity|]. by_compute.
Qed.

Lemma allocToCache_searchAddr_last_page_witness :
  exists c p',
    allocToCache Model.alloc0 = Done (c, p') /\ cache c <> 0 /\
    searchAddr p' = U64.add (base c) (U64.mul pageSize 63).
Proof.
  eexists _, _. split; [vm_compute; reflexivity|].
  match goal with
  | |- cache ?c <> 0 /\ searchAddr ?p' = _ =>
      assert (H1 : allocToCache Model.alloc0 = Done (c, p')) by (vm_compute; reflexivity);
      assert (H2 : cache c <> 0) by by_compute;
      split; [exact H2|];
      exact (proj1 (allocToCache_searchAddr_last_page Model.alloc0 c p' H1 H2))
  end.
Defined.

Lemma allocToCache_exhausted_witness :
  (searchAddr_ok (set_searchAddr Model.alloc2 maxSearchAddr) /\
   exhausted (set_searchAddr Model.alloc2 maxSearchAddr) /\
   allocToCache (set_searchAddr Model.alloc2 maxSearchAddr) =
     Done (emptyCache, set_searchAddr Model.alloc2 maxSearchAddr)) /\
  (searchAddr_ok Model.alloc2 /\ exhausted Model.alloc2 /\
   allocToCache Model.alloc2 =
     Done (emptyCache, set_searchAddr Model.alloc2 maxSearchAddr) /\
   searchAddr Model.alloc2 <> maxSearchAddr /\
   end_ Model.alloc2 <= chunkIndex maxSearchAddr /\
   allocToCache (set_searchAddr Model.alloc2 maxSearchAddr) =
     Done (emptyCache, set_searchAddr Model.alloc2 maxSearchAddr)).
Proof.
  assert (H1 : searchAddr_ok (set_searchAddr Model.alloc2 maxSearchAddr))
    by (intros _; reflexivity).
  assert (H2 : exhausted (set_searchAddr Model.alloc2 maxSearchAddr))
    by (left; by_compute).
  assert (H3 : searchAddr_ok Model.alloc2).
  { intros H. exfalso. vm_compute in H. apply H. reflexivity. }
  assert (H4 : exhausted Model.alloc2).
  { right. exists [0], (0, 0). split; [by_compute|].
    repeat split; vm_compute; reflexivity. }
  split.
  - split; [exact H1|]. split; [exact H2|].
    exact (proj1 (allocToCache_exhausted _ H1 H2)).
  - split; [exact H3|]. split; [exact H4|].
    split; [exact (proj1 (allocToCache_exhausted _ H3 H4))|].
    split; [by_compute|].
    assert (H5 : end_ Model.alloc2 <= chunkIndex maxSearchAddr) by by_compute.
    split; [exact H5|].
    exact (proj2 (proj2 (proj2 (proj2 (proj2 (allocToCache_exhausted _ H3 H4))))) H5).
Defined.

(** Counterexample to C5 as stated: [cache1] has no free page but records
    the page at offset 3 as scavenged; [flush] returns at once, the cache
    keeps its base and its scavenged bitmap, and the allocator, where that
    page is page 67 of chunk 0, is unchanged: the page is not marked
    scavenged. *)
Lemma flush_keeps_cache_without_free_page :
  cache Model.cache1 = 0 /\ Z.testbit (scav Model.cache1) 3 = true /\
  chunkIndex (base Model.cache1) = 0 /\ chunkPageIndex (base Model.cache1) = 64 /\
  chunks Model.alloc0 !! 0 = Some Model.chunk0 /\
  exists c' p',
    flush Model.cache1 Model.alloc0 = Done (c', p') /\
    c' <> emptyCache /\ base c' <> 0 /\ scav c' <> 0 /\
    p' = Model.alloc0 /\
    pageBit (scavenged Model.chunk0) (64 + 3) = false.
Proof.
  split; [reflexivity|]. split; [reflexivity|]. split; [reflexivity|].
  split; [reflexivity|]. split; [reflexivity|].
  exists Model.cache1, Model.alloc0. split; [reflexivity|].
  split; [discriminate|]. by_compute.
Qed.

Lemma flush_returns_cached_pages_witness :
  cache Model.cache2 = 0 /\ flush Model.cache2 Model.alloc2 = Done (Model.cache2, Model.alloc2) /\
  cache Model.cache3 <> 0 /\
  exists d' p',
    flush Model.cache3 Model.alloc2 = Done (emptyCache, p') /\
    chunks p' = <[chunkIndex (base Model.cache3) := d']> (chunks Model.alloc2) /\
    flushedBits Model.cache3 (chunkPageIndex (base Model.cache3)) 0 64 Model.chunkFull d'.
Proof.
  assert (H1 : cache Model.cache2 = 0) by reflexivity.
  assert (H2 : cache Model.cache3 <> 0) by by_compute.
  split; [exact H1|].
  split; [exact (proj1 (flush_returns_cached_pages Model.cache2 Model.alloc2) H1)|].
  split; [exact H2|].
  refine (proj2 (flush_returns_cached_pages Model.cache3 Model.alloc2) H2
            Model.chunkFull _ _ _ _ _ _); try by_compute.
  intros q Hq. cbn [pageAlloc_update Model.runtime].
  unfold Model.pageAlloc_update. rewrite Hq. cbn [last Model.alloc2 summary].
  eexists. reflexivity.
Defined.

(** Counterexample to C6 as stated: the drained cache [cache2] has a base
    lower than the search address of [alloc1], and [flush] does not set
    [searchAddr] to that base: it returns at once. *)
Lemma flush_of_drained_cache_keeps_searchAddr :
  base Model.cache2 < searchAddr Model.alloc1 /\
  exists c' p',
    flush Model.cache2 Model.alloc1 = Done (c', p') /\
    searchAddr p' = searchAddr Model.alloc1 /\
    searchAddr p' <> base Model.cache2.
Proof.
  split; [by_compute|]. exists Model.cache2, Model.alloc1.
  split; [reflexivity|]. by_compute.
Qed.

Lemma searchContract_alloc0 : searchContract Model.alloc0.
Proof.
  unfold searchContract. cbv zeta.
  split; [by_compute|]. split; [by_compute|]. split; [by_compute|].
  split; [by_compute|]. split.
  - intros d Hd.
    assert (Hd' : d = Model.chunk0) by (vm_compute in Hd; vm_compute; congruence).
    subst d. intros _. by_compute.
  - intros r Hr. assert (Hr' : r = (0, 0)) by (vm_compute in Hr; congruence).
    subst r. intros H. exfalso. apply H. reflexivity.
Qed.

Lemma searchContract_alloc3 : searchContract Model.alloc3.
Proof.
  unfold searchContract. cbv zeta.
  split; [by_compute|]. split; [by_compute|]. split; [by_compute|].
  split; [by_compute|]. split.
  - intros d Hd.
    assert (Hd' : d = Model.chunkFull) by (vm_compute in Hd; vm_compute; congruence).
    subst d. intros H. exfalso. apply H. vm_compute. reflexivity.
  - intros r Hr.
    assert (Hr' : r = (Model.pallocChunkBytes, 0)) by (vm_compute in Hr; vm_compute; congruence).
    subst r. intros _. by_compute.
Qed.

(** [flush] of [cache3] into [alloc0] does not raise [searchAddr]; the
    refill of [alloc0], by the fast path, and the refill of [alloc3], by
    the slow path into its second chunk, do not lower it. *)
Lemma searchAddr_back_on_flush_forward_on_refill_witness :
  (exists c' p',
     flush Model.cache3 Model.alloc0 = Done (c', p') /\
     searchAddr p' <= searchAddr Model.alloc0) /\
  searchContract Model.alloc0 /\
  (exists c' p',
     allocToCache Model.alloc0 = Done (c', p') /\ cache c' <> 0 /\
     searchAddr Model.alloc0 <= searchAddr p') /\
  searchContract Model.alloc3 /\
  (exists c' p',
     allocToCache Model.alloc3 = Done (c', p') /\ cache c' <> 0 /\
     base c' = Model.pallocChunkBytes /\
     searchAddr Model.alloc3 <= searchAddr p').
Proof.
  pose proof (searchAddr_back_on_flush_forward_on_refill Model.cache3 Model.alloc0)
    as (Hflush & Hrefill).
  pose proof (searchAddr_back_on_flush_forward_on_refill Model.cache3 Model.alloc3)
    as (_ & Hrefill3).
  split; [|split; [exact searchContract_alloc0|split;
                   [|split; [exact searchContract_alloc3|]]]].
  - eexists _, _. split; [vm_compute; reflexivity|].
    match goal with
    | |- searchAddr ?p' <= _ =>
        refine (proj1 (Hflush emptyCache p' _)); vm_compute; reflexivity
    end.
  - eexists _, _. split; [vm_compute; reflexivity|].
    match goal with
    | |- cache ?c <> 0 /\ _ <= searchAddr ?p' =>
        assert (H1 : allocToCache Model.alloc0 = Done (c, p')) by (vm_compute; reflexivity);
        assert (H2 : cache c <> 0) by by_compute;
        split; [exact H2|];
        exact (proj2 (proj2 (Hrefill c p' H1 H2) searchContract_alloc0))
    end.
  - eexists _, _. split; [vm_compute; reflexivity|].
    match goal with
    | |- cache ?c <> 0 /\ _ /\ _ <= searchAddr ?p' =>
        assert (H1 : allocToCache Model.alloc3 = Done (c, p')) by (vm_compute; reflexivity);
        assert (H2 : cache c <> 0) by by_compute;
        split; [exact H2|]; split; [vm_compute; reflexivity|];
        exact (proj2 (proj2 (Hrefill3 c p' H1 H2) searchContract_alloc3))
    end.
Defined.

Lemma fixalloc_throws_only_when_misused_witness :
  16 <= _FixAllocChunk /\
  exists f0,
    init 16 true 0 0 = Done f0 /\ fa_size f0 <> 0 /\
    exists v f' w', fixalloc_alloc f0 Model.world0 = Done (v, f', w').
Proof.
  assert (H1 : 16 <= _FixAllocChunk) by by_compute.
  split; [exact H1|].
  destruct (proj2 (proj2 fixalloc_throws_only_when_misused) 16 true 0 0 H1)
    as (f0 & Hinit & Hsz & Hreach).
  exists f0. split; [exact Hinit|]. split; [exact Hsz|].
  apply (Hreach Model.world0 f0 Model.world0). apply rtc_refl.
Defined.

Lemma model_chunks_fresh :
  freshChunks (fa_nalloc Model.fix0) (nsys Model.world1).
Proof.
  intros i Hi. cbn [nsys Model.world1] in Hi.
  cbn [persistentalloc Model.runtime fa_nalloc Model.fix0].
  unfold Model.persistentalloc, modulus.
  split; [lia|]. split; [lia|]. intros j Hj Hne. lia.
Qed.

(** Three objects of 16 bytes from a fresh allocator, freed in the order
    second, first, third, come back in the order third, first, second, and
    the first-touch callback has run three times in all. *)
Lemma fixalloc_reuse_is_lifo_witness :
  init 16 true 0 0 = Done Model.fix0 /\
  mlinkSize <= fa_size Model.fix0 /\ (1 <= 3)%nat /\
  allocMany 3 Model.fix0 Model.world0 =
    Done ([65536; 65552; 65568], Model.fix1, Model.world1) /\
  Permutation [65536; 65552; 65568] [65552; 65536; 65568] /\
  freshChunks (fa_nalloc Model.fix0) (nsys Model.world1) /\
  exists f2 w2 f3 w3,
    freeAll [65552; 65536; 65568] Model.fix1 Model.world1 = Done (f2, w2) /\
    allocMany 3 f2 w2 = Done ([65568; 65536; 65552], f3, w3) /\
    touched w3 = touched Model.world1.
Proof.
  assert (H0 : init 16 true 0 0 = Done Model.fix0) by (vm_compute; reflexivity).
  assert (H1 : mlinkSize <= fa_size Model.fix0) by by_compute.
  assert (H2 : (1 <= 3)%nat) by lia.
  assert (H3 : allocMany 3 Model.fix0 Model.world0 =
               Done ([65536; 65552; 65568], Model.fix1, Model.world1))
    by (vm_compute; reflexivity).
  assert (H4 : Permutation [65536; 65552; 65568] [65552; 65536; 65568])
    by apply perm_swap.
  assert (H5 : 0 <= 16 <= _FixAllocChunk) by by_compute.
  assert (H6 : mlinkSize <= _FixAllocChunk < U32.modulus) by by_compute.
  split; [exact H0|]. split; [exact H1|]. split; [exact H2|].
  split; [exact H3|]. split; [exact H4|]. split; [exact model_chunks_fresh|].
  assert (H7 : disjointObjects (fa_size Model.fix0) [65536; 65552; 65568] \/
               exists size first arg stat,
                 0 <= size <= _FixAllocChunk /\
                 mlinkSize <= _FixAllocChunk < U32.modulus /\
                 init size first arg stat = Done Model.fix0 /\
                 freshChunks (fa_nalloc Model.fix0) (nsys Model.world1)).
  { right. exists 16, true, 0, 0.
    split; [exact H5|]. split; [exact H6|]. split; [exact H0|].
    exact model_chunks_fresh. }
  destruct (fixalloc_reuse_is_lifo Model.fix0 Model.world0 3 _ _ _ _ H1 H2 H3 H4 H7)
    as ((f2 & w2 & f3 & w3 & Hfree & Halloc & _ & Ht3 & Ht2) & _).
  exists f2, w2, f3, w3. split; [exact Hfree|]. split; [exact Halloc|].
  congruence.
Defined.

End Examples.

(** * Further properties of the page cache *)

Module PopFacts.

Import U64 U64Facts CountFacts.

(** The set bits of a word are those inside a mask and those outside it. *)
Lemma countIn_split (P M : Z -> bool) (n : nat) : forall lo,
  countIn P lo n =
    countIn (fun j => P j && M j) lo n + countIn (fun j => P j && negb (M j)) lo n.
Proof.
  induction n as [|n IH]; intros lo; [reflexivity|].
  rewrite !countIn_cons, (IH (lo + 1)).
  destruct (P lo), (M lo); cbn [andb negb Z.b2z]; lia.
Qed.

Lemma OnesCount64_split (x m : Z) :
  OnesCount64 x = OnesCount64 (Z.land x m) + OnesCount64 (andnot x m).
Proof.
  unfold OnesCount64, andnot.
  rewrite (countIn_split (Z.testbit x) (Z.testbit m)). f_equal.
  - apply countIn_ext. intros j _. symmetry. apply Z.land_spec.
  - apply countIn_ext. intros j _. symmetry. apply Z.ldiff_spec.
Qed.

Lemma OnesCount64_bounds (x : Z) : 0 <= OnesCount64 x <= 64.
Proof. unfold OnesCount64. apply (countIn_bounds (Z.testbit x) 64 0). Qed.

Lemma countIn_all (P : Z -> bool) (n : nat) : forall lo,
  (forall j, lo <= j < lo + Z.of_nat n -> P j = true) ->
  countIn P lo n = Z.of_nat n.
Proof.
  induction n as [|n IH]; intros lo H; [reflexivity|].
  rewrite countIn_cons, (H lo), (IH (lo + 1)); [cbn [Z.b2z]; lia| |lia].
  intros j Hj. apply H. lia.
Qed.

Lemma mask_one (i : Z) : shl (sub (shl 1 1) 1) i = shl 1 i.
Proof. reflexivity. Qed.

(** The population count of a word masked to a single bit. *)
Lemma OnesCount64_bit (x i : Z) :
  0 <= i < 64 -> OnesCount64 (Z.land x (shl 1 i)) = Z.b2z (Z.testbit x i).
Proof.
  intros Hi. rewrite <- mask_one, OnesCount64_masked by lia.
  change (Z.to_nat 1) with 1%nat. rewrite countIn_cons.
  unfold countIn. cbn. lia.
Qed.

Lemma OnesCount64_zero : OnesCount64 0 = 0.
Proof. reflexivity. Qed.

End PopFacts.

Section CacheExtras.

Context {R : Runtime}.
Import U64 U64Facts CountFacts PopFacts.

Lemma allocN_ok (c : pageCache) (n : Z) :
  pageCache_ok c -> pageCache_ok (allocN c n).2.
Proof.
  intros (Hb & Hc & Hs). unfold allocN.
  destruct (64 <=? findBitRange64 (cache c) n); cbn [snd]; [exact (conj Hb (conj Hc Hs))|].
  unfold pageCache_ok; cbn [base cache scav].
  split; [exact Hb|]. split; apply andnot_range; auto using shl_nonneg.
Qed.

Lemma alloc_ok (c : pageCache) (n : Z) :
  pageCache_ok c -> pageCache_ok (alloc c n).2.
Proof.
  intros Hok. unfold alloc.
  destruct (cache c =? 0); [exact Hok|].
  destruct (n =? 1); [apply (afterOne_ok c), Hok | apply allocN_ok, Hok].
Qed.

Lemma alloc_one_eq_cache (c : pageCache) :
  pageCache_ok c -> cache c <> 0 ->
  cache (alloc c 1).2 = andnot (cache c) (shl 1 (TrailingZeros64 (cache c))).
Proof.
  intros _ Hne. unfold alloc.
  destruct (Z.eqb_spec (cache c) 0) as [|_]; [contradiction|]. reflexivity.
Qed.



Lemma TrailingZeros64_range (x : Z) : 0 <= TrailingZeros64 x <= 64.
Proof.
  unfold TrailingZeros64. destruct (tzFrom_spec 64 x 0) as (H & _). lia.
Qed.

(** The scavenged count that [alloc(1)] reads is the number of scavenged
    bits it clears. *)
Lemma scav_bit_count (s i : Z) :
  0 <= i <= 64 ->
  Z.land (shr s i) 1 = OnesCount64 s - OnesCount64 (andnot s (shl 1 i)).
Proof.
  intros Hi. rewrite (OnesCount64_split s (shl 1 i)).
  destruct (Z.eq_dec i 64) as [->|Hne].
  - change (shl 1 64) with 0. change (shr s 64) with 0.
    rewrite Z.land_0_r, OnesCount64_zero. change (Z.land 0 1) with 0. lia.
  - rewrite land_shr_one, OnesCount64_bit by lia. lia.
Qed.

(** X2: the scavenged byte count that [alloc] and [allocN] return is
    [pageSize] times the number of scavenged bits the call removes from the
    cache, in every case: on failure it is 0 and no bit is removed. *)
Theorem alloc_scavenged_bytes_are_bits_cleared (c : pageCache) (npages : Z) :
  (alloc c npages).1.2 =
    U64.mul (OnesCount64 (scav c) - OnesCount64 (scav (alloc c npages).2)) pageSize /\
  (allocN c npages).1.2 =
    U64.mul (OnesCount64 (scav c) - OnesCount64 (scav (allocN c npages).2)) pageSize.
Proof.
  assert (HN : (allocN c npages).1.2 =
    U64.mul (OnesCount64 (scav c) - OnesCount64 (scav (allocN c npages).2)) pageSize).
  { unfold allocN. destruct (64 <=? findBitRange64 (cache c) npages); cbn [fst snd scav].
    - rewrite Z.sub_diag. reflexivity.
    - rewrite (OnesCount64_split (scav c)
                 (shl (sub (shl 1 npages) 1) (findBitRange64 (cache c) npages))).
      f_equal. lia. }
  split; [|exact HN]. unfold alloc.
  destruct (cache c =? 0); cbn [fst snd]; [rewrite Z.sub_diag; reflexivity|].
  destruct (npages =? 1); [|exact HN]. cbn [fst snd scav].
  rewrite scav_bit_count by apply TrailingZeros64_range. reflexivity.
Qed.

(** X3: a single-page allocation from a cache with a free page lowers the
    number of free bits by exactly one; an allocation of [n] pages at an
    index where [n] free bits start lowers it by exactly [n]. *)
Theorem alloc_takes_exactly_npages (c : pageCache) (npages : Z) :
  pageCache_ok c -> cache c <> 0 ->
  OnesCount64 (cache (alloc c 1).2) = OnesCount64 (cache c) - 1 /\
  (1 <= npages -> isRun (cache c) (findBitRange64 (cache c) npages) npages ->
   OnesCount64 (cache (allocN c npages).2) = OnesCount64 (cache c) - npages).
Proof.
  intros Hok Hne. split.
  - rewrite alloc_one_eq_cache. 2,3: assumption.
    destruct (TrailingZeros64_spec (cache c) (proj1 (proj2 Hok)) Hne) as (Hi & Hbit & _).
    rewrite (OnesCount64_split (cache c) (shl 1 (TrailingZeros64 (cache c)))).
    rewrite OnesCount64_bit, Hbit by assumption. cbn [Z.b2z]. lia.
  - intros Hn (Hi0 & Hin & Hbits). unfold allocN.
    replace (64 <=? findBitRange64 (cache c) npages) with false by lia.
    cbn [snd cache].
    rewrite (OnesCount64_split (cache c)
               (shl (sub (shl 1 npages) 1) (findBitRange64 (cache c) npages))).
    rewrite OnesCount64_masked by lia. rewrite countIn_all.
    + lia.
    + intros j Hj. apply Hbits. lia.
Qed.

(** Whatever [alloc] does to the cache, it clears the bits of one mask in
    both bitmaps. *)
Lemma allocN_mask (c : pageCache) (n : Z) :
  exists m,
    (allocN c n).2 =
      {| base := base c; cache := andnot (cache c) m; scav := andnot (scav c) m |}.
Proof.
  unfold allocN. destruct (64 <=? findBitRange64 (cache c) n); cbn [snd].
  - exists 0. unfold andnot. rewrite !Z.ldiff_0_r. destruct c; reflexivity.
  - eexists. reflexivity.
Qed.

Lemma alloc_mask (c : pageCache) (n : Z) :
  exists m,
    (alloc c n).2 =
      {| base := base c; cache := andnot (cache c) m; scav := andnot (scav c) m |}.
Proof.
  unfold alloc. destruct (cache c =? 0); cbn [snd].
  - exists 0. unfold andnot. rewrite !Z.ldiff_0_r. destruct c; reflexivity.
  - destruct (n =? 1); [eexists; reflexivity | apply allocN_mask].
Qed.

(** X4: a page that [alloc] or [allocN] takes out of the free bitmap is not
    left marked scavenged in the cache; and if every scavenged bit of the
    cache is a free bit before the call, this is so after it. *)
Theorem alloc_unmarks_scavenged (c : pageCache) (npages : Z) :
  (forall j, Z.testbit (cache c) j = true ->
     Z.testbit (cache (alloc c npages).2) j = false ->
     Z.testbit (scav (alloc c npages).2) j = false) /\
  ((forall j, Z.testbit (scav c) j = true -> Z.testbit (cache c) j = true) ->
   forall j, Z.testbit (scav (alloc c npages).2) j = true ->
     Z.testbit (cache (alloc c npages).2) j = true) /\
  (forall j, Z.testbit (cache c) j = true ->
     Z.testbit (cache (allocN c npages).2) j = false ->
     Z.testbit (scav (allocN c npages).2) j = false) /\
  ((forall j, Z.testbit (scav c) j = true -> Z.testbit (cache c) j = true) ->
   forall j, Z.testbit (scav (allocN c npages).2) j = true ->
     Z.testbit (cache (allocN c npages).2) j = true).
Proof.
  destruct (alloc_mask c npages) as (m & ->).
  destruct (allocN_mask c npages) as (m' & ->).
  cbn [cache scav]. unfold andnot.
  repeat split; intros; rewrite ?Z.ldiff_spec in *;
    repeat match goal with
           | H : forall j, _ -> _ |- _ => specialize (H j)
           end;
    destruct (Z.testbit (cache c) j), (Z.testbit (scav c) j), (Z.testbit m j),
      (Z.testbit m' j); cbn in *; auto; try discriminate; try tauto.
Qed.

Lemma allocAll_bits (ns : list Z) : forall (c : pageCache) (j : Z),
  Z.testbit (cache (allocAll ns c)) j = true -> Z.testbit (cache c) j = true.
Proof.
  induction ns as [|n ns IH]; intros c j H; [exact H|].
  unfold allocAll in *. cbn [fold_left] in H. apply IH in H.
  destruct (alloc_mask c n) as (m & Hm). rewrite Hm in H. cbn [cache] in H.
  unfold andnot in H. rewrite Z.ldiff_spec in H. apply andb_true_iff in H. apply H.
Qed.

(** The run that a successful [alloc] takes is cleared in the cache it
    leaves. *)
Lemma alloc_clears_run (c : pageCache) (n j : Z) :
  pageCache_ok c -> 1 <= n -> cache c <> 0 ->
  0 <= allocIndex c n < 64 ->
  allocIndex c n <= j < allocIndex c n + n -> j < 64 ->
  Z.testbit (cache (alloc c n).2) j = false.
Proof.
  intros Hok Hn Hne Hi Hj Hj64. unfold alloc, allocIndex in *.
  destruct (Z.eqb_spec (cache c) 0) as [|_]; [contradiction|].
  destruct (Z.eqb_spec n 1) as [->|Hn1]; cbn [snd cache].
  - rewrite testbit_andnot_bit by lia.
    replace (TrailingZeros64 (cache c) =? j) with true by lia. apply andb_false_r.
  - unfold allocN. replace (64 <=? findBitRange64 (cache c) n) with false by lia.
    cbn [snd cache]. unfold andnot. rewrite Z.ldiff_spec, testbit_mask by lia.
    replace ((j <? 64) && (findBitRange64 (cache c) n <=? j) &&
             (j <? findBitRange64 (cache c) n + Z.min n 64)) with true by lia.
    apply andb_false_r.
Qed.

(** X5: no page is handed out twice. After a successful [alloc] of [n1]
    pages at index [i1], and after any further calls of [alloc], a run of
    free bits that a later allocation of [n2] pages takes, at an index
    [i2], does not overlap the pages [i1, i1+n1). *)
Theorem alloc_never_returns_a_page_twice (c : pageCache) (n1 n2 i2 : Z) (ns : list Z) :
  pageCache_ok c -> 1 <= n1 -> 1 <= n2 -> cache c <> 0 ->
  0 <= allocIndex c n1 < 64 ->
  isRun (cache (allocAll ns (alloc c n1).2)) i2 n2 ->
  allocIndex c n1 + n1 <= i2 \/ i2 + n2 <= allocIndex c n1.
Proof.
  intros Hok Hn1 Hn2 Hne Hi1 (Hi2 & Hin2 & Hbits).
  destruct (Z_le_gt_dec (allocIndex c n1 + n1) i2) as [?|Hgt]; [left; assumption|].
  destruct (Z_le_gt_dec (i2 + n2) (allocIndex c n1)) as [?|Hgt']; [right; assumption|].
  exfalso.
  set (j := Z.max (allocIndex c n1) i2).
  assert (Hset : Z.testbit (cache (allocAll ns (alloc c n1).2)) j = true)
    by (apply Hbits; unfold j; lia).
  apply allocAll_bits in Hset.
  rewrite (alloc_clears_run c n1 j) in Hset by (assumption || (unfold j; lia)).
  discriminate.
Qed.

(** X6: the single-page path of [alloc] agrees with the general path: on a
    cache with a free page, [findBitRange64] finding the lowest run,
    [alloc(1)] returns what [allocN(1)] returns and leaves the same cache. *)
Theorem alloc_one_agrees_with_allocN (c : pageCache) :
  pageCache_ok c -> cache c <> 0 ->
  findsLowestRun findBitRange64 (cache c) 1 ->
  alloc c 1 = allocN c 1.
Proof.
  intros Hok Hne (Hfound & Hnone).
  destruct (TrailingZeros64_spec (cache c) (proj1 (proj2 Hok)) Hne) as (Hi & Hbit & Hlow).
  assert (Hrun : lowestRun (cache c) 1 (TrailingZeros64 (cache c))).
  { split.
    - split; [lia|]. split; [lia|]. intros j Hj.
      replace j with (TrailingZeros64 (cache c)) by lia. exact Hbit.
    - intros i' (Hi0 & _ & Hb). apply TrailingZeros64_le; [assumption|].
      apply Hb. lia. }
  assert (Hfbr : findBitRange64 (cache c) 1 = TrailingZeros64 (cache c)).
  { destruct (Z_lt_le_dec (findBitRange64 (cache c) 1) 64) as [Hlt|Hge].
    - apply (lowestRun_unique (cache c) 1); auto.
    - exfalso. apply (Hnone Hge _ (proj1 Hrun)). }
  unfold alloc, allocN.
  destruct (Z.eqb_spec (cache c) 0) as [|_]; [contradiction|].
  cbn [Z.eqb Pos.eqb]. rewrite Hfbr.
  replace (64 <=? TrailingZeros64 (cache c)) with false by lia.
  change (sub (shl 1 1) 1) with 1.
  rewrite OnesCount64_bit, land_shr_one by assumption. reflexivity.
Qed.

Lemma OnesCount64_pos (x : Z) : inRange x -> x <> 0 -> 1 <= OnesCount64 x.
Proof.
  intros Hx Hne. destruct (nonzero_bit x Hx Hne) as (j & Hj & Hbit).
  rewrite (OnesCount64_split x (shl 1 j)), OnesCount64_bit, Hbit by assumption.
  pose proof (OnesCount64_bounds (andnot x (shl 1 j))). cbn [Z.b2z]. lia.
Qed.

Lemma allocOnes_length (k : nat) : forall c : pageCache,
  pageCache_ok c ->
  Z.of_nat (length (allocOnes k c)) = Z.min (Z.of_nat k) (OnesCount64 (cache c)).
Proof.
  induction k as [|k IH]; intros c Hok; cbn [allocOnes].
  - pose proof (OnesCount64_bounds (cache c)). cbn [length]. lia.
  - unfold empty. destruct (Z.eqb_spec (cache c) 0) as [Hz|Hne].
    + rewrite Hz, OnesCount64_zero. cbn [length]. lia.
    + pose proof (alloc_ok c 1 Hok) as Hok'.
      pose proof (alloc_one_eq_cache c Hok Hne) as Hc'.
      destruct (TrailingZeros64_spec (cache c) (proj1 (proj2 Hok)) Hne) as (Hi & Hbit & _).
      pose proof (OnesCount64_split (cache c) (shl 1 (TrailingZeros64 (cache c)))) as Hs.
      rewrite OnesCount64_bit, Hbit in Hs by assumption. cbn [Z.b2z] in Hs.
      destruct (alloc c 1) as [[a s] c'] eqn:E. cbn [snd] in *.
      cbn [length]. rewrite Nat2Z.inj_succ, (IH c' Hok'), Hc'. lia.
Qed.

(** X7: a cache serves exactly as many single-page allocations as its free
    bitmap has set bits, at most 64: of [k] calls of [alloc(1)] in a row,
    the first [min(k, OnesCount64(cache))] succeed and the next one fails;
    a well-formed cache has no free bit exactly when it is empty. *)
Theorem cache_serves_its_free_pages (c : pageCache) (k : nat) :
  pageCache_ok c ->
  Z.of_nat (length (allocOnes k c)) = Z.min (Z.of_nat k) (OnesCount64 (cache c)) /\
  0 <= OnesCount64 (cache c) <= 64 /\
  (OnesCount64 (cache c) = 0 <-> empty c = true).
Proof.
  intros Hok. split; [apply allocOnes_length, Hok|].
  split; [apply OnesCount64_bounds|]. unfold empty. split.
  - intros Hz. apply Z.eqb_eq. destruct (Z.eq_dec (cache c) 0) as [|Hne]; [assumption|].
    pose proof (OnesCount64_pos (cache c) (proj1 (proj2 Hok)) Hne). lia.
  - intros He. apply Z.eqb_eq in He. rewrite He. apply OnesCount64_zero.
Qed.

End CacheExtras.

(** * Further properties of flush and allocToCache *)

Section AllocatorExtras.

Context {R : Runtime}.
Import U64 U64Facts.

Ltac bind_inv H :=
  let a := fresh "a" in
  let Ha := fresh "Ha" in
  apply bind_Done in H; destruct H as (a & Ha & H).

(** X8: whenever [flush] returns, the cache it leaves has no free page:
    [empty] returns true, as the comment on [flush] promises, whether the
    cache was flushed or was empty already. *)
Theorem flush_leaves_cache_empty (c c' : pageCache) (p p' : pageAlloc) :
  flush c p = Done (c', p') -> empty c' = true /\ cache c' = 0.
Proof.
  intros H. destruct (flush_searchAddr c c' p p' H) as (Hz & Hnz).
  unfold empty. destruct (Z.eq_dec (cache c) 0) as [He|Hne].
  - destruct (Hz He) as (-> & _). rewrite He. auto.
  - destruct (Hnz Hne) as (-> & _). auto.
Qed.

(** What one iteration of the loop of [flush] leaves alone. *)
Lemma flushBit_frame (c : pageCache) (ci pi i : Z) (p p' : pageAlloc) :
  flushBit c ci pi i p = Done p' ->
  start p' = start p /\ end_ p' = end_ p /\ summary p' = summary p /\
  forall ci', ci' <> ci -> chunks p' !! ci' = chunks p !! ci'.
Proof.
  unfold flushBit. intros H. bind_inv H.
  assert (Ha1 : start a = start p /\ end_ a = end_ p /\ summary a = summary p /\
                forall ci', ci' <> ci -> chunks a !! ci' = chunks p !! ci').
  { destruct (Z.land (cache c) (shl 1 i) =? 0).
    - inversion Ha. auto.
    - bind_inv Ha. bind_inv Ha. inversion Ha. cbn.
      repeat split. intros ci' Hne. apply lookup_insert_ne. congruence. }
  destruct Ha1 as (Hs & He & Hsm & Hch).
  destruct (Z.land (scav c) (shl 1 i) =? 0).
  - inversion H; subst. auto.
  - bind_inv H. bind_inv H. inversion H. cbn.
    repeat split; try assumption. intros ci' Hne.
    rewrite lookup_insert_ne by congruence. apply Hch, Hne.
Qed.

Lemma flushLoop_frame (c : pageCache) (ci pi : Z) (n : nat) :
  forall (i : Z) (p p' : pageAlloc),
  flushLoop n c ci pi i p = Done p' ->
  start p' = start p /\ end_ p' = end_ p /\ summary p' = summary p /\
  forall ci', ci' <> ci -> chunks p' !! ci' = chunks p !! ci'.
Proof.
  induction n as [|n IH]; intros i p p' H; cbn [flushLoop] in H.
  - inversion H. auto.
  - bind_inv H. apply IH in H. apply flushBit_frame in Ha.
    destruct H as (Hs & He & Hsm & Hch), Ha as (Hs' & He' & Hsm' & Hch').
    repeat split; try congruence.
    intros ci' Hne. rewrite Hch, Hch' by assumption. reflexivity.
Qed.

(** X9: [flush] touches one chunk only. Whenever it returns, the chunk
    bounds [start] and [end] of the allocator are as before and every chunk
    other than the one that holds the cache's base has the bitmaps it had;
    [searchAddr] is the old one or the cache's base. *)
Theorem flush_touches_one_chunk (c c' : pageCache) (p p' : pageAlloc) :
  flush c p = Done (c', p') ->
  start p' = start p /\ end_ p' = end_ p /\
  (forall ci, ci <> chunkIndex (base c) -> chunks p' !! ci = chunks p !! ci) /\
  (searchAddr p' = searchAddr p \/ searchAddr p' = base c).
Proof.
  intros H.
  assert (Hsa : searchAddr p' = searchAddr p \/ searchAddr p' = base c).
  { destruct (flush_searchAddr c c' p p' H) as (Hz & Hnz).
    destruct (Z.eq_dec (cache c) 0) as [He|Hne].
    - destruct (Hz He) as (_ & ->). auto.
    - destruct (Hnz Hne) as (_ & ->). destruct (base c <? searchAddr p); auto. }
  unfold flush in H. destruct (empty c).
  - inversion H; subst. auto.
  - bind_inv H. bind_inv H. inversion H; subst. clear H.
    apply flushLoop_frame in Ha. destruct Ha as (Hs & He & _ & Hch).
    destruct (lessThan (base c) (searchAddr a)); cbn; auto.
Qed.


(** X11: exhaustion is sticky. Once [allocToCache] found no free page and
    set [searchAddr] to [maxSearchAddr()], the chunk of [maxSearchAddr()]
    lying at or past [end], every further call returns the empty cache at
    once and leaves the allocator as it is: any number of calls in a row
    return empty caches only and end in the same allocator. *)
Theorem allocToCache_exhaustion_is_sticky (p : pageAlloc) (level : list Z) (r : Z * Z) (k : nat) :
  end_ p <= chunkIndex maxSearchAddr ->
  chunkIndex (searchAddr p) < end_ p ->
  last (summary p) = Some level ->
  level !! Z.to_nat (chunkIndex (searchAddr p)) = Some 0 ->
  pageAlloc_find p 1 = Done r -> r.1 = 0 ->
  allocToCacheMany (S k) p =
    Done (replicate (S k) emptyCache, set_searchAddr p maxSearchAddr).
Proof.
  intros Hmax Hlt Hlast Hlevel Hfind Hr.
  assert (H1 : allocToCache p = Done (emptyCache, set_searchAddr p maxSearchAddr)).
  { unfold allocToCache.
    replace (end_ p <=? chunkIndex (searchAddr p)) with false by lia.
    rewrite Hlast. cbn [orFatal mbind outcome_bind]. rewrite Hlevel.
    cbn [orFatal mbind outcome_bind Z.eqb negb]. rewrite Hfind.
    cbn [mbind outcome_bind]. rewrite Hr. reflexivity. }
  assert (H2 : allocToCache (set_searchAddr p maxSearchAddr) =
               Done (emptyCache, set_searchAddr p maxSearchAddr)).
  { unfold allocToCache. cbn [end_ searchAddr set_searchAddr].
    replace (end_ p <=? chunkIndex maxSearchAddr) with true by lia. reflexivity. }
  assert (H3 : forall n, allocToCacheMany n (set_searchAddr p maxSearchAddr) =
                 Done (replicate n emptyCache, set_searchAddr p maxSearchAddr)).
  { induction n as [|n IH]; [reflexivity|].
    cbn [allocToCacheMany]. rewrite H2. cbn [mbind outcome_bind fst snd].
    rewrite IH. reflexivity. }
  cbn [allocToCacheMany]. rewrite H1. cbn [mbind outcome_bind fst snd].
  rewrite H3. reflexivity.
Qed.

Lemma takeCache_frame (p : pageAlloc) (ci : Z) (chunk : pallocData)
    (c c' : pageCache) (p' : pageAlloc) :
  takeCache p ci chunk c = Done (c', p') ->
  start p' = start p /\ end_ p' = end_ p /\
  forall ci', ci' <> ci -> chunks p' !! ci' = chunks p !! ci'.
Proof.
  unfold takeCache. intros H. bind_inv H. bind_inv H. bind_inv H.
  inversion H; subst. cbn. repeat split.
  intros ci' Hne. apply lookup_insert_ne. congruence.
Qed.

(** X12: [allocToCache] touches one chunk at most. Whenever it returns, the
    chunk bounds [start] and [end] are as before, and all chunks but one
    have the bitmaps they had. *)
Theorem allocToCache_touches_one_chunk (p : pageAlloc) (c : pageCache) (p' : pageAlloc) :
  allocToCache p = Done (c, p') ->
  start p' = start p /\ end_ p' = end_ p /\
  exists ci, forall ci', ci' <> ci -> chunks p' !! ci' = chunks p !! ci'.
Proof.
  unfold allocToCache. intros H.
  destruct (end_ p <=? chunkIndex (searchAddr p)).
  { inversion H; subst. repeat split. exists 0. auto. }
  bind_inv H. bind_inv H.
  destruct (negb (a0 =? 0)).
  - bind_inv H.
    destruct (_ =? maxval); [discriminate|].
    bind_inv H. bind_inv H. apply takeCache_frame in H.
    destruct H as (Hs & He & Hch). repeat split; try assumption. eauto.
  - bind_inv H. destruct (a1.1 =? 0).
    { inversion H; subst. repeat split. exists 0. auto. }
    bind_inv H. bind_inv H. bind_inv H. apply takeCache_frame in H.
    destruct H as (Hs & He & Hch). repeat split; try assumption. eauto.
Qed.

End AllocatorExtras.

(** * Further properties of fixalloc *)

Section FixAllocExtras.

Context {R : Runtime}.

(** X13: [init], given a size of at most [_FixAllocChunk] (itself at least
    one link and below 2^32), leaves an allocator whose object size is the
    size asked for, raised to one link if smaller, and whose chunk size
    [nalloc] is the largest multiple of that object size not above
    [_FixAllocChunk]; the free list is empty, no chunk is held, nothing is
    in use, and zeroing is on. *)
Theorem init_rounds_chunk_size (size : Z) (first : bool) (arg stat : Z) :
  0 <= size <= _FixAllocChunk -> mlinkSize <= _FixAllocChunk < U32.modulus ->
  exists f,
    init size first arg stat = Done f /\
    fa_size f = Z.max size mlinkSize /\
    fa_nalloc f mod fa_size f = 0 /\
    _FixAllocChunk - fa_size f < fa_nalloc f <= _FixAllocChunk /\
    fa_size f <= fa_nalloc f /\
    fa_list f = 0 /\ fa_chunk f = 0 /\ fa_nchunk f = 0 /\ fa_inuse f = 0 /\
    fa_zero f = true /\ fa_first f = first.
Proof.
  intros Hsize HC. unfold init.
  replace (_FixAllocChunk <? size) with false by lia.
  set (s := if size <? mlinkSize then mlinkSize else size).
  assert (Hs : s = Z.max size mlinkSize)
    by (unfold s; destruct (Z.ltb_spec size mlinkSize); lia).
  unfold mlinkSize in *.
  assert (Hs8 : 8 <= s <= _FixAllocChunk) by lia.
  pose proof (Z.div_mod _FixAllocChunk s ltac:(lia)) as Hdm.
  pose proof (Z.mod_pos_bound _FixAllocChunk s ltac:(lia)) as Hmb.
  assert (Hq : 1 <= _FixAllocChunk / s) by (apply Z.div_le_lower_bound; lia).
  assert (HN : U32.wrap (U64.mul (_FixAllocChunk / s) s) = _FixAllocChunk / s * s).
  { unfold U32.wrap, U64.mul, U64.wrap, U64.modulus, U32.modulus in *.
    rewrite (Z.mod_small (_ * _) (2 ^ 64)) by nia.
    apply Z.mod_small. nia. }
  eexists. split; [reflexivity|]. cbn [fa_size fa_nalloc fa_list fa_chunk fa_nchunk
                                        fa_inuse fa_zero fa_first].
  rewrite HN. split; [exact Hs|]. split; [apply Z.mod_mul; lia|].
  split; [nia|]. split; [nia|]. repeat split.
Qed.

Lemma add_wrap_l (x y : Z) : U64.add (U64.wrap x) y = U64.wrap (x + y).
Proof. unfold U64.add, U64.wrap. apply Zplus_mod_idemp_l. Qed.

Lemma sub_wrap_l (x y : Z) : U64.sub (U64.wrap x) y = U64.wrap (x - y).
Proof. unfold U64.sub, U64.wrap. apply Zminus_mod_idemp_l. Qed.

Lemma fixalloc_alloc_inuse (f : fixalloc) (w : world) v f' w' :
  fixalloc_alloc f w = Done (v, f', w') ->
  fa_inuse f' = U64.add (fa_inuse f) (fa_size f).
Proof.
  unfold fixalloc_alloc. intros H.
  destruct (fa_size f =? 0); [discriminate|].
  destruct (negb (fa_list f =? 0)); inversion H; reflexivity.
Qed.

Lemma allocMany_inuse (k : nat) : forall (f : fixalloc) (w : world) ps f' w',
  U64.inRange (fa_inuse f) ->
  allocMany k f w = Done (ps, f', w') ->
  fa_inuse f' = U64.wrap (fa_inuse f + Z.of_nat k * fa_size f).
Proof.
  induction k as [|k IH]; intros f w ps f' w' Hin H; cbn [allocMany] in H.
  - inversion H; subst. rewrite Z.mul_0_l, Z.add_0_r.
    symmetry. apply U64Facts.wrap_small, Hin.
  - apply bind_Done in H. destruct H as (((v & f1) & w1) & H1 & H).
    apply bind_Done in H. destruct H as (((vs & f2) & w2) & H2 & H).
    inversion H; subst.
    pose proof (fixalloc_alloc_inuse _ _ _ _ _ H1) as Hi1.
    pose proof (fixalloc_alloc_size _ _ _ _ _ H1) as Hs1.
    rewrite (IH _ _ _ _ _ (eq_ind_r U64.inRange (U64Facts.wrap_range _) Hi1) H2).
    rewrite Hi1, Hs1. fold (U64.add (U64.add (fa_inuse f) (fa_size f))
                                    (Z.of_nat k * fa_size f)).
    unfold U64.add at 2. rewrite add_wrap_l. f_equal. lia.
Qed.

Lemma freeAll_inuse (qs : list Z) : forall (f : fixalloc) (w : world) f' w',
  U64.inRange (fa_inuse f) ->
  freeAll qs f w = Done (f', w') ->
  fa_size f' = fa_size f /\
  fa_inuse f' = U64.wrap (fa_inuse f - Z.of_nat (length qs) * fa_size f).
Proof.
  induction qs as [|q qs IH]; intros f w f' w' Hin H; cbn [freeAll] in H.
  - inversion H; subst. split; [reflexivity|]. cbn [length].
    rewrite Z.mul_0_l, Z.sub_0_r. symmetry. apply U64Facts.wrap_small, Hin.
  - apply bind_Done in H. destruct H as ((f1 & w1) & H1 & H). cbn [fst snd] in H.
    unfold fixalloc_free in H1. destruct (q =? 0); [discriminate|].
    inversion H1; subst f1 w1. clear H1.
    edestruct IH as (Hs & Hi); [|exact H|];
      [cbn [fa_inuse]; apply U64Facts.wrap_range|].
    cbn [fa_size fa_inuse] in *. split; [exact Hs|]. rewrite Hi.
    fold (U64.sub (U64.sub (fa_inuse f) (fa_size f)) (Z.of_nat (length qs) * fa_size f)).
    unfold U64.sub at 2. rewrite sub_wrap_l. f_equal. cbn [length]. lia.
Qed.

(** X14: the in-use byte count follows the calls: each [alloc] adds the
    object size and each [free] subtracts it, in [uintptr] arithmetic, so
    after [k] calls of [alloc] the count has grown by [k] times the size,
    and after [free] of as many pointers it is what it was. *)
Theorem inuse_counts_allocated_bytes (f : fixalloc) (w : world) (k : nat)
    ps f1 w1 (qs : list Z) f2 w2 :
  U64.inRange (fa_inuse f) ->
  allocMany k f w = Done (ps, f1, w1) ->
  freeAll qs f1 w1 = Done (f2, w2) ->
  length qs = k ->
  fa_inuse f1 = U64.wrap (fa_inuse f + Z.of_nat k * fa_size f) /\
  fa_inuse f2 = fa_inuse f.
Proof.
  intros Hin Ha Hf Hlen.
  pose proof (allocMany_inuse k f w ps f1 w1 Hin Ha) as H1.
  destruct (allocMany_length k f w ps f1 w1 Ha) as (_ & Hs1).
  assert (Hin1 : U64.inRange (fa_inuse f1)) by (rewrite H1; apply U64Facts.wrap_range).
  destruct (freeAll_inuse qs f1 w1 f2 w2 Hin1 Hf) as (_ & H2).
  split; [exact H1|]. rewrite H2, H1, Hs1, Hlen.
  fold (U64.sub (U64.wrap (fa_inuse f + Z.of_nat k * fa_size f)) (Z.of_nat k * fa_size f)).
  rewrite sub_wrap_l. replace (fa_inuse f + Z.of_nat k * fa_size f - Z.of_nat k * fa_size f)
    with (fa_inuse f) by lia.
  apply U64Facts.wrap_small, Hin.
Qed.




Lemma fixalloc_alloc_carve_fields (f : fixalloc) (w : world) v f' w' :
  fixalloc_alloc f w = Done (v, f', w') -> fa_list f = 0 ->
  fa_list f' = 0 /\ fa_first f' = fa_first f.
Proof.
  unfold fixalloc_alloc. intros H Hl.
  destruct (fa_size f =? 0); [discriminate|].
  rewrite Hl in H. cbn [Z.eqb negb] in H. inversion H; subst. auto.
Qed.

Lemma allocMany_touched (k : nat) : forall (f : fixalloc) (w : world) ps f1 w1,
  allocMany k f w = Done (ps, f1, w1) -> fa_list f = 0 ->
  fa_list f1 = 0 /\
  touched w1 = (if fa_first f then rev ps else []) ++ touched w.
Proof.
  induction k as [|k IH]; intros f w ps f1 w1 H Hl; cbn [allocMany] in H.
  - inversion H; subst. destruct (fa_first f1); auto.
  - apply bind_Done in H. destruct H as (((v & f') & w') & H1 & H).
    apply bind_Done in H. destruct H as (((vs & f2) & w2) & H2 & H).
    inversion H; subst.
    destruct (fixalloc_alloc_carve_fields _ _ _ _ _ H1 Hl) as (Hl' & Hf').
    destruct (fixalloc_alloc_touched _ _ _ _ _ H1) as (_ & Ht).
    destruct (IH _ _ _ _ _ H2 Hl') as (Hl1 & Ht1).
    split; [exact Hl1|]. rewrite Ht1, Hf', (Ht Hl).
    destruct (fa_first f); [|reflexivity].
    cbn [rev]. rewrite <- app_assoc. reflexivity.
Qed.

(** X16: while the free list is empty every object comes from a chunk, and
    the first-touch callback, if there is one, is called exactly once for
    each object handed out, on its address and in the order of the calls of
    [alloc]; without a callback nothing is called. *)
Theorem first_touch_once_per_carved_object (f : fixalloc) (w : world) (k : nat) ps f1 w1 :
  fa_list f = 0 ->
  allocMany k f w = Done (ps, f1, w1) ->
  fa_list f1 = 0 /\
  touched w1 = (if fa_first f then rev ps else []) ++ touched w.
Proof. intros Hl H. exact (allocMany_touched k f w ps f1 w1 H Hl). Qed.

End FixAllocExtras.

(** * The layout of the objects carved from chunks *)

Section CarveLayout.
Context {R : Runtime}.

Lemma chunkObjects_length (s N : Z) (i : nat) :
  length (chunkObjects s N i) = Z.to_nat (N / s).
Proof. unfold chunkObjects. rewrite length_fmap, length_seq. reflexivity. Qed.

Lemma carvedFrom_length (s N : Z) (c : nat) : forall n,
  length (carvedFrom s N n c) = (c * Z.to_nat (N / s))%nat.
Proof.
  unfold carvedFrom. induction c as [|c IH]; intros n; cbn [seq flat_map]; [reflexivity|].
  rewrite length_app, chunkObjects_length, IH. lia.
Qed.

Lemma carvedFrom_snoc (s N : Z) (n c : nat) :
  carvedFrom s N n (S c) = carvedFrom s N n c ++ chunkObjects s N (n + c).
Proof.
  unfold carvedFrom. rewrite seq_S, flat_map_app. cbn [flat_map].
  rewrite app_nil_r. reflexivity.
Qed.

Lemma chunkObjects_drop (s N : Z) (i r : nat) :
  (r < Z.to_nat (N / s))%nat ->
  drop r (chunkObjects s N i) =
    (persistentalloc i N 0 + Z.of_nat r * s) :: drop (S r) (chunkObjects s N i).
Proof.
  intros Hr. apply drop_S. unfold chunkObjects.
  rewrite list_lookup_fmap, lookup_seq_lt by lia. reflexivity.
Qed.

Lemma chunkObjects_head (s N : Z) (i : nat) :
  (1 <= Z.to_nat (N / s))%nat ->
  chunkObjects s N i = persistentalloc i N 0 :: drop 1 (chunkObjects s N i).
Proof.
  intros Hm. pose proof (chunkObjects_drop s N i 0 ltac:(lia)) as H.
  rewrite drop_0 in H. rewrite H at 1. f_equal. cbn. lia.
Qed.

Lemma take_carved_more (s N : Z) (X : list Z) (n k : nat) :
  (1 <= Z.to_nat (N / s))%nat ->
  take k (X ++ carvedFrom s N n (S k)) = take k (X ++ carvedFrom s N n k).
Proof.
  intros Hm. rewrite carvedFrom_snoc, app_assoc. apply take_app_le.
  rewrite length_app, carvedFrom_length. nia.
Qed.

Lemma per_chunk (s N : Z) :
  0 < s -> s <= N -> N mod s = 0 ->
  (1 <= Z.to_nat (N / s))%nat /\ N = Z.of_nat (Z.to_nat (N / s)) * s.
Proof.
  intros Hs HN Hdiv.
  assert (Hq : 1 <= N / s) by (apply Z.div_le_lower_bound; lia).
  pose proof (Z.div_mod N s ltac:(lia)) as Hdm.
  rewrite Z2Nat.id by lia. split; lia.
Qed.

Lemma fixalloc_alloc_refill_nsys (f : fixalloc) (w : world) v f' w' :
  fa_list f = 0 -> fa_nchunk f < fa_size f ->
  fixalloc_alloc f w = Done (v, f', w') -> nsys w' = S (nsys w).
Proof.
  intros Hl Hlt H. unfold fixalloc_alloc in H.
  destruct (fa_size f =? 0); [discriminate|].
  rewrite Hl in H. cbn [Z.eqb negb] in H.
  replace (fa_nchunk f <? fa_size f) with true in H by (symmetry; apply Z.ltb_lt; exact Hlt).
  injection H as _ _ <-. destruct (fa_first f); reflexivity.
Qed.

(** One call of [alloc] while the free list is empty: [r] objects of the
    current chunk have been handed out. *)
Lemma carve_layout_step (f : fixalloc) (w : world) v f' w' (r : nat) :
  let s := fa_size f in
  let N := fa_nalloc f in
  let m := Z.to_nat (N / s) in
  0 < s -> s <= N < U32.modulus -> N mod s = 0 ->
  fa_list f = 0 -> (r <= m)%nat ->
  fa_nchunk f = (Z.of_nat m - Z.of_nat r) * s ->
  ((r < m)%nat ->
     fa_chunk f = persistentalloc (nsys w - 1) N 0 + Z.of_nat r * s /\
     0 <= persistentalloc (nsys w - 1) N 0 /\
     persistentalloc (nsys w - 1) N 0 + N < U64.modulus) ->
  (r = m -> 0 <= persistentalloc (nsys w) N 0 /\
            persistentalloc (nsys w) N 0 + N < U64.modulus) ->
  fixalloc_alloc f w = Done (v, f', w') ->
  fa_size f' = s /\ fa_nalloc f' = N /\ fa_list f' = 0 /\
  if (r <? m)%nat
  then v = persistentalloc (nsys w - 1) N 0 + Z.of_nat r * s /\
       nsys w' = nsys w /\
       fa_nchunk f' = (Z.of_nat m - Z.of_nat (S r)) * s /\
       fa_chunk f' = persistentalloc (nsys w - 1) N 0 + Z.of_nat (S r) * s
  else v = persistentalloc (nsys w) N 0 /\
       nsys w' = S (nsys w) /\
       fa_nchunk f' = (Z.of_nat m - 1) * s /\
       fa_chunk f' = persistentalloc (nsys w) N 0 + 1 * s.
Proof.
  intros s N m Hs HN Hdiv Hlist Hr Hn Hcur Hnew H.
  destruct (per_chunk s N Hs (proj1 HN) Hdiv) as (Hm & HNm). fold m in Hm, HNm.
  unfold fixalloc_alloc in H. fold s N in H.
  destruct (Z.eqb_spec s 0) as [|_]; [lia|].
  rewrite Hlist in H. cbn [Z.eqb negb] in H.
  assert (Hws : U32.wrap s = s)
    by (unfold U32.wrap; apply Z.mod_small; unfold U32.modulus in *; lia).
  rewrite Hws in H.
  destruct (Nat.ltb_spec r m) as [Hlt|Hge].
  - destruct (Hcur Hlt) as (Hc & Ha0 & HaN).
    replace (fa_nchunk f <? s) with false in H by (symmetry; apply Z.ltb_ge; nia).
    injection H as Hv Hf Hw. subst v f'. cbn [fa_size fa_nalloc fa_list fa_nchunk fa_chunk].
    split; [reflexivity|]. split; [reflexivity|]. split; [reflexivity|].
    split; [exact Hc|].
    split; [subst w'; destruct (fa_first f); reflexivity|].
    split.
    + unfold U32.sub, U32.wrap. rewrite Hn.
      rewrite Z.mod_small by (unfold U32.modulus in *; nia). lia.
    + unfold U64.add. rewrite Hc.
      rewrite U64Facts.wrap_small by (unfold U64.inRange; nia). lia.
  - assert (r = m) by lia. subst r. destruct (Hnew eq_refl) as (Ha0 & HaN).
    replace (fa_nchunk f <? s) with true in H by (symmetry; apply Z.ltb_lt; nia).
    injection H as Hv Hf Hw. subst v f'. cbn [fa_size fa_nalloc fa_list fa_nchunk fa_chunk].
    split; [reflexivity|]. split; [reflexivity|]. split; [reflexivity|].
    split; [reflexivity|].
    split; [subst w'; destruct (fa_first f); reflexivity|].
    split.
    + unfold U32.sub, U32.wrap.
      rewrite Z.mod_small by (unfold U32.modulus in *; nia). lia.
    + unfold U64.add.
      rewrite U64Facts.wrap_small by (unfold U64.inRange; nia). lia.
Qed.

Lemma carve_layout (k : nat) : forall (f : fixalloc) (w : world) ps f1 w1 (r : nat),
  0 < fa_size f -> fa_size f <= fa_nalloc f < U32.modulus ->
  fa_nalloc f mod fa_size f = 0 ->
  fa_list f = 0 -> (r <= Z.to_nat (fa_nalloc f / fa_size f))%nat ->
  fa_nchunk f = (Z.of_nat (Z.to_nat (fa_nalloc f / fa_size f)) - Z.of_nat r) * fa_size f ->
  ((r < Z.to_nat (fa_nalloc f / fa_size f))%nat ->
     fa_chunk f = persistentalloc (nsys w - 1) (fa_nalloc f) 0 + Z.of_nat r * fa_size f /\
     0 <= persistentalloc (nsys w - 1) (fa_nalloc f) 0 /\
     persistentalloc (nsys w - 1) (fa_nalloc f) 0 + fa_nalloc f < U64.modulus) ->
  allocMany k f w = Done (ps, f1, w1) ->
  (forall i, (nsys w <= i < nsys w1)%nat ->
     0 <= persistentalloc i (fa_nalloc f) 0 /\
     persistentalloc i (fa_nalloc f) 0 + fa_nalloc f < U64.modulus) ->
  ps = take k (drop r (chunkObjects (fa_size f) (fa_nalloc f) (nsys w - 1)) ++
               carvedFrom (fa_size f) (fa_nalloc f) (nsys w) k) /\
  Z.of_nat (nsys w1) * fa_nalloc f - fa_nchunk f1 =
    Z.of_nat (nsys w) * fa_nalloc f - fa_nchunk f + Z.of_nat k * fa_size f /\
  0 <= fa_nchunk f1 <= Z.max (fa_nchunk f) (fa_nalloc f - fa_size f).
Proof.
  induction k as [|k IH]; intros f w ps f1 w1 r Hs HN Hdiv Hlist Hr Hn Hcur H Hfresh;
    cbn [allocMany] in H.
  - injection H as <- <- <-. rewrite take_0. split; [reflexivity|].
    assert (0 <= fa_nchunk f) by (rewrite Hn; apply Z.mul_nonneg_nonneg; lia).
    lia.
  - apply bind_Done in H. destruct H as (((v & f') & w') & H1 & H).
    apply bind_Done in H. destruct H as (((vs & f2) & w2) & H2 & H).
    injection H as <- <- <-.
    destruct (per_chunk _ _ Hs (proj1 HN) Hdiv) as (Hm & HNm).
    pose proof (fixalloc_alloc_nsys _ _ _ _ _ H1) as Hmono1.
    pose proof (allocMany_nsys _ _ _ _ _ _ H2) as Hmono2.
    set (s := fa_size f) in *. set (N := fa_nalloc f) in *.
    set (m := Z.to_nat (N / s)) in *.
    assert (Hstep := carve_layout_step f w v f' w' r Hs HN Hdiv Hlist Hr Hn Hcur).
    fold s N m in Hstep.
    destruct (Nat.ltb_spec r m) as [Hlt|Hge].
    + destruct Hstep as (Hs' & HN' & Hl' & Hv & Hw' & Hn' & Hc'); [lia|exact H1|].
      destruct (Hcur Hlt) as (_ & Ha0 & HaN).
      destruct (IH f' w' vs f2 w2 (S r)) as (Hps & Hbytes & Hleft);
        rewrite ?Hs', ?HN'; fold s N m; try assumption; try lia.
      * intros _. rewrite Hw'. auto.
      * intros i Hi. apply Hfresh. lia.
      * rewrite Hs', HN', Hw' in Hps, Hbytes. rewrite Hs', HN' in Hleft.
        split; [|split].
        -- rewrite chunkObjects_drop by exact Hlt. cbn [app take].
           rewrite take_carved_more by exact Hm. rewrite <- Hv, <- Hps. reflexivity.
        -- nia.
        -- nia.
    + assert (r = m) by lia. subst r.
      assert (Hre : nsys w' = S (nsys w)).
      { apply (fixalloc_alloc_refill_nsys f w v f' w' Hlist); [|exact H1].
        rewrite Hn. fold s. lia. }
      destruct Hstep as (Hs' & HN' & Hl' & Hv & Hw' & Hn' & Hc');
        [intros _; apply Hfresh; lia|exact H1|].
      destruct (Hfresh (nsys w) ltac:(lia)) as (Ha0 & HaN).
      destruct (IH f' w' vs f2 w2 1%nat) as (Hps & Hbytes & Hleft);
        rewrite ?Hs', ?HN'; fold s N m; try assumption; try lia.
      * intros _. rewrite Hw'. cbn [Nat.sub]. rewrite Nat.sub_0_r. auto.
      * intros i Hi. apply Hfresh. lia.
      * rewrite Hs', HN', Hw' in Hps, Hbytes. rewrite Hs', HN' in Hleft.
        cbn [Nat.sub] in Hps. rewrite Nat.sub_0_r in Hps.
        split; [|split].
        -- rewrite drop_ge by (rewrite chunkObjects_length; fold m; lia).
           cbn [app]. change (carvedFrom s N (nsys w) (S k))
             with (chunkObjects s N (nsys w) ++ carvedFrom s N (S (nsys w)) k).
           rewrite (chunkObjects_head s N (nsys w) Hm). cbn [app take].
           rewrite <- Hps, Hv. reflexivity.
        -- nia.
        -- nia.
Qed.

(** X17: starting with an empty free list and no room left in the current
    chunk (the state [init] leaves), the objects handed out by [k] calls of
    [alloc] lie back to back: each chunk obtained from [persistentalloc] is
    cut into [nalloc / size] objects at offsets 0, [size], twice [size] and so on,
    handed out in address order, and only when a chunk is used up is the
    next one obtained. No byte is wasted: the bytes obtained from the
    system are the bytes handed out plus the bytes left in the current
    chunk, and less than one chunk is left. *)
Theorem carved_objects_are_laid_out_in_order (f : fixalloc) (w : world) (k : nat) ps f1 w1 :
  0 < fa_size f -> fa_size f <= fa_nalloc f < U32.modulus ->
  fa_nalloc f mod fa_size f = 0 ->
  fa_list f = 0 -> fa_nchunk f = 0 ->
  allocMany k f w = Done (ps, f1, w1) ->
  (forall i, (nsys w <= i < nsys w1)%nat ->
     0 <= persistentalloc i (fa_nalloc f) 0 /\
     persistentalloc i (fa_nalloc f) 0 + fa_nalloc f < U64.modulus) ->
  ps = take k (carvedFrom (fa_size f) (fa_nalloc f) (nsys w) k) /\
  Z.of_nat (nsys w1 - nsys w) * fa_nalloc f =
    Z.of_nat k * fa_size f + fa_nchunk f1 /\
  0 <= fa_nchunk f1 < fa_nalloc f.
Proof.
  intros Hs HN Hdiv Hlist Hn H Hfresh.
  pose proof (allocMany_nsys _ _ _ _ _ _ H) as Hmono.
  destruct (carve_layout k f w ps f1 w1 (Z.to_nat (fa_nalloc f / fa_size f)))
    as (Hps & Hbytes & Hleft); try assumption; try lia.
  rewrite drop_ge in Hps by (rewrite chunkObjects_length; lia).
  split; [exact Hps|]. rewrite Hn in Hbytes, Hleft. split; [|lia].
  rewrite Nat2Z.inj_sub by exact Hmono. lia.
Qed.

End CarveLayout.

(** * What no call of the fixed-size allocator changes *)

Section FixAllocFrame.
Context {R : Runtime}.

Lemma fixalloc_step_frame (s s' : fixalloc * world) :
  fixalloc_step s s' ->
  sameConfiguration s.1 s'.1 /\ (nsys s.2 <= nsys s'.2)%nat /\
  exists l, touched s'.2 = l ++ touched s.2 /\ (fa_first s.1 = false -> l = []).
Proof.
  intros [f w v f' w' H|f w p f' w' H]; cbn [fst snd].
  - unfold fixalloc_alloc in H.
    destruct (fa_size f =? 0); [discriminate|].
    destruct (negb (fa_list f =? 0)); injection H as _ <- <-.
    + split; [repeat split|]. split; [destruct (fa_zero f); cbn; lia|].
      exists []. split; [destruct (fa_zero f); reflexivity | reflexivity].
    + split; [repeat split|].
      split; [destruct (fa_nchunk f <? fa_size f), (fa_first f); cbn; lia|].
      destruct (fa_first f) eqn:Hf.
      * destruct (fa_nchunk f <? fa_size f); eexists [_]; (split; [reflexivity|discriminate]).
      * exists []. split; [|reflexivity].
        destruct (fa_nchunk f <? fa_size f); reflexivity.
  - unfold fixalloc_free in H. destruct (p =? 0); [discriminate|].
    injection H as <- <-. split; [repeat split|]. split; [cbn; lia|].
    exists []. split; reflexivity.
Qed.

Lemma allocMany_reach (k : nat) : forall (f : fixalloc) (w : world) ps f' w',
  allocMany k f w = Done (ps, f', w') -> fixalloc_reach (f, w) (f', w').
Proof.
  induction k as [|k IH]; intros f w ps f' w' H; cbn [allocMany] in H.
  - injection H as _ <- <-. apply rtc_refl.
  - apply bind_Done in H. destruct H as (((v & f1) & w1) & H1 & H).
    apply bind_Done in H. destruct H as (((vs & f2) & w2) & H2 & H).
    injection H as _ <- <-.
    eapply rtc_l; [exact (step_alloc _ _ _ _ _ H1)|]. exact (IH _ _ _ _ _ H2).
Qed.

(** X18: whatever calls of [alloc] and [free] are made on an allocator, in
    any order and with any pointers, the fields that [init] set stay as
    they are: the object size, the chunk size, the callback and its
    argument, the statistic and the zeroing flag. Chunks are never given
    back: the number obtained from [persistentalloc] does not decrease.
    The log of first-touch calls only grows, and stays as it is when there
    is no callback. *)
Theorem calls_keep_the_configuration (f f' : fixalloc) (w w' : world) :
  fixalloc_reach (f, w) (f', w') ->
  sameConfiguration f f' /\ (nsys w <= nsys w')%nat /\
  exists l, touched w' = l ++ touched w /\ (fa_first f = false -> l = []).
Proof.
  intros H.
  change (sameConfiguration (f, w).1 (f', w').1 /\
          (nsys (f, w).2 <= nsys (f', w').2)%nat /\
          exists l, touched (f', w').2 = l ++ touched (f, w).2 /\
                    (fa_first (f, w).1 = false -> l = [])).
  induction H as [s|s1 s2 s3 Hstep _ IH].
  - split; [repeat split|]. split; [lia|]. exists []. auto.
  - destruct (fixalloc_step_frame _ _ Hstep) as (Hc1 & Hn1 & l1 & Ht1 & Hl1).
    destruct IH as (Hc2 & Hn2 & l2 & Ht2 & Hl2).
    unfold sameConfiguration in *.
    destruct Hc1 as (A1 & B1 & C1 & D1 & E1 & F1).
    destruct Hc2 as (A2 & B2 & C2 & D2 & E2 & F2).
    split; [repeat split; congruence|]. split; [lia|].
    exists (l2 ++ l1). split.
    + rewrite Ht2, Ht1, app_assoc. reflexivity.
    + intros Hf. rewrite Hl1 by exact Hf. rewrite Hl2 by congruence. reflexivity.
Qed.

End FixAllocFrame.

(** ** The further properties on the concrete runtime *)

Section MoreExamples.

Import U64.

Local Existing Instance Model.runtime.

Ltac by_compute := vm_compute; repeat split; try reflexivity; try discriminate.


Lemma alloc_takes_exactly_npages_witness :
  pageCache_ok Model.cache0 /\ cache Model.cache0 <> 0 /\ 1 <= 3 /\
  isRun (cache Model.cache0) (findBitRange64 (cache Model.cache0) 3) 3 /\
  OnesCount64 (cache (alloc Model.cache0 1).2) = OnesCount64 (cache Model.cache0) - 1 /\
  OnesCount64 (cache (allocN Model.cache0 3).2) = OnesCount64 (cache Model.cache0) - 3.
Proof.
  assert (H1 : pageCache_ok Model.cache0) by by_compute.
  assert (H2 : cache Model.cache0 <> 0) by by_compute.
  assert (H3 : 1 <= 3) by lia.
  assert (H4 : isRun (cache Model.cache0) (findBitRange64 (cache Model.cache0) 3) 3).
  { destruct (ModelFacts.findBitRange64_finds (cache Model.cache0) 3
                (proj1 (proj2 H1)) ltac:(lia)) as (Hf & _).
    apply Hf. by_compute. }
  split; [exact H1|]. split; [exact H2|]. split; [exact H3|]. split; [exact H4|].
  destruct (alloc_takes_exactly_npages Model.cache0 3 H1 H2) as (A & B).
  split; [exact A | exact (B H3 H4)].
Defined.

Lemma alloc_unmarks_scavenged_witness :
  (forall j, Z.testbit (scav Model.cache0) j = true ->
     Z.testbit (cache Model.cache0) j = true) /\
  (forall j, Z.testbit (scav (alloc Model.cache0 3).2) j = true ->
     Z.testbit (cache (alloc Model.cache0 3).2) j = true).
Proof.
  assert (H1 : forall j, Z.testbit (scav Model.cache0) j = true ->
                 Z.testbit (cache Model.cache0) j = true).
  { assert (E : scav Model.cache0 = Z.land (scav Model.cache0) (cache Model.cache0))
      by (vm_compute; reflexivity).
    intros j Hj. rewrite E, Z.land_spec in Hj.
    apply andb_true_iff in Hj. exact (proj2 Hj). }
  split; [exact H1|].
  exact (proj1 (proj2 (alloc_unmarks_scavenged Model.cache0 3)) H1).
Defined.

Lemma alloc_never_returns_a_page_twice_witness :
  pageCache_ok Model.cache0 /\ 1 <= 3 /\ cache Model.cache0 <> 0 /\
  0 <= allocIndex Model.cache0 3 < 64 /\
  isRun (cache (allocAll [1] (alloc Model.cache0 3).2)) 20 3 /\
  (allocIndex Model.cache0 3 + 3 <= 20 \/ 20 + 3 <= allocIndex Model.cache0 3).
Proof.
  assert (H1 : pageCache_ok Model.cache0) by by_compute.
  assert (H2 : 1 <= 3) by lia.
  assert (H3 : cache Model.cache0 <> 0) by by_compute.
  assert (H4 : 0 <= allocIndex Model.cache0 3 < 64) by by_compute.
  assert (H5 : isRun (cache (allocAll [1] (alloc Model.cache0 3).2)) 20 3).
  { split; [lia|]. split; [lia|]. intros j Hj.
    assert (Hc : j = 20 \/ j = 21 \/ j = 22) by lia.
    destruct Hc as [->|[->| ->]]; vm_compute; reflexivity. }
  split; [exact H1|]. split; [exact H2|]. split; [exact H3|]. split; [exact H4|].
  split; [exact H5|].
  exact (alloc_never_returns_a_page_twice Model.cache0 3 3 20 [1] H1 H2 H2 H3 H4 H5).
Defined.

Lemma alloc_one_agrees_with_allocN_witness :
  pageCache_ok Model.cache0 /\ cache Model.cache0 <> 0 /\
  findsLowestRun findBitRange64 (cache Model.cache0) 1 /\
  alloc Model.cache0 1 = allocN Model.cache0 1.
Proof.
  assert (H1 : pageCache_ok Model.cache0) by by_compute.
  assert (H2 : cache Model.cache0 <> 0) by by_compute.
  assert (H3 : findsLowestRun findBitRange64 (cache Model.cache0) 1)
    by (apply ModelFacts.findBitRange64_finds; [exact (proj1 (proj2 H1)) | lia]).
  split; [exact H1|]. split; [exact H2|]. split; [exact H3|].
  exact (alloc_one_agrees_with_allocN Model.cache0 H1 H2 H3).
Defined.

Lemma cache_serves_its_free_pages_witness :
  pageCache_ok Model.cache0 /\
  Z.of_nat (length (allocOnes 12 Model.cache0)) =
    Z.min (Z.of_nat 12) (OnesCount64 (cache Model.cache0)).
Proof.
  assert (H1 : pageCache_ok Model.cache0) by by_compute.
  split; [exact H1|].
  exact (proj1 (cache_serves_its_free_pages Model.cache0 12 H1)).
Defined.

Lemma flush_leaves_cache_empty_witness :
  exists c' p',
    flush Model.cache3 Model.alloc2 = Done (c', p') /\ empty c' = true.
Proof.
  destruct (flush Model.cache3 Model.alloc2) as [[c' p']|e] eqn:E.
  - exists c', p'. split; [reflexivity|].
    exact (proj1 (flush_leaves_cache_empty Model.cache3 c' Model.alloc2 p' E)).
  - exfalso. vm_compute in E. discriminate E.
Defined.

Lemma flush_touches_one_chunk_witness :
  exists c' p',
    flush Model.cache3 Model.alloc3 = Done (c', p') /\
    end_ p' = end_ Model.alloc3 /\
    chunks p' !! 1 = chunks Model.alloc3 !! 1.
Proof.
  destruct (flush Model.cache3 Model.alloc3) as [[c' p']|e] eqn:E.
  - exists c', p'. split; [reflexivity|].
    destruct (flush_touches_one_chunk Model.cache3 c' Model.alloc3 p' E)
      as (_ & Hend & Hch & _).
    split; [exact Hend|]. apply Hch. vm_compute. discriminate.
  - exfalso. vm_compute in E. discriminate E.
Defined.


Lemma allocToCache_exhaustion_is_sticky_witness :
  end_ Model.alloc2 <= chunkIndex maxSearchAddr /\
  chunkIndex (searchAddr Model.alloc2) < end_ Model.alloc2 /\
  pageAlloc_find Model.alloc2 1 = Done (0, 0) /\
  allocToCacheMany 3 Model.alloc2 =
    Done (replicate 3 emptyCache, set_searchAddr Model.alloc2 maxSearchAddr).
Proof.
  assert (H1 : end_ Model.alloc2 <= chunkIndex maxSearchAddr) by by_compute.
  assert (H2 : chunkIndex (searchAddr Model.alloc2) < end_ Model.alloc2) by by_compute.
  assert (H3 : last (summary Model.alloc2) = Some [0]) by (vm_compute; reflexivity).
  assert (H4 : [0] !! Z.to_nat (chunkIndex (searchAddr Model.alloc2)) = Some 0)
    by reflexivity.
  assert (H5 : pageAlloc_find Model.alloc2 1 = Done (0, 0)) by (vm_compute; reflexivity).
  split; [exact H1|]. split; [exact H2|]. split; [exact H5|].
  exact (allocToCache_exhaustion_is_sticky Model.alloc2 [0] (0, 0) 2 H1 H2 H3 H4 H5 eq_refl).
Defined.

Lemma allocToCache_touches_one_chunk_witness :
  exists c p',
    allocToCache Model.alloc3 = Done (c, p') /\
    start p' = start Model.alloc3 /\ end_ p' = end_ Model.alloc3.
Proof.
  destruct (allocToCache Model.alloc3) as [[c p']|e] eqn:E.
  - exists c, p'. split; [reflexivity|].
    destruct (allocToCache_touches_one_chunk Model.alloc3 c p' E) as (Hs & He & _).
    split; assumption.
  - exfalso. vm_compute in E. discriminate E.
Defined.

Lemma init_rounds_chunk_size_witness :
  0 <= 24 <= _FixAllocChunk /\ mlinkSize <= _FixAllocChunk < U32.modulus /\
  exists f,
    init 24 true 0 0 = Done f /\
    fa_size f = Z.max 24 mlinkSize /\
    fa_nalloc f mod fa_size f = 0 /\
    _FixAllocChunk - fa_size f < fa_nalloc f <= _FixAllocChunk.
Proof.
  assert (H1 : 0 <= 24 <= _FixAllocChunk) by by_compute.
  assert (H2 : mlinkSize <= _FixAllocChunk < U32.modulus) by by_compute.
  split; [exact H1|]. split; [exact H2|].
  destruct (init_rounds_chunk_size 24 true 0 0 H1 H2) as (f & A & B & C & D & _).
  exists f. split; [exact A|]. split; [exact B|]. split; [exact C | exact D].
Defined.

Lemma inuse_counts_allocated_bytes_witness :
  inRange (fa_inuse Model.fix0) /\
  allocMany 3 Model.fix0 Model.world0 =
    Done ([65536; 65552; 65568], Model.fix1, Model.world1) /\
  exists f2 w2,
    freeAll [65552; 65536; 65568] Model.fix1 Model.world1 = Done (f2, w2) /\
    fa_inuse Model.fix1 =
      wrap (fa_inuse Model.fix0 + Z.of_nat 3 * fa_size Model.fix0) /\
    fa_inuse f2 = fa_inuse Model.fix0.
Proof.
  assert (H1 : inRange (fa_inuse Model.fix0)) by by_compute.
  assert (H2 : allocMany 3 Model.fix0 Model.world0 =
               Done ([65536; 65552; 65568], Model.fix1, Model.world1))
    by (vm_compute; reflexivity).
  split; [exact H1|]. split; [exact H2|].
  destruct (freeAll [65552; 65536; 65568] Model.fix1 Model.world1) as [[f2 w2]|e] eqn:E.
  - exists f2, w2. split; [reflexivity|].
    exact (inuse_counts_allocated_bytes Model.fix0 Model.world0 3 _ _ _
             [65552; 65536; 65568] f2 w2 H1 H2 E eq_refl).
  - exfalso. vm_compute in E. discriminate E.
Defined.


Lemma first_touch_once_per_carved_object_witness :
  fa_list Model.fix0 = 0 /\
  allocMany 3 Model.fix0 Model.world0 =
    Done ([65536; 65552; 65568], Model.fix1, Model.world1) /\
  touched Model.world1 = rev [65536; 65552; 65568] ++ touched Model.world0.
Proof.
  assert (H1 : fa_list Model.fix0 = 0) by reflexivity.
  assert (H2 : allocMany 3 Model.fix0 Model.world0 =
               Done ([65536; 65552; 65568], Model.fix1, Model.world1))
    by (vm_compute; reflexivity).
  split; [exact H1|]. split; [exact H2|].
  exact (proj2 (first_touch_once_per_carved_object Model.fix0 Model.world0 3 _ _ _ H1 H2)).
Defined.

Lemma carved_objects_are_laid_out_in_order_witness :
  0 < fa_size fixWide0 /\ fa_size fixWide0 <= fa_nalloc fixWide0 < U32.modulus /\
  fa_nalloc fixWide0 mod fa_size fixWide0 = 0 /\
  fa_list fixWide0 = 0 /\ fa_nchunk fixWide0 = 0 /\
  allocMany 3 fixWide0 Model.world0 =
    Done ([65536; 73728; 131072], fixWide1, worldWide1) /\
  (forall i, (nsys Model.world0 <= i < nsys worldWide1)%nat ->
     0 <= persistentalloc i (fa_nalloc fixWide0) 0 /\
     persistentalloc i (fa_nalloc fixWide0) 0 + fa_nalloc fixWide0 < modulus) /\
  [65536; 73728; 131072] =
    take 3 (carvedFrom (fa_size fixWide0) (fa_nalloc fixWide0) (nsys Model.world0) 3) /\
  Z.of_nat (nsys worldWide1 - nsys Model.world0) * fa_nalloc fixWide0 =
    Z.of_nat 3 * fa_size fixWide0 + fa_nchunk fixWide1.
Proof.
  assert (H1 : 0 < fa_size fixWide0) by by_compute.
  assert (H2 : fa_size fixWide0 <= fa_nalloc fixWide0 < U32.modulus) by by_compute.
  assert (H3 : fa_nalloc fixWide0 mod fa_size fixWide0 = 0) by reflexivity.
  assert (H4 : fa_list fixWide0 = 0) by reflexivity.
  assert (H5 : fa_nchunk fixWide0 = 0) by reflexivity.
  assert (H6 : allocMany 3 fixWide0 Model.world0 =
               Done ([65536; 73728; 131072], fixWide1, worldWide1))
    by (vm_compute; reflexivity).
  assert (H7 : forall i, (nsys Model.world0 <= i < nsys worldWide1)%nat ->
     0 <= persistentalloc i (fa_nalloc fixWide0) 0 /\
     persistentalloc i (fa_nalloc fixWide0) 0 + fa_nalloc fixWide0 < modulus).
  { intros i Hi. cbn [nsys Model.world0 worldWide1] in Hi.
    cbn [persistentalloc Model.runtime fa_nalloc fixWide0].
    unfold Model.persistentalloc, modulus. lia. }
  split; [exact H1|]. split; [exact H2|]. split; [exact H3|]. split; [exact H4|].
  split; [exact H5|]. split; [exact H6|]. split; [exact H7|].
  destruct (carved_objects_are_laid_out_in_order fixWide0 Model.world0 3 _ _ _
              H1 H2 H3 H4 H5 H6 H7) as (A & B & _).
  split; [exact A | exact B].
Defined.

Lemma calls_keep_the_configuration_witness :
  fixalloc_reach (Model.fix0, Model.world0) (Model.fix1, Model.world1) /\
  sameConfiguration Model.fix0 Model.fix1 /\
  (nsys Model.world0 <= nsys Model.world1)%nat.
Proof.
  assert (H1 : fixalloc_reach (Model.fix0, Model.world0) (Model.fix1, Model.world1)).
  { apply (allocMany_reach 3 _ _ [65536; 65552; 65568]). vm_compute. reflexivity. }
  split; [exact H1|].
  destruct (calls_keep_the_configuration Model.fix0 Model.fix1 Model.world0 Model.world1 H1)
    as (A & B & _).
  split; [exact A | exact B].
Defined.

End MoreExamples.
